(** * CardLists: the checklist normalizer and the dataset flattener

    A shallow embedding of [scripts/parse-panini-checklist-csv.py] and
    [export/build_parquet.py].

    Conventions of the embedding.
    - A Python [str] is a [string]: its characters are the code points below
      256, and the character classes ([isspace], [isdigit], [lower]) are
      Python's on these code points.  A cell with a character beyond them is
      outside the embedding.
    - A call that can raise has two embeddings: the value it returns when it
      returns (a total function, under the source's name), and in the module
      [Raising] the same call with its exception.  The run takes its
      exceptions from the second and its values from the first.
    - A Python [set] is a [gset]; a [dict] whose iteration order is observed
      is an association list in insertion order; a [dict] with a fixed set of
      possible keys is a record whose optional keys are [option] fields
      ([None]: the key is absent).
    - Loops are [fold_left]s over the iterated list, the loop's variables
      being the accumulator.
    - [uuid.uuid4()] is an oracle [uuid4 : nat → string]; the number of calls
      made so far is threaded through the code.
    - [print] and the output file are events of a trace. *)

From Stdlib Require Import ZArith Ascii String DecimalString List Permutation Lia.
From Stdlib Require DecimalN DecimalFacts.
From stdpp Require Import gmap strings list.

Import ListNotations.

(** ** Python string primitives *)

Module PyStr.

(** [c.isspace()]: TAB, LF, VT, FF, CR, the four separators FS, GS, RS, US,
    the space, NEL (U+0085) and the no-break space (U+00A0). *)
Definition isspace (c : ascii) : bool :=
  let n := nat_of_ascii c in
  ((9 <=? n) && (n <=? 13)) || ((28 <=? n) && (n <=? 32))
  || (n =? 133) || (n =? 160).

(** [c.isdecimal()]: the digits [0] to [9], the characters [int] reads. *)
Definition isdecimal_char (c : ascii) : bool :=
  let n := nat_of_ascii c in (48 <=? n) && (n <=? 57).

(** [c.isdigit()]: the decimal digits and the superscripts two, three and
    one (U+00B2, U+00B3, U+00B9). *)
Definition isdigit_char (c : ascii) : bool :=
  let n := nat_of_ascii c in
  isdecimal_char c || (n =? 178) || (n =? 179) || (n =? 185).

Fixpoint drop_while (p : ascii → bool) (l : list ascii) : list ascii :=
  match l with
  | [] => []
  | c :: l' => if p c then drop_while p l' else l
  end.

(** Removal of the leading and trailing characters that satisfy [p]. *)
Definition strip_list (p : ascii → bool) (l : list ascii) : list ascii :=
  rev (drop_while p (rev (drop_while p l))).

(** The list does not begin with a character that satisfies [p]. *)
Definition clean_head (p : ascii → bool) (l : list ascii) : Prop :=
  match l with
  | [] => True
  | c :: _ => p c = false
  end.

Definition strip_by (p : ascii → bool) (s : string) : string :=
  string_of_list_ascii (strip_list p (list_ascii_of_string s)).

(** [s.strip()] *)
Definition strip (s : string) : string := strip_by isspace s.

Definition mem_char (chars : string) (c : ascii) : bool :=
  existsb (Ascii.eqb c) (list_ascii_of_string chars).

(** [s.strip(chars)] *)
Definition strip_chars (chars : string) (s : string) : string :=
  strip_by (mem_char chars) s.

(** [s.isdigit()]: non-empty and made of digits only. *)
Definition isdigit (s : string) : bool :=
  match list_ascii_of_string s with
  | [] => false
  | l => forallb isdigit_char l
  end.

(** [s.isdecimal()]: non-empty and made of decimal digits only. *)
Definition isdecimal (s : string) : bool :=
  match list_ascii_of_string s with
  | [] => false
  | l => forallb isdecimal_char l
  end.

(** [sys.int_info.default_max_str_digits]: [int] refuses a string with more
    digits. *)
Definition max_str_digits : Z := 4300.

(** The value [int(s)] returns for a string of decimal digits. *)
Definition int (s : string) : Z :=
  fold_left (λ acc c, 10 * acc + Z.of_nat (nat_of_ascii c - 48))%Z
            (list_ascii_of_string s) 0%Z.

(** [str(n)] for a non-negative integer: its decimal digits. *)
Definition str (n : Z) : string :=
  NilZero.string_of_uint (N.to_uint (Z.to_N n)).

(** [s.startswith(prefix)] *)
Definition startswith (s pre : string) : bool := String.prefix pre s.

(** [s[n:]] *)
Fixpoint slice_from (n : nat) (s : string) : string :=
  match n, s with
  | O, _ => s
  | S n', String _ s' => slice_from n' s'
  | S _, EmptyString => EmptyString
  end.

(** The capital letters: [A] to [Z], and U+00C0 to U+00DE but for the
    multiplication sign U+00D7. *)
Definition lower_char (c : ascii) : ascii :=
  let n := nat_of_ascii c in
  if ((65 <=? n) && (n <=? 90))
     || ((192 <=? n) && (n <=? 222) && negb (n =? 215))
  then ascii_of_nat (n + 32) else c.

(** [s.lower()] *)
Fixpoint lower (s : string) : string :=
  match s with
  | EmptyString => EmptyString
  | String c s' => String (lower_char c) (lower s')
  end.

(** [needle in s] *)
Fixpoint contains (needle s : string) : bool :=
  String.prefix needle s ||
  match s with
  | EmptyString => false
  | String _ s' => contains needle s'
  end.

End PyStr.

(** ** Exceptions *)

(** The exceptions of a run: [KeyError] of a label the frame lacks,
    [ValueError] of [int] with the string it was given, the exception of
    [read_csv], [OSError] of the output file, and the exception of a [print]
    whose line the standard output does not take. *)
Inductive Exception : Type :=
| KeyError (key : string)
| ValueError (literal : string)
| ReadError (message : string)
| OSError (path : string)
| PrintError (line : string).

(** ** The normalizer's helpers *)

(** [normalize_text]: the cells of the data frame are all [str] (the frame is
    read with [dtype=str] and missing cells are filled with the empty string),
    so the [isinstance] test holds. *)
Definition normalize_text (s : string) : string := PyStr.strip s.

(** The only whitespace the string has is the space. *)
Definition plain_spaces (s : string) : Prop :=
  ∀ c, In c (list_ascii_of_string s) → PyStr.isspace c = true → c = " "%char.

Definition normalize_card_number (num_str : string) : string :=
  let num_str := normalize_text num_str in
  if PyStr.isdigit num_str then PyStr.str (PyStr.int num_str) else num_str.

Definition get_attributes_for_set (set_name : string) : list string :=
  let attrs := [] in
  let lower_set := PyStr.lower set_name in
  let attrs := if PyStr.contains "autograph" lower_set then attrs ++ ["AU"] else attrs in
  let attrs := if PyStr.contains "relic" lower_set then attrs ++ ["RELIC"] else attrs in
  attrs.

(** [seq_value = int(seq_str) if seq_str.isdigit() else None] with
    [seq_str = normalize_text(row["SEQUENCE"])] *)
Definition parse_sequence (sequence : string) : option Z :=
  let seq_str := normalize_text sequence in
  if PyStr.isdigit seq_str then Some (PyStr.int seq_str) else None.

(** The calls with their exceptions.  [normalize_card_number] and
    [parse_sequence] above are the values returned when [int] returns. *)
Module Raising.

(** [int(s)] for a string without sign, underscore and whitespace, as are
    the strings [isdigit] accepts: [ValueError] for a character that is not
    a decimal digit and for more than [max_str_digits] digits. *)
Definition int (s : string) : Exception + Z :=
  if PyStr.isdecimal s
     && (Z.of_nat (String.length s) <=? PyStr.max_str_digits)%Z
  then inr (PyStr.int s)
  else inl (ValueError s).

Definition normalize_card_number (num_str : string) : Exception + string :=
  let num_str := normalize_text num_str in
  if PyStr.isdigit num_str then
    match int num_str with
    | inl e => inl e
    | inr n => inr (PyStr.str n)
    end
  else inr num_str.

Definition parse_sequence (sequence : string) : Exception + option Z :=
  let seq_str := normalize_text sequence in
  if PyStr.isdigit seq_str then
    match int seq_str with
    | inl e => inl e
    | inr n => inr (Some n)
    end
  else inr None.

End Raising.

(** The exception of a call, if it raises. *)
Definition exception_of {A} (call : Exception + A) : list Exception :=
  match call with
  | inl e => [e]
  | inr _ => []
  end.

(** ** The data frame *)

(** One record of the CSV, as [iterrows] yields it; a missing cell is the
    empty string. *)
Record Row := {
  YEAR : string;
  BRAND : string;
  PROGRAM : string;
  SPORT : string;
  CARD_SET : string;
  CARD_NUMBER : string;
  ATHLETE : string;
  SEQUENCE : string;
}.

Global Instance Row_eq_dec : EqDecision Row.
Proof. solve_decision. Defined.

(** ** Initial grouping (the starts-with rule) *)

Record Group := {
  base_set : string;
  base_rows : list Row;
  parallel_rows : list (Row * string);
}.

(** A group opened by its first row. *)
Definition open_group (card_set : string) (r : Row) : Group :=
  {| base_set := card_set; base_rows := [r]; parallel_rows := [] |}.

(** [group["base_rows"].append(row)] *)
Definition add_base_row (group : Group) (r : Row) : Group :=
  {| base_set := base_set group;
     base_rows := base_rows group ++ [r];
     parallel_rows := parallel_rows group |}.

(** [group["parallel_rows"].append((row, parallel_name))] *)
Definition add_parallel_row (group : Group) (r : Row) (parallel_name : string)
  : Group :=
  {| base_set := base_set group;
     base_rows := base_rows group;
     parallel_rows := parallel_rows group ++ [(r, parallel_name)] |}.

(** The loop's variables: [groups], and [current_group] with [current_base]
    ([None] until the first row, both are assigned together). *)
Definition GrouperState : Type := list Group * option (Group * string).

Definition group_step (st : GrouperState) (r : Row) : GrouperState :=
  let '(groups, current) := st in
  let card_set := normalize_text (CARD_SET r) in
  match current with
  | None => (groups, Some (open_group card_set r, card_set))
  | Some (current_group, current_base) =>
      if String.eqb card_set current_base
         || PyStr.startswith card_set (current_base +:+ " ")
      then
        if String.eqb card_set current_base then
          (groups, Some (add_base_row current_group r, current_base))
        else
          let parallel_name :=
            PyStr.strip_chars " -"
              (normalize_text
                 (PyStr.slice_from (String.length current_base + 1) card_set)) in
          (groups,
           Some (add_parallel_row current_group r parallel_name, current_base))
      else
        (groups ++ [current_group], Some (open_group card_set r, card_set))
  end.

Definition grouper_init : GrouperState := ([], None).

(** The state of the loop after the rows [df]. *)
Definition grouper_run (df : list Row) : GrouperState :=
  fold_left group_step df grouper_init.

(** [if current_group is not None: groups.append(current_group)] *)
Definition grouper_finish (st : GrouperState) : list Group :=
  match st with
  | (groups, Some (current_group, _)) => groups ++ [current_group]
  | (groups, None) => groups
  end.

Definition group_rows (df : list Row) : list Group :=
  grouper_finish (grouper_run df).

(** The rows a group holds, base rows first. *)
Definition group_members (g : Group) : list Row :=
  base_rows g ++ map fst (parallel_rows g).

(** The rows a state of the grouping loop holds. *)
Definition state_members (st : GrouperState) : list Row :=
  concat (map group_members (fst st))
  ++ match snd st with
     | Some (g, _) => group_members g
     | None => []
     end.

(** What holds of the states the grouping loop reaches: [current_base] is
    the current group's [base_set], and every [base_set] is trimmed. *)
Definition grouper_inv (st : GrouperState) : Prop :=
  Forall (λ g, normalize_text (base_set g) = base_set g) (fst st)
  ∧ match snd st with
    | Some (g, b) => b = base_set g ∧ normalize_text b = b
    | None => fst st = []
    end.

(** A group has a base row: the row that opened it. *)
Definition has_base_row (g : Group) : Prop := base_rows g ≠ [].

(** ** Merging *)

(** The key of a row: canonical card number and trimmed athlete name. *)
Definition base_key (r : Row) : string * string :=
  (normalize_card_number (CARD_NUMBER r), normalize_text (ATHLETE r)).

Definition get_base_keys (group : Group) : gset (string * string) :=
  list_to_set (map base_key (base_rows group)).

Definition is_parallel_candidate (group1 group2 : Group) : bool :=
  bool_decide (get_base_keys group1 = get_base_keys group2).

(** The two [append] loops that move [group] into [m_group]. *)
Definition absorb (m_group group : Group) : Group :=
  let rows1 :=
    fold_left (λ acc row, acc ++ [(row, normalize_text (base_set group))])
              (base_rows group) (parallel_rows m_group) in
  let rows2 := fold_left (λ acc tup, acc ++ [tup]) (parallel_rows group) rows1 in
  {| base_set := base_set m_group;
     base_rows := base_rows m_group;
     parallel_rows := rows2 |}.

(** The inner [for m_group in merged_groups] loop with its [break]:
    [None] when it ends with [merged = False]. *)
Fixpoint merge_scan (merged_groups : list Group) (group : Group)
  : option (list Group) :=
  match merged_groups with
  | [] => None
  | m_group :: rest =>
      if is_parallel_candidate m_group group
      then Some (absorb m_group group :: rest)
      else cons m_group <$> merge_scan rest group
  end.

Definition merge_step (merged_groups : list Group) (group : Group) : list Group :=
  match merge_scan merged_groups group with
  | Some merged_groups' => merged_groups'
  | None => merged_groups ++ [group]
  end.

Definition merge_groups (groups : list Group) : list Group :=
  fold_left merge_step groups [].

(** The finalized group [A] after the group [B] has merged into it, [B]'s
    [base_set] being trimmed already. *)
Definition merged_into (A B : Group) : Group :=
  {| base_set := base_set A;
     base_rows := base_rows A;
     parallel_rows :=
       parallel_rows A ++ map (λ r, (r, base_set B)) (base_rows B)
       ++ parallel_rows B |}.

(** ** JSON values *)

#[warnings="-register-all"]
Inductive json : Type :=
| JNull
| JBool (b : bool)
| JInt (n : Z)
| JReal (literal : string)
| JStr (s : string)
| JArr (items : list json)
| JObj (members : list (string * json)).

(** The value of the member [k] of an object, if it has one. *)
Fixpoint get_member (k : string) (members : list (string * json)) : option json :=
  match members with
  | [] => None
  | (k', v) :: rest => if String.eqb k' k then Some v else get_member k rest
  end.

Definition members_of (j : json) : list (string * json) :=
  match j with
  | JObj members => members
  | _ => []
  end.

(** ** The objects the normalizer builds

    Each [dict] has a fixed set of possible keys.  A key that the code may
    leave out is an [option]; a value that may be Python's [None] is an
    [option Z] ([None] for [None]), so that a key whose value may be [None]
    has type [option (option Z)]. *)

Module Parallel.
Record t := {
  name : string;
  numberedTo : option (option Z);
}.
End Parallel.

Module Card.
Record t := {
  uniqueId : string;
  number : string;
  name : string;
  _sequence : option (option Z);
  numberedTo : option (option Z);
  attributes : option (list string);
  parallels : option (list Parallel.t);
  note : option string;
}.

Definition key (card : t) : string * string := (number card, name card).

Definition set_parallels (v : option (list Parallel.t)) (card : t) : t :=
  {| uniqueId := uniqueId card; number := number card; name := name card;
     _sequence := _sequence card; numberedTo := numberedTo card;
     attributes := attributes card; parallels := v; note := note card |}.

Definition set_numberedTo (v : option (option Z)) (card : t) : t :=
  {| uniqueId := uniqueId card; number := number card; name := name card;
     _sequence := _sequence card; numberedTo := v;
     attributes := attributes card; parallels := parallels card;
     note := note card |}.

(** [if "parallels" not in card: card["parallels"] = []] followed by
    [card["parallels"].append(parallel_obj)] *)
Definition attach (parallel_obj : Parallel.t) (card : t) : t :=
  set_parallels (Some (default [] (parallels card) ++ [parallel_obj])) card.

Definition pop_sequence (card : t) : t :=
  {| uniqueId := uniqueId card; number := number card; name := name card;
     _sequence := None; numberedTo := numberedTo card;
     attributes := attributes card; parallels := parallels card;
     note := note card |}.
End Card.

Module CardSet.
Record t := {
  uniqueId : string;
  name : string;
  cards : list Card.t;
  parallels : list Parallel.t;
  variations : list json;
  numberedTo : option (option Z);
}.
End CardSet.

Module Release.
Record t := {
  schema : string;
  name : string;
  version : string;
  uniqueId : string;
  attributes : list json;
  notes : list json;
  sets : list CardSet.t;
}.
End Release.

(** [s.pop()] on a set: some element of it (the only one when the set is a
    singleton); [None] stands for the [KeyError] of an empty set. *)
Definition set_pop `{Countable A} (s : gset A) : option A := head (elements s).

(** The test [s and len(s) == 1 and (None not in s)] followed by [s.pop()]:
    [Some v] when the test holds, [v] being the popped element. *)
Definition uniform_sequence (sequences : gset (option Z)) : option (option Z) :=
  if bool_decide (sequences ≠ ∅) && bool_decide (size sequences = 1)
     && bool_decide (None ∉ sequences)
  then set_pop sequences
  else None.

(** [d.setdefault(k, []).append(row)] on a dict kept in insertion order. *)
Fixpoint setdefault_append (d : list (string * list Row)) (k : string) (r : Row)
  : list (string * list Row) :=
  match d with
  | [] => [(k, [r])]
  | (k', rows) :: d' =>
      if String.eqb k' k then (k', rows ++ [r]) :: d'
      else (k', rows) :: setdefault_append d' k r
  end.

Definition parallels_by_name (parallel_rows : list (Row * string))
  : list (string * list Row) :=
  fold_left (λ d '(r, parallel_name), setdefault_append d parallel_name r)
            parallel_rows [].

(** The search [for card_obj in base_cards: if card_obj["number"] == card_number]
    with its [break]: the first card with that number gets the parallel
    appended; [None] when the loop ends with [found = False]. *)
Fixpoint attach_parallel (base_cards : list Card.t) (card_number : string)
    (parallel_obj : Parallel.t) : option (list Card.t) :=
  match base_cards with
  | [] => None
  | card_obj :: rest =>
      if String.eqb (Card.number card_obj) card_number
      then Some (Card.attach parallel_obj card_obj :: rest)
      else cons card_obj <$> attach_parallel rest card_number parallel_obj
  end.

(** The duplicate-removal loop: [(unique_cards, seen_keys, duplicates_found)]. *)
Definition DedupState : Type := list Card.t * gset (string * string) * bool.

Definition dedup_step (st : DedupState) (card : Card.t) : DedupState :=
  let '(unique_cards, seen_keys, duplicates_found) := st in
  let key := (Card.number card, Card.name card) in
  if bool_decide (key ∈ seen_keys) then (unique_cards, seen_keys, true)
  else (unique_cards ++ [card], {[key]} ∪ seen_keys, duplicates_found).

Definition dedup_loop (base_cards : list Card.t) : DedupState :=
  fold_left dedup_step base_cards ([], ∅, false).

(** The cards that survive, and whether a duplicate was met. *)
Definition dedup (base_cards : list Card.t) : list Card.t * bool :=
  let '(unique_cards, _, duplicates_found) := dedup_loop base_cards in
  (unique_cards, duplicates_found).

(** The cards the duplicate-removal loop keeps, given the keys seen so far. *)
Fixpoint keep_unseen (seen : gset (string * string)) (l : list Card.t)
  : list Card.t :=
  match l with
  | [] => []
  | c :: l' =>
      if bool_decide (Card.key c ∈ seen) then keep_unseen seen l'
      else c :: keep_unseen ({[Card.key c]} ∪ seen) l'
  end.

(** Whether the loop meets a key already seen. *)
Fixpoint meets_seen (seen : gset (string * string)) (l : list Card.t) : bool :=
  match l with
  | [] => false
  | c :: l' =>
      if bool_decide (Card.key c ∈ seen) then true
      else meets_seen ({[Card.key c]} ∪ seen) l'
  end.

Definition duplicate_warning (base_set : string) : string :=
  "Warning: Duplicate records found in set '" +:+ base_set
  +:+ "'. Please manually verify the accuracy.".

(** The [attributes] key of a card: absent when the set has no attribute. *)
Definition attributes_key (set_attributes : list string) : option (list string) :=
  match set_attributes with [] => None | _ => Some set_attributes end.

(** The per-card [numberedTo] a row gives when its sequence is kept. *)
Definition own_numberedTo (r : Row) : option (option Z) :=
  match parse_sequence (SEQUENCE r) with
  | Some v => Some (Some v)
  | None => None
  end.

(** A card, its parallels left out. *)
Definition erase (c : Card.t) : Card.t := Card.set_parallels None c.

(** A card synthesized for a parallel row. *)
Definition noted (c : Card.t) : Prop := Card.note c = Some "No Base Set Version".

(** The sequence values a loop over [rows] collects: those that are present. *)
Definition present_sequences (rows : list Row) : gset (option Z) :=
  list_to_set (filter (λ v, v ≠ None) (map (λ r, parse_sequence (SEQUENCE r)) rows)).

(** The canonical card numbers of [rows]. *)
Definition row_numbers (rows : list Row) : gset string :=
  list_to_set (map (λ r, normalize_card_number (CARD_NUMBER r)) rows).

(** The distinct elements of a list, in the order of their first occurrence. *)
Fixpoint first_occurrences (l : list string) : list string :=
  match l with
  | [] => []
  | x :: l' => x :: filter (λ y, y ≠ x) (first_occurrences l')
  end.

(** ** Synthesis of one set *)

Section Synthesis.

(** The identifiers [uuid.uuid4()] returns, by call number. *)
Variable uuid4 : nat → string.

(** [generate_uuid()] as its [n]-th call. *)
Definition generate_uuid (n : nat) : string * nat := (uuid4 n, S n).

(** *** Base rows into cards *)

(** [(base_cards, base_card_numbers, base_sequences)] and the number of
    identifiers drawn so far. *)
Definition BaseState : Type :=
  list Card.t * gset string * gset (option Z) * nat.

(** The [card_obj] of a base row as the first loop appends it. *)
Definition raw_card (set_attributes : list string) (uid : string) (r : Row)
  : Card.t :=
  {| Card.uniqueId := uid;
     Card.number := normalize_card_number (CARD_NUMBER r);
     Card.name := normalize_text (ATHLETE r);
     Card._sequence := Some (parse_sequence (SEQUENCE r));
     Card.numberedTo := None;
     Card.parallels := Some [];
     Card.attributes := attributes_key set_attributes;
     Card.note := None |}.

Definition base_row_step (set_attributes : list string)
    (st : BaseState) (r : Row) : BaseState :=
  let '(base_cards, base_card_numbers, base_sequences, n) := st in
  let card_number := normalize_card_number (CARD_NUMBER r) in
  let seq_value := parse_sequence (SEQUENCE r) in
  let base_card_numbers := {[card_number]} ∪ base_card_numbers in
  let base_sequences :=
    match seq_value with
    | Some _ => {[seq_value]} ∪ base_sequences
    | None => base_sequences
    end in
  let '(uid, n) := generate_uuid n in
  let card_obj := raw_card set_attributes uid r in
  (base_cards ++ [card_obj], base_card_numbers, base_sequences, n).

Definition base_loop (set_attributes : list string) (base_rows : list Row)
    (n : nat) : BaseState :=
  fold_left (base_row_step set_attributes) base_rows ([], ∅, ∅, n).

(** *** Clean-up of the base cards *)

Definition cleanup_card (uniform_base_seq : bool) (card_obj : Card.t) : Card.t :=
  let card_obj :=
    if uniform_base_seq then Card.pop_sequence card_obj
    else
      let card_obj :=
        match Card._sequence card_obj with
        | Some (Some v) => Card.set_numberedTo (Some (Some v)) card_obj
        | _ => card_obj
        end in
      Card.pop_sequence card_obj in
  match Card.parallels card_obj with
  | Some [] => Card.set_parallels None card_obj
  | _ => card_obj
  end.

(** The card of a base row after the clean-up. *)
Definition base_card (set_attributes : list string) (uniform_base_seq : bool)
    (uid : string) (r : Row) : Card.t :=
  {| Card.uniqueId := uid;
     Card.number := normalize_card_number (CARD_NUMBER r);
     Card.name := normalize_text (ATHLETE r);
     Card._sequence := None;
     Card.numberedTo := if uniform_base_seq then None else own_numberedTo r;
     Card.parallels := None;
     Card.attributes := attributes_key set_attributes;
     Card.note := None |}.

(** The cards made of [rows] by [f], the first with the [n]-th identifier. *)
Fixpoint cards_from {A} (f : string → A → Card.t) (n : nat) (rows : list A)
  : list Card.t :=
  match rows with
  | [] => []
  | r :: rows' => f (uuid4 n) r :: cards_from f (S n) rows'
  end.

(** *** Parallel rows *)

(** [(base_cards, base_card_numbers, set_level_parallels)] and the number
    of identifiers drawn so far. *)
Definition ParState : Type :=
  list Card.t * gset string * list Parallel.t * nat.

(** The first loop over [rows_list]: the card numbers and the sequence
    values of one parallel name. *)
Definition scan_step (st : gset string * gset (option Z)) (r : Row)
  : gset string * gset (option Z) :=
  let '(parallel_card_numbers, parallel_sequences) := st in
  let card_number := normalize_card_number (CARD_NUMBER r) in
  let parallel_card_numbers := {[card_number]} ∪ parallel_card_numbers in
  let seq_value := parse_sequence (SEQUENCE r) in
  let parallel_sequences :=
    match seq_value with
    | Some _ => {[seq_value]} ∪ parallel_sequences
    | None => parallel_sequences
    end in
  (parallel_card_numbers, parallel_sequences).

Definition scan_rows (rows_list : list Row) : gset string * gset (option Z) :=
  fold_left scan_step rows_list (∅, ∅).

(** The [parallel_obj] of one row of a card-level parallel. *)
Definition card_level_parallel (parallel_name : string) (r : Row) : Parallel.t :=
  let seq_value := parse_sequence (SEQUENCE r) in
  {| Parallel.name := parallel_name;
     Parallel.numberedTo :=
       match seq_value with Some _ => Some seq_value | None => None end |}.

(** The [new_card] synthesized for a row whose card number no card has. *)
Definition placeholder (set_attributes : list string) (uid : string)
    (parallel_name : string) (r : Row) : Card.t :=
  let seq_value := parse_sequence (SEQUENCE r) in
  {| Card.uniqueId := uid;
     Card.number := normalize_card_number (CARD_NUMBER r);
     Card.name := normalize_text (ATHLETE r);
     Card._sequence := None;
     Card.note := Some "No Base Set Version";
     Card.numberedTo :=
       match seq_value with Some _ => Some seq_value | None => None end;
     Card.parallels := Some [card_level_parallel parallel_name r];
     Card.attributes := attributes_key set_attributes |}.

(** One row of a parallel that does not cover the base card numbers. *)
Definition card_level_step (set_attributes : list string)
    (parallel_name : string) (st : ParState) (r : Row) : ParState :=
  let '(base_cards, base_card_numbers, set_level_parallels, n) := st in
  let card_number := normalize_card_number (CARD_NUMBER r) in
  let parallel_obj := card_level_parallel parallel_name r in
  match attach_parallel base_cards card_number parallel_obj with
  | Some base_cards' =>
      (base_cards', base_card_numbers, set_level_parallels, n)
  | None =>
      let '(uid, n) := generate_uuid n in
      let new_card := placeholder set_attributes uid parallel_name r in
      (base_cards ++ [new_card], {[card_number]} ∪ base_card_numbers,
       set_level_parallels, n)
  end.

(** The [parallel_obj] of a parallel that covers the base card numbers. *)
Definition set_level_parallel (parallel_name : string)
    (parallel_sequences : gset (option Z)) : Parallel.t :=
  {| Parallel.name := parallel_name;
     Parallel.numberedTo := uniform_sequence parallel_sequences |}.

(** One item of [parallels_by_name]. *)
Definition parallel_name_step (set_attributes : list string)
    (st : ParState) (item : string * list Row) : ParState :=
  let '(parallel_name, rows_list) := item in
  let '(base_cards, base_card_numbers, set_level_parallels, n) := st in
  let '(parallel_card_numbers, parallel_sequences) := scan_rows rows_list in
  if bool_decide (parallel_card_numbers = base_card_numbers) then
    let parallel_obj := set_level_parallel parallel_name parallel_sequences in
    (base_cards, base_card_numbers, set_level_parallels ++ [parallel_obj], n)
  else
    fold_left (card_level_step set_attributes parallel_name) rows_list st.

Definition parallels_loop (set_attributes : list string)
    (items : list (string * list Row)) (st : ParState) : ParState :=
  fold_left (parallel_name_step set_attributes) items st.

(** *** One merged group into a set object *)

(** The card list as constructed, before the duplicate removal: the base
    cards with the card-level parallels attached, followed by the cards
    synthesized for parallel rows; with it the set-level parallels, the
    promoted sequence value if any, and the number of identifiers drawn. *)
Definition build_cards (group : Group) (n : nat)
  : list Card.t * list Parallel.t * option (option Z) * nat :=
  let base_set := base_set group in
  let set_attributes := get_attributes_for_set base_set in
  let '(base_cards, base_card_numbers, base_sequences, n) :=
    base_loop set_attributes (base_rows group) n in
  let set_numberedTo := uniform_sequence base_sequences in
  let uniform_base_seq :=
    match set_numberedTo with Some _ => true | None => false end in
  let base_cards := map (cleanup_card uniform_base_seq) base_cards in
  let '(base_cards, base_card_numbers, set_level_parallels, n) :=
    parallels_loop set_attributes (parallels_by_name (parallel_rows group))
                   (base_cards, base_card_numbers, [], n) in
  (base_cards, set_level_parallels, set_numberedTo, n).

(** The duplicate removal and the set object, from the cards constructed:
    the set object, the number of identifiers drawn, the lines printed. *)
Definition assemble_set (base_set : string) (base_cards : list Card.t)
    (set_level_parallels : list Parallel.t) (set_numberedTo : option (option Z))
    (n : nat) : CardSet.t * nat * list string :=
  let '(unique_cards, duplicates_found) := dedup base_cards in
  let printed :=
    if duplicates_found then [duplicate_warning base_set] else [] in
  let base_cards := unique_cards in
  let '(uid, n) := generate_uuid n in
  let set_obj :=
    {| CardSet.uniqueId := uid;
       CardSet.name := base_set;
       CardSet.cards := base_cards;
       CardSet.parallels := set_level_parallels;
       CardSet.variations := [];
       CardSet.numberedTo := set_numberedTo |} in
  (set_obj, n, printed).

Definition process_group (group : Group) (n : nat)
  : CardSet.t * nat * list string :=
  let '(base_cards, set_level_parallels, set_numberedTo, n) :=
    build_cards group n in
  assemble_set (base_set group) base_cards set_level_parallels set_numberedTo n.

(** The state of the parallels loop of a group when it ends, started from
    the cleaned base cards. *)
Definition parallels_result (group : Group) (n : nat) : ParState :=
  let set_attributes := get_attributes_for_set (base_set group) in
  let uniform_base_seq :=
    match uniform_sequence (present_sequences (base_rows group)) with
    | Some _ => true
    | None => false
    end in
  parallels_loop set_attributes (parallels_by_name (parallel_rows group))
    (cards_from (base_card set_attributes uniform_base_seq) n (base_rows group),
     row_numbers (base_rows group), [], n + length (base_rows group)).

End Synthesis.

(** How a run of the parallels loop changes its state: the cards are the
    same up to their parallels, followed by the cards [extra] synthesized,
    whose numbers have joined the set of card numbers. *)
Definition grows (st st' : ParState) (extra : list Card.t) : Prop :=
  map erase st'.1.1.1 = map erase (st.1.1.1 ++ extra)
  ∧ st'.1.1.2 = list_to_set (map Card.number extra) ∪ st.1.1.2
  ∧ st'.2 = st.2 + length extra
  ∧ Forall noted extra.

(** ** Serialization

    [json.dump] writes a [dict] as an object whose members are the keys
    present, in insertion order, and Python's [None] as [null].  The model
    stops at the JSON value; its layout as text is not modelled. *)

Definition json_of_int_or_none (v : option Z) : json :=
  match v with
  | Some n => JInt n
  | None => JNull
  end.

(** The member of an optional key: nothing when the key is absent. *)
Definition member {A} (k : string) (f : A → json) (v : option A)
  : list (string * json) :=
  match v with
  | Some a => [(k, f a)]
  | None => []
  end.

Definition json_of_parallel (p : Parallel.t) : json :=
  JObj ([("name", JStr (Parallel.name p))]
        ++ member "numberedTo" json_of_int_or_none (Parallel.numberedTo p)).

(** A card built from a base row has its keys in the order [uniqueId],
    [number], [name], [_sequence], [attributes], [numberedTo], [parallels]
    ([parallels] is deleted by the clean-up and inserted again by the first
    parallel attached); a card synthesized for a parallel row has [note]
    after [name] and [attributes] last. *)
Definition json_of_card (c : Card.t) : json :=
  let head :=
    [("uniqueId", JStr (Card.uniqueId c)); ("number", JStr (Card.number c));
     ("name", JStr (Card.name c))] in
  let attributes := member "attributes" (λ l, JArr (map JStr l)) (Card.attributes c) in
  let numberedTo := member "numberedTo" json_of_int_or_none (Card.numberedTo c) in
  let parallels :=
    member "parallels" (λ l, JArr (map json_of_parallel l)) (Card.parallels c) in
  match Card.note c with
  | None =>
      JObj (head ++ member "_sequence" json_of_int_or_none (Card._sequence c)
            ++ attributes ++ numberedTo ++ parallels)
  | Some _ =>
      JObj (head ++ member "_sequence" json_of_int_or_none (Card._sequence c)
            ++ member "note" JStr (Card.note c)
            ++ numberedTo ++ parallels ++ attributes)
  end.

Definition json_of_set (s : CardSet.t) : json :=
  JObj ([("uniqueId", JStr (CardSet.uniqueId s));
         ("name", JStr (CardSet.name s));
         ("cards", JArr (map json_of_card (CardSet.cards s)));
         ("parallels", JArr (map json_of_parallel (CardSet.parallels s)));
         ("variations", JArr (CardSet.variations s))]
        ++ member "numberedTo" json_of_int_or_none (CardSet.numberedTo s)).

Definition json_of_release (d : Release.t) : json :=
  JObj [("$schema", JStr (Release.schema d));
        ("name", JStr (Release.name d));
        ("version", JStr (Release.version d));
        ("uniqueId", JStr (Release.uniqueId d));
        ("attributes", JArr (Release.attributes d));
        ("notes", JArr (Release.notes d));
        ("sets", JArr (map json_of_set (Release.sets d)))].

(** *** Sparse fields *)

(** Whether [null] occurs in a value. *)
Fixpoint has_null (j : json) : bool :=
  match j with
  | JNull => true
  | JArr items => existsb has_null items
  | JObj members => existsb (λ kv, has_null (snd kv)) members
  | _ => false
  end.

(** [null], an empty collection or an empty string. *)
Definition blank (v : json) : bool :=
  match v with
  | JNull | JArr [] | JObj [] | JStr EmptyString => true
  | _ => false
  end.

Definition mem_key (k : string) (keys : list string) : bool :=
  existsb (String.eqb k) keys.

(** No object in the value has a member named in [keys] whose value is
    blank. *)
Fixpoint sparse (keys : list string) (j : json) : bool :=
  match j with
  | JArr items => forallb (sparse keys) items
  | JObj members =>
      forallb (λ kv, negb (mem_key (fst kv) keys && blank (snd kv))
                     && sparse keys (snd kv)) members
  | _ => true
  end.

Definition optional_keys : list string :=
  ["numberedTo"; "attributes"; "note"; "parallels"].

Definition sequence_keys : list string := ["numberedTo"; "note"].

(** What the synthesis guarantees of a parallel, a card and a set. *)
Definition parallel_ok (p : Parallel.t) : Prop :=
  Parallel.numberedTo p ≠ Some None.

Definition card_ok (c : Card.t) : Prop :=
  Card._sequence c = None
  ∧ Card.numberedTo c ≠ Some None
  ∧ Card.attributes c ≠ Some []
  ∧ Card.note c ≠ Some EmptyString
  ∧ match Card.parallels c with
    | Some [] => False
    | Some ps => Forall parallel_ok ps
    | None => True
    end.

Definition set_ok (s : CardSet.t) : Prop :=
  Forall card_ok (CardSet.cards s)
  ∧ Forall parallel_ok (CardSet.parallels s)
  ∧ CardSet.numberedTo s ≠ Some None
  ∧ CardSet.variations s = [].

(** ** The run *)

(** *** Where a run raises [ValueError]

    Every call of [normalize_card_number] and every [int(seq_str)] can raise.
    The exceptions the calls of a loop would raise are listed in the order
    of the calls: the first of them is the one raised. *)

(** [get_base_keys(group)] *)
Definition keys_errors (group : Group) : list Exception :=
  flat_map (λ r, exception_of (Raising.normalize_card_number (CARD_NUMBER r)))
           (base_rows group).

(** [is_parallel_candidate(group1, group2)]: the keys of [group1] are
    computed first. *)
Definition candidate_errors (group1 group2 : Group) : list Exception :=
  keys_errors group1 ++ keys_errors group2.

(** The inner loop of the merging, which ends at the first candidate. *)
Fixpoint merge_scan_error (merged_groups : list Group) (group : Group)
  : option Exception :=
  match merged_groups with
  | [] => None
  | m_group :: rest =>
      match head (candidate_errors m_group group) with
      | Some e => Some e
      | None =>
          if is_parallel_candidate m_group group then None
          else merge_scan_error rest group
      end
  end.

(** The loop [for group in groups] of the merging, [merged_groups] being
    the groups merged so far. *)
Fixpoint merge_error (merged_groups groups : list Group) : option Exception :=
  match groups with
  | [] => None
  | group :: rest =>
      match merge_scan_error merged_groups group with
      | Some e => Some e
      | None => merge_error (merge_step merged_groups group) rest
      end
  end.

(** The two calls made for a row, by the loop over the base rows and by the
    first loop over the rows of a parallel name. *)
Definition row_errors (r : Row) : list Exception :=
  exception_of (Raising.normalize_card_number (CARD_NUMBER r))
  ++ exception_of (Raising.parse_sequence (SEQUENCE r)).

(** One merged group: its base rows, then the rows of each parallel name.
    The second loop over the rows of a card-level parallel reads cells that
    have been read. *)
Definition group_errors (group : Group) : list Exception :=
  flat_map row_errors (base_rows group)
  ++ flat_map (λ item : string * list Row, flat_map row_errors item.2)
              (parallels_by_name (parallel_rows group)).

(** *** Events *)

(** [OpenFile]: [open(path, "w")] has created the file or emptied it.
    [WriteFile]: the whole document has been written to the file opened. *)
Inductive Event : Type :=
| Print (line : string)
| OpenFile (path : string)
| WriteFile (path : string) (content : json).

Inductive Outcome : Type :=
| Exit (code : Z)
| Uncaught (e : Exception).


Section Run.

Variable uuid4 : nat → string.

(** [pd.read_csv(path, dtype=str).fillna]: the rows of the file, or the
    exception raised for a file that cannot be read or parsed, or that lacks
    a column the script reads. *)
Variable read_csv : string → Exception + list Row.

(** Whether the standard output takes the line. *)
Variable can_print : string → bool.

(** Whether [open(path, "w")] succeeds. *)
Variable can_open : string → bool.

(** Whether [json.dump] writes the whole document to the file opened, and
    the file is closed, without an error of the file system. *)
Variable can_dump : string → json → bool.

(** [print] of the lines in order: the lines printed, and the exception of
    the first line that the standard output does not take. *)
Fixpoint print_lines (lines : list string) : list string * option Exception :=
  match lines with
  | [] => ([], None)
  | line :: rest =>
      if can_print line then
        let '(printed, e) := print_lines rest in (line :: printed, e)
      else ([], Some (PrintError line))
  end.

(** The body of the loop [for group in merged_groups] when nothing raises:
    the sets built, the number of identifiers drawn, the lines printed. *)
Definition sets_step (st : list CardSet.t * nat * list string) (group : Group)
  : list CardSet.t * nat * list string :=
  let '(sets, n, printed) := st in
  let '(set_obj, n, lines) := process_group uuid4 group n in
  (sets ++ [set_obj], n, printed ++ lines).

(** The loop [for group in merged_groups]: it ends at the first group in
    which a call raises, before the warning of that group, or whose warning
    cannot be printed. *)
Fixpoint sets_loop (merged_groups : list Group)
    (st : list CardSet.t * nat * list string)
  : list CardSet.t * nat * list string * option Exception :=
  match merged_groups with
  | [] => (st, None)
  | group :: rest =>
      match head (group_errors group) with
      | Some e => (st, Some e)
      | None =>
          let '(sets, n, printed) := st in
          let '(_, _, lines) := process_group uuid4 group n in
          match print_lines lines with
          | (shown, Some e) => ((sets, n, printed ++ shown), Some e)
          | (_, None) => sets_loop rest (sets_step st group)
          end
      end
  end.

(** The lines printed, and the document or the exception raised.
    [df.loc[0, "YEAR"]] raises [KeyError] on a frame without rows. *)
Definition process_csv_with_pandas (file_path : string)
  : list string * (Exception + Release.t) :=
  match read_csv file_path with
  | inl e => ([], inl e)
  | inr df =>
      match df with
      | [] => ([], inl (KeyError "0"))
      | row0 :: _ =>
          let top_year := normalize_text (YEAR row0) in
          let top_brand := normalize_text (BRAND row0) in
          let top_program := normalize_text (PROGRAM row0) in
          let top_sport := normalize_text (SPORT row0) in
          let groups := group_rows df in
          match merge_error [] groups with
          | Some e => ([], inl e)
          | None =>
              let merged_groups := merge_groups groups in
              match sets_loop merged_groups ([], 0, []) with
              | (_, _, printed, Some e) => (printed, inl e)
              | (sets, n, printed, None) =>
                  let '(uid, n) := generate_uuid uuid4 n in
                  let top_obj :=
                    {| Release.schema := "http://json-schema.org/draft-07/schema#";
                       Release.name :=
                         top_year +:+ " " +:+ top_brand +:+ " " +:+ top_program
                         +:+ " " +:+ top_sport;
                       Release.version := "1.0";
                       Release.uniqueId := uid;
                       Release.attributes := [];
                       Release.notes := [];
                       Release.sets := sets |} in
                  (printed, inr top_obj)
              end
          end
      end
  end.

(** The script run with [sys.argv = argv]: what it prints and does to the
    output file, in order, and how it ends.  [open] creates or empties the
    output file before [json.dump] writes to it; [json.dump] of a document
    of strings, integers, lists and dicts raises nothing of its own. *)
Definition main (argv : list string) : list Event * Outcome :=
  match argv with
  | [_; input_csv; output_json] =>
      match process_csv_with_pandas input_csv with
      | (printed, inl e) => (map Print printed, Uncaught e)
      | (printed, inr result) =>
          if can_open output_json then
            let content := json_of_release result in
            if can_dump output_json content then
              let line := "JSON output written to " +:+ output_json in
              if can_print line then
                (map Print printed
                 ++ [OpenFile output_json; WriteFile output_json content;
                     Print line],
                 Exit 0)
              else
                (map Print printed
                 ++ [OpenFile output_json; WriteFile output_json content],
                 Uncaught (PrintError line))
            else
              (map Print printed ++ [OpenFile output_json],
               Uncaught (OSError output_json))
          else (map Print printed, Uncaught (OSError output_json))
      end
  | _ =>
      let line := "Usage: python script.py input.csv output.json" in
      if can_print line then ([Print line], Exit 1)
      else ([], Uncaught (PrintError line))
  end.

End Run.

(** ** The dataset flattener ([export/build_parquet.py]) *)

Module Flattener.

(** What Python raises on a loaded document of an unexpected shape. *)
Inductive PyError : Type :=
| AttributeError
| TypeError.

(** [d.get(k, default)]: only a [dict] has the method. *)
Definition py_get (d : json) (k : string) (dflt : json) : PyError + json :=
  match d with
  | JObj members => inr (default dflt (get_member k members))
  | _ => inl AttributeError
  end.

Fixpoint chars (s : string) : list json :=
  match s with
  | EmptyString => []
  | String c s' => JStr (String c EmptyString) :: chars s'
  end.

(** [for x in v]: a list yields its items, a dict its keys, a string its
    characters; nothing else is iterable. *)
Definition py_iter (v : json) : PyError + list json :=
  match v with
  | JArr items => inr items
  | JObj members => inr (map (λ kv, JStr (fst kv)) members)
  | JStr s => inr (chars s)
  | _ => inl TypeError
  end.

Record FlatRecord := {
  category : string;
  year : string;
  release : string;
  source : json;
  set : json;
  card_number : json;
  card_name : json;
  attributes : json;
  note : json;
}.

(** A loop whose body may raise: the first exception ends it. *)
Fixpoint for_each {A B} (f : A → PyError + list B) (l : list A)
  : PyError + list B :=
  match l with
  | [] => inr []
  | x :: rest =>
      match f x with
      | inl e => inl e
      | inr ys =>
          match for_each f rest with
          | inl e => inl e
          | inr zs => inr (ys ++ zs)
          end
      end
  end.

Definition flatten_card (category year release : string) (source set_name : json)
    (card : json) : PyError + list FlatRecord :=
  match py_get card "number" (JStr EmptyString), py_get card "name" (JStr EmptyString),
        py_get card "attributes" (JArr []), py_get card "note" (JStr EmptyString) with
  | inr number, inr name, inr attrs, inr note =>
      inr [ {| category := category; year := year; release := release;
               source := source; set := set_name; card_number := number;
               card_name := name; attributes := attrs; note := note |} ]
  | _, _, _, _ => inl AttributeError
  end.

Definition flatten_set (category year release : string) (source : json)
    (card_set : json) : PyError + list FlatRecord :=
  match py_get card_set "name" (JStr EmptyString) with
  | inl e => inl e
  | inr set_name =>
      match py_get card_set "cards" (JArr []) with
      | inl e => inl e
      | inr cards =>
          match py_iter cards with
          | inl e => inl e
          | inr cards =>
              for_each (flatten_card category year release source set_name) cards
          end
      end
  end.

Definition flatten_card_data (category year release : string) (json_data : json)
  : PyError + list FlatRecord :=
  match py_get json_data "name" (JStr EmptyString) with
  | inl e => inl e
  | inr source =>
      match py_get json_data "sets" (JArr []) with
      | inl e => inl e
      | inr sets =>
          match py_iter sets with
          | inl e => inl e
          | inr sets => for_each (flatten_set category year release source) sets
          end
      end
  end.

(** The record of the card [card_members] of the set [set_members] of the
    document [doc], each given by its members. *)
Definition record_of (category year release : string)
    (doc set_members card_members : list (string * json)) : FlatRecord :=
  {| category := category; year := year; release := release;
     source := default (JStr EmptyString) (get_member "name" doc);
     set := default (JStr EmptyString) (get_member "name" set_members);
     card_number := default (JStr EmptyString) (get_member "number" card_members);
     card_name := default (JStr EmptyString) (get_member "name" card_members);
     attributes := default (JArr []) (get_member "attributes" card_members);
     note := default (JStr EmptyString) (get_member "note" card_members) |}.

(** [s.split("-", 1)]: the text before the first hyphen and the text after
    it, or [None] when [s] has no hyphen (the result is then [[s]]). *)
Fixpoint split_hyphen (s : string) : option (string * string) :=
  match s with
  | EmptyString => None
  | String c s' =>
      if Ascii.eqb c "-" then Some (EmptyString, s')
      else match split_hyphen s' with
           | Some (before, after) => Some (String c before, after)
           | None => None
           end
  end.

(** [release = parts[1] if len(parts) == 2 else parts[0]] *)
Definition release_of_stem (stem : string) : string :=
  match split_hyphen stem with
  | Some (_, after) => after
  | None => stem
  end.

(** The string has no hyphen. *)
Fixpoint hyphen_free (s : string) : bool :=
  match s with
  | EmptyString => true
  | String c s' => negb (Ascii.eqb c "-") && hyphen_free s'
  end.

(** An entry of a directory: a file with the document [json.load] returns
    ([None]: opening or parsing it raises), or a directory. *)
#[warnings="-register-all"]
Inductive Entry : Type :=
| File (content : option json)
| Dir (children : list (string * Entry)).

(** [name] matches the pattern [*suffix]. *)
Definition ends_with (suffix name : string) : bool :=
  (String.length suffix <=? String.length name)
  && String.eqb
       (PyStr.slice_from (String.length name - String.length suffix) name)
       suffix.

(** [path.stem] of a name that matches [*.json]: the name without its last
    suffix; a name that is only a suffix has none. *)
Definition stem (name : string) : string :=
  if String.eqb name ".json" then name
  else String.substring 0 (String.length name - 5) name.

(** The body of the innermost loop for one entry matched by
    [year_dir.glob("*.json")]: the records added to [all_records] and the
    error line printed, if any (of which the model keeps the file name). *)
Definition file_records (category year : string) (item : string * Entry)
  : list FlatRecord * list string :=
  let '(name, entry) := item in
  let release := release_of_stem (stem name) in
  match entry with
  | File (Some data) =>
      match flatten_card_data category year release data with
      | inr records => (records, [])
      | inl _ => ([], ["Error processing " +:+ name])
      end
  | _ => ([], ["Error processing " +:+ name])
  end.

Definition gather {A} (f : A → list FlatRecord * list string) (l : list A)
  : list FlatRecord * list string :=
  fold_left (λ acc x, (fst acc ++ fst (f x), snd acc ++ snd (f x))) l ([], []).

Definition year_records (category : string) (item : string * Entry)
  : list FlatRecord * list string :=
  match item with
  | (year, Dir files) =>
      gather (file_records category year)
             (List.filter (λ f, ends_with ".json" (fst f)) files)
  | (_, File _) => ([], [])
  end.

Definition category_records (item : string * Entry)
  : list FlatRecord * list string :=
  match item with
  | (category, Dir years) => gather (year_records category) years
  | (_, File _) => ([], [])
  end.

(** [all_records] and the error lines after the walk of [categories/]. *)
Definition collect (categories : list (string * Entry))
  : list FlatRecord * list string :=
  gather category_records categories.

(** The per-category counts written to [card_counts.json]. *)
Definition card_counts (all_records : list FlatRecord) : list (string * nat) :=
  map (λ cat,
         (cat, length (filter (λ r, PyStr.lower (category r) = cat) all_records)))
      ["baseball"; "football"; "basketball"; "hockey"].

End Flattener.

(** ** Derived notions

    Predicates and functions in which the further properties are stated. *)

(** Every character of the string is whitespace. *)
Definition all_space (s : string) : Prop :=
  ∀ c, In c (list_ascii_of_string s) → PyStr.isspace c = true.

(** The string neither begins nor ends with whitespace. *)
Definition trimmed (s : string) : Prop :=
  PyStr.clean_head PyStr.isspace (list_ascii_of_string s)
  ∧ PyStr.clean_head PyStr.isspace (rev (list_ascii_of_string s)).

(** One step of the loop of [PyStr.int]. *)
Definition digit_step (acc : Z) (c : ascii) : Z :=
  (10 * acc + Z.of_nat (nat_of_ascii c - 48))%Z.

(** The string is a decimal numeral without a leading zero: [0] itself, or
    digits of which the first is not [0]. *)
Definition canonical_numeral (s : string) : Prop :=
  PyStr.isdecimal s = true
  ∧ (s = "0" ∨ ∃ c rest, s = String c rest ∧ c ≠ "0"%char).

(** [int] reads the string: decimal digits, no more than the limit. *)
Definition readable (s : string) : Prop :=
  PyStr.isdecimal s = true
  ∧ (Z.of_nat (String.length s) ≤ PyStr.max_str_digits)%Z.

(** A cell whose trimmed form [isdigit] accepts and [int] does not read. *)
Definition refused (cell : string) : Prop :=
  PyStr.isdigit (normalize_text cell) = true ∧ ¬ readable (normalize_text cell).

(** What the grouping loop guarantees of a group: it has a base row, its
    [base_set] is trimmed, its base rows have that set name, and each of its
    parallel rows has that set name, a space and a suffix, and is named by
    the suffix. *)
Definition well_grouped (g : Group) : Prop :=
  base_rows g ≠ []
  ∧ normalize_text (base_set g) = base_set g
  ∧ (∀ r, In r (base_rows g) → normalize_text (CARD_SET r) = base_set g)
  ∧ (∀ r name, In (r, name) (parallel_rows g) →
       ∃ suffix,
         normalize_text (CARD_SET r) = base_set g +:+ " " +:+ suffix
         ∧ name = PyStr.strip_chars " -" (normalize_text suffix)).

(** The set name [b] neither is [a] nor starts with [a] and a space. *)
Definition unrelated (a b : string) : Prop :=
  b ≠ a ∧ PyStr.startswith b (a +:+ " ") = false.

(** Each name of the list is unrelated to the one before it. *)
Fixpoint chain (names : list string) : Prop :=
  match names with
  | a :: (b :: _) as rest => unrelated a b ∧ chain rest
  | _ => True
  end.

(** The group holds the rows of the run [run], in their order: those with
    its set name as base rows, the others as parallel rows. *)
Definition holds_run (run : list Row) (g : Group) : Prop :=
  base_rows g = filter (λ r, normalize_text (CARD_SET r) = base_set g) run
  ∧ map fst (parallel_rows g)
    = filter (λ r, normalize_text (CARD_SET r) ≠ base_set g) run.

(** The base part of a group: what merging never changes. *)
Definition base_part (g : Group) : string * list Row := (base_set g, base_rows g).

(** The identifiers of a set object in the order in which they are drawn:
    those of its cards as constructed, then its own. *)
Definition set_ids (s : CardSet.t) : list string :=
  map Card.uniqueId (CardSet.cards s) ++ [CardSet.uniqueId s].

(** The identifiers of a document: those of its sets, then its own. *)
Definition document_ids (d : Release.t) : list string :=
  concat (map set_ids (Release.sets d)) ++ [Release.uniqueId d].

(** The parallels loop has drawn [k] identifiers between two states, one for
    each card it appended. *)
Definition draws (uuid4 : nat → string) (st st' : ParState) : Prop :=
  ∃ k, st'.2 = st.2 + k
       ∧ map Card.uniqueId st'.1.1.1
         = map Card.uniqueId st.1.1.1 ++ map uuid4 (seq st.2 k).

(** Between two states of the parallels loop the keys of the cards are kept
    and followed by new keys, whose card numbers are new and distinct. *)
Definition appends_fresh (st st' : ParState) : Prop :=
  ∃ extra : list (string * string),
    map Card.key st'.1.1.1 = map Card.key st.1.1.1 ++ extra
    ∧ List.NoDup (map fst extra)
    ∧ ∀ k, In k extra → ¬ In k.1 (map Card.number st.1.1.1).

(** The rows of [parallel_rows] that carry the parallel name [name], in
    order. *)
Definition rows_named (parallel_rows : list (Row * string)) (name : string)
  : list Row :=
  map fst (filter (λ p, p.2 = name) parallel_rows).

(** The first card with the number [num], if any: the card the search of
    [attach_parallel] stops at. *)
Fixpoint first_with (num : string) (cards : list Card.t) : option Card.t :=
  match cards with
  | [] => None
  | c :: rest => if String.eqb (Card.number c) num then Some c else first_with num rest
  end.

(** The card has the parallel [p] among its parallels. *)
Definition has_parallel (p : Parallel.t) (c : Card.t) : Prop :=
  ∃ ps, Card.parallels c = Some ps ∧ In p ps.

(** The first card with the number [num] has the parallel [p]. *)
Definition first_card_has (num : string) (p : Parallel.t) (cards : list Card.t)
  : Prop :=
  ∃ c, first_with num cards = Some c ∧ has_parallel p c.

(** The name of the document of a frame whose first row is [row0]. *)
Definition top_name (row0 : Row) : string :=
  normalize_text (YEAR row0) +:+ " " +:+ normalize_text (BRAND row0) +:+ " "
  +:+ normalize_text (PROGRAM row0) +:+ " " +:+ normalize_text (SPORT row0).

(** Two base rows of the group have the same key. *)
Definition has_duplicate_rows (g : Group) : Prop :=
  ¬ NoDup (map base_key (base_rows g)).

(** The duplicate warnings of the merged groups of a frame, in the order
    of the groups. *)
Definition warnings_of (df : list Row) : list string :=
  map (λ g, duplicate_warning (base_set g))
      (filter has_duplicate_rows (merge_groups (group_rows df))).

(** The flat record of a card of a set of a document of the normalizer. *)
Definition record_of_card (category year release : string) (doc : Release.t)
    (s : CardSet.t) (c : Card.t) : Flattener.FlatRecord :=
  {| Flattener.category := category;
     Flattener.year := year;
     Flattener.release := release;
     Flattener.source := JStr (Release.name doc);
     Flattener.set := JStr (CardSet.name s);
     Flattener.card_number := JStr (Card.number c);
     Flattener.card_name := JStr (Card.name c);
     Flattener.attributes := JArr (map JStr (default [] (Card.attributes c)));
     Flattener.note := JStr (default EmptyString (Card.note c)) |}.

Definition is_object (j : json) : bool :=
  match j with JObj _ => true | _ => false end.

(** The value a loaded object gives for the key [k], or [dflt] (the members
    of an object that [json.load] returns have distinct keys). *)
Definition get_or (k : string) (dflt : json) (j : json) : json :=
  default dflt (get_member k (members_of j)).

(** The items of a JSON array. *)
Definition items_of (j : json) : list json :=
  match j with JArr items => items | _ => [] end.

Definition is_array (j : json) : bool :=
  match j with JArr _ => true | _ => false end.

(** A document of the shape the flattener expects: an object whose [sets],
    if present, is an array of objects whose [cards], if present, is an array
    of objects. *)
Definition well_shaped (data : json) : Prop :=
  is_object data = true
  ∧ is_array (get_or "sets" (JArr []) data) = true
  ∧ ∀ s, In s (items_of (get_or "sets" (JArr []) data)) →
      is_object s = true
      ∧ is_array (get_or "cards" (JArr []) s) = true
      ∧ ∀ c, In c (items_of (get_or "cards" (JArr []) s)) → is_object c = true.

(** The four categories the flattener counts. *)
Definition target_categories : list string :=
  ["baseball"; "football"; "basketball"; "hockey"].

(** ** Sample inputs *)

Definition row (card_set card_number athlete sequence : string) : Row :=
  {| YEAR := "2021"; BRAND := "Panini"; PROGRAM := "Prizm"; SPORT := "Football";
     CARD_SET := card_set; CARD_NUMBER := card_number; ATHLETE := athlete;
     SEQUENCE := sequence |}.

(** A missing cell. *)
Definition blank_cell : string := EmptyString.

Definition sample_uuid4 (n : nat) : string := "uuid-" +:+ PyStr.str (Z.of_nat n).

(** A file system with one CSV file, [in.csv]. *)
Definition csv_of (df : list Row) (path : string) : Exception + list Row :=
  if String.eqb path "in.csv" then inr df else inl (ReadError path).

(** The sets built from a frame, identifiers counted from 0 for each. *)
Definition sets_of (uuid4 : nat → string) (df : list Row) : list CardSet.t :=
  map (λ g, (process_group uuid4 g 0).1.1) (merge_groups (group_rows df)).

(** One base card numbered to 10 and a parallel row for a card number that
    has no base card. *)
Definition uniform_with_placeholder : list Row :=
  [row "Topps" "1" "A" "10"; row "Topps Gold" "2" "B" "5"].

(** Two base cards without sequence, and a parallel that covers both, one
    row numbered to 10 and one without sequence. *)
Definition mixed_parallel : list Row :=
  [row "Topps" "1" "A" blank_cell; row "Topps" "2" "B" blank_cell;
   row "Topps Gold" "1" "A" "10"; row "Topps Gold" "2" "B" blank_cell].

(** A base set, an unrelated set, and a set with the key set of the first. *)
Definition split_checklist : list Row :=
  [row "Topps" "1" "A" blank_cell; row "Bowman" "7" "C" blank_cell;
   row "Refractor" "01" " A" "25"; row "Refractor Gold" "1" "A" "5"].


(** The names of the set-level parallels of the sets built from a frame. *)
Definition set_level_names (uuid4 : nat → string) (df : list Row)
  : list (list string) :=
  map (λ g, map Parallel.name (CardSet.parallels (process_group uuid4 g 0).1.1))
      (merge_groups (group_rows df)).

Definition season_document : json :=
  JObj [("name", JStr "1990-91 Topps Hockey");
        ("sets", JArr [JObj [("name", JStr "Base");
                             ("cards", JArr [JObj [("number", JStr "1");
                                                   ("name", JStr "A")]])]])].

Definition season_tree : list (string * Flattener.Entry) :=
  [("hockey",
    Flattener.Dir
      [("1990-91",
        Flattener.Dir [("1990-91-Topps.json",
                        Flattener.File (Some season_document))])])].

(** The group of [uniform_with_placeholder]. *)
Definition uniform_group : Group :=
  {| base_set := "Topps";
     base_rows := [row "Topps" "1" "A" "10"];
     parallel_rows := [(row "Topps Gold" "2" "B" "5", "Gold")] |}.

Definition topps_group : Group :=
  {| base_set := "Topps"; base_rows := [row "Topps" "1" "A" blank_cell];
     parallel_rows := [] |}.

Definition bowman_group : Group :=
  {| base_set := "Bowman"; base_rows := [row "Bowman" "7" "C" blank_cell];
     parallel_rows := [] |}.

Definition refractor_group : Group :=
  {| base_set := "Refractor"; base_rows := [row "Refractor" "01" " A" "25"];
     parallel_rows := [(row "Refractor Gold" "1" "A" "5", "Gold")] |}.

(** A parallel row whose set name has a tab after the space that follows
    the base set name. *)
Definition tab : ascii := "009".

Definition tabbed_suffix : string := String tab "Gold".

(** Two characters beyond ASCII: the no-break space, which [strip] removes,
    and the superscript two, which [isdigit] accepts and [int] refuses. *)
Definition no_break_space : ascii := "160".

Definition superscript_two : string := String "178" EmptyString.

(** A numeral of [k] digits. *)
Definition ones (k : nat) : string := string_of_list_ascii (repeat "1"%char k).

Definition tabbed_row : Row := row ("Topps " +:+ tabbed_suffix) "1" "A" "10".

(** The documents a run writes. *)
Definition written (events : list Event) : list json :=
  flat_map (λ e, match e with WriteFile _ content => [content] | _ => [] end)
           events.

(** A run in which every file operation and every [print] succeeds. *)
Definition run_of (df : list Row) : list Event * Outcome :=
  main sample_uuid4 (csv_of df) (λ _, true) (λ _, true) (λ _ _, true)
       ["script.py"; "in.csv"; "out.json"].





Definition topps_tree : list (string * Flattener.Entry) :=
  [("baseball",
    Flattener.Dir
      [("1990",
        Flattener.Dir [("1990-Topps.json",
                        Flattener.File (Some season_document))])])].

(** * Properties *)

Set Warnings "-clear-no-such-hyp".

(** ** Sample evaluations *)

Example normalize_card_number_05 : normalize_card_number " 05 " = "5".
Proof. reflexivity. Qed.

Example normalize_card_number_0 : normalize_card_number "000" = "0".
Proof. reflexivity. Qed.

Example normalize_card_number_1234567 : normalize_card_number "01234567" = "1234567".
Proof. vm_compute. reflexivity. Qed.

Example normalize_card_number_alpha : normalize_card_number "RC-12 " = "RC-12".
Proof. reflexivity. Qed.

Example attributes_both :
  get_attributes_for_set "2021 Prizm Relic AUTOGRAPHS" = ["AU"; "RELIC"].
Proof. reflexivity. Qed.

Example parse_sequence_samples :
  parse_sequence " 010" = Some 10%Z ∧ parse_sequence EmptyString = None
  ∧ parse_sequence "1/1" = None.
Proof. repeat split. Qed.

Example normalize_text_no_break_space :
  normalize_text (String no_break_space "A ") = "A".
Proof. reflexivity. Qed.

Example superscript_two_raises :
  PyStr.isdigit superscript_two = true
  ∧ Raising.normalize_card_number superscript_two
    = inl (ValueError superscript_two)
  ∧ Raising.parse_sequence (" 1" +:+ superscript_two)
    = inl (ValueError ("1" +:+ superscript_two)).
Proof. repeat split. Qed.

Example numeral_at_the_limit :
  Raising.parse_sequence (ones 4300) = inr (Some (PyStr.int (ones 4300)))
  ∧ Raising.parse_sequence (ones 4301) = inl (ValueError (ones 4301))
  ∧ Raising.normalize_card_number (ones 4301) = inl (ValueError (ones 4301)).
Proof. repeat split; vm_compute; reflexivity. Qed.

Example unread_card_number :
  process_csv_with_pandas sample_uuid4
    (csv_of [row "Topps" superscript_two "A" blank_cell]) (λ _, true) "in.csv"
  = ([], inl (ValueError superscript_two)).
Proof. reflexivity. Qed.

Example warning_before_unread_sequence :
  process_csv_with_pandas sample_uuid4
    (csv_of [row "Topps" "1" "A" blank_cell; row "Topps" "1" "A" blank_cell;
             row "Bowman" "2" "B" superscript_two]) (λ _, true) "in.csv"
  = ([duplicate_warning "Topps"], inl (ValueError superscript_two)).
Proof. vm_compute. reflexivity. Qed.

Example warning_not_printed :
  process_csv_with_pandas sample_uuid4
    (csv_of [row "Topps" "1" "A" blank_cell; row "Topps" "1" "A" blank_cell;
             row "Bowman" "2" "B" superscript_two]) (λ _, false) "in.csv"
  = ([], inl (PrintError (duplicate_warning "Topps"))).
Proof. vm_compute. reflexivity. Qed.

Example group_rows_sample :
  group_rows [row "Topps" "1" "A" EmptyString; row "Topps  - Gold-" "1" "A" "10";
              row "ToppsChrome" "1" "A" EmptyString; row " Topps" "2" "B" EmptyString]
  = [ {| base_set := "Topps"; base_rows := [row "Topps" "1" "A" EmptyString];
         parallel_rows := [(row "Topps  - Gold-" "1" "A" "10", "Gold")] |};
      {| base_set := "ToppsChrome"; base_rows := [row "ToppsChrome" "1" "A" EmptyString];
         parallel_rows := [] |};
      {| base_set := "Topps"; base_rows := [row " Topps" "2" "B" EmptyString];
         parallel_rows := [] |} ].
Proof. reflexivity. Qed.

Example merge_groups_sample :
  merge_groups (group_rows
    [row "Topps" "1" "A" EmptyString; row "Bowman" "7" "C" EmptyString;
     row "Refractor" "01" " A" "25"; row "Refractor Gold" "1" "A" "5"])
  = [ {| base_set := "Topps"; base_rows := [row "Topps" "1" "A" EmptyString];
         parallel_rows := [(row "Refractor" "01" " A" "25", "Refractor");
                           (row "Refractor Gold" "1" "A" "5", "Gold")] |};
      {| base_set := "Bowman"; base_rows := [row "Bowman" "7" "C" EmptyString];
         parallel_rows := [] |} ].
Proof. vm_compute. reflexivity. Qed.


(** ** Strings *)


Lemma app_String c s t : String c s +:+ t = String c (s +:+ t).
Proof. reflexivity. Qed.

Lemma app_empty_l t : EmptyString +:+ t = t.
Proof. reflexivity. Qed.

Lemma prefix_app p t : String.prefix p (p +:+ t) = true.
Proof.
  induction p as [|c p IH]; [by destruct t|].
  rewrite app_String. simpl. by destruct (ascii_dec c c).
Qed.

Lemma prefix_split p s : String.prefix p s = true → ∃ t, s = p +:+ t.
Proof.
  revert s. induction p as [|c p IH]; intros s H.
  - by exists s.
  - destruct s as [|d s]; [done|]. simpl in H.
    destruct (ascii_dec c d) as [->|]; [|done].
    destruct (IH _ H) as [t ->]. by exists t.
Qed.

Lemma slice_from_app p t : PyStr.slice_from (String.length p) (p +:+ t) = t.
Proof. induction p as [|c p IH]; [by destruct t|]. by rewrite app_String. Qed.

Lemma string_length_app s t : String.length (s +:+ t) = String.length s + String.length t.
Proof. induction s as [|c s IH]; [done|]. rewrite app_String. simpl. by rewrite IH. Qed.

Lemma string_app_assoc s t u : (s +:+ t) +:+ u = s +:+ (t +:+ u).
Proof. induction s as [|c s IH]; [done|]. rewrite !app_String. by rewrite IH. Qed.


(** ** The grouping loop *)

Lemma drop_while_clean p l : PyStr.clean_head p (PyStr.drop_while p l).
Proof.
  induction l as [|c l IH]; [done|]. simpl.
  destruct (p c) eqn:Hc; [done|]. by simpl.
Qed.

Lemma drop_while_id p l : PyStr.clean_head p l → PyStr.drop_while p l = l.
Proof. destruct l as [|c l]; [done|]. simpl. by intros ->. Qed.

Lemma drop_while_split p l : ∃ pre, l = pre ++ PyStr.drop_while p l.
Proof.
  induction l as [|c l [pre IH]]; [by exists []|]. simpl.
  destruct (p c); [|by exists []].
  exists (c :: pre). simpl. by rewrite <- IH.
Qed.

Lemma clean_head_app_l p a b : PyStr.clean_head p (a ++ b) → a ≠ [] → PyStr.clean_head p a.
Proof. by destruct a. Qed.

Lemma strip_list_idem p l :
  PyStr.strip_list p (PyStr.strip_list p l) = PyStr.strip_list p l.
Proof.
  unfold PyStr.strip_list.
  set (m := PyStr.drop_while p l).
  set (r := PyStr.drop_while p (rev m)).
  assert (Hm : PyStr.clean_head p m) by apply drop_while_clean.
  assert (Hr : PyStr.clean_head p r) by apply drop_while_clean.
  assert (Hrr : PyStr.clean_head p (rev r)).
  { destruct (drop_while_split p (rev m)) as [pre Hpre]. fold r in Hpre.
    assert (Hm' : m = rev r ++ rev pre).
    { rewrite <- rev_app_distr, <- Hpre. by rewrite rev_involutive. }
    destruct (decide (rev r = [])) as [->|Hne]; [done|].
    rewrite Hm' in Hm. by eapply clean_head_app_l. }
  rewrite (drop_while_id _ _ Hrr), rev_involutive.
  by rewrite (drop_while_id _ _ Hr).
Qed.

Lemma strip_by_idem p s : PyStr.strip_by p (PyStr.strip_by p s) = PyStr.strip_by p s.
Proof.
  unfold PyStr.strip_by.
  by rewrite list_ascii_of_string_of_list_ascii, strip_list_idem.
Qed.

Lemma normalize_text_idem s : normalize_text (normalize_text s) = normalize_text s.
Proof. apply strip_by_idem. Qed.

Lemma drop_while_app_all q x y :
  (∀ c, In c x → q c = true) → PyStr.drop_while q (x ++ y) = PyStr.drop_while q y.
Proof.
  induction x as [|c x IH]; intros H; simpl; [done|].
  rewrite (H c) by (by left). apply IH. intros c' Hc'. apply H. by right.
Qed.

Lemma drop_while_app_stop q x y :
  PyStr.drop_while q x ≠ [] →
  PyStr.drop_while q (x ++ y) = PyStr.drop_while q x ++ y.
Proof.
  induction x as [|c x IH]; simpl; [done|].
  destruct (q c); [apply IH|done].
Qed.

Lemma drop_while_nil_all q x :
  PyStr.drop_while q x = [] → ∀ c, In c x → q c = true.
Proof.
  induction x as [|c x IH]; simpl; [done|].
  destruct (q c) eqn:E; [|done]. intros H c' [<-|Hc']; [done|]. by apply IH.
Qed.

Lemma drop_while_prefix q l :
  ∃ pre, l = pre ++ PyStr.drop_while q l ∧ ∀ c, In c pre → q c = true.
Proof.
  induction l as [|c l (pre & IH & Hpre)]; [by exists []|]. simpl.
  destruct (q c) eqn:E; [|by exists []].
  exists (c :: pre). split; [simpl; by rewrite <- IH|].
  intros c' [<-|Hc']; [done|]. by apply Hpre.
Qed.

Lemma drop_while_absorb p q l :
  (∀ c, In c l → p c = true → q c = true) →
  PyStr.drop_while q (PyStr.drop_while p l) = PyStr.drop_while q l.
Proof.
  induction l as [|c l IH]; intros H; simpl; [done|].
  destruct (p c) eqn:E.
  - rewrite (H c) by (done || by left). apply IH.
    intros c' Hc'. apply H. by right.
  - done.
Qed.

(** Stripping the characters of a larger class makes a first strip
    superfluous. *)
Lemma strip_list_absorb p q l :
  (∀ c, In c l → p c = true → q c = true) →
  PyStr.strip_list q (PyStr.strip_list p l) = PyStr.strip_list q l.
Proof.
  intros Hpq. unfold PyStr.strip_list at 2 3.
  rewrite <- (drop_while_absorb p q l Hpq).
  set (m := PyStr.drop_while p l).
  assert (Hm : ∀ c, In c m → p c = true → q c = true).
  { intros c Hc. apply Hpq. destruct (drop_while_prefix p l) as (pre & Hl & _).
    rewrite Hl. apply in_or_app. by right. }
  clearbody m. clear Hpq l.
  destruct (drop_while_prefix p (rev m)) as (pre & Hrev & Hpre).
  set (X := rev (PyStr.drop_while p (rev m))).
  assert (HmX : m = X ++ rev pre).
  { unfold X. rewrite <- rev_app_distr, <- Hrev. by rewrite rev_involutive. }
  assert (Hb : ∀ c, In c (rev pre) → q c = true).
  { intros c Hc. apply Hm.
    - rewrite HmX. apply in_or_app. by right.
    - apply Hpre. by apply in_rev. }
  unfold PyStr.strip_list. rewrite HmX.
  destruct (PyStr.drop_while q X) as [|c0 rest] eqn:EX.
  - rewrite drop_while_app_all by (by apply drop_while_nil_all).
    assert (PyStr.drop_while q (rev pre) = []) as ->; [|done].
    destruct (drop_while_prefix q (rev pre)) as (pre' & Hp' & _).
    destruct (PyStr.drop_while q (rev pre)) as [|c1 r1] eqn:E1; [done|].
    assert (q c1 = false).
    { pose proof (drop_while_clean q (rev pre)) as Hcl. rewrite E1 in Hcl. exact Hcl. }
    assert (q c1 = true).
    { apply Hb. rewrite Hp'. apply in_or_app. right. by left. }
    congruence.
  - rewrite drop_while_app_stop by (by rewrite EX). rewrite EX.
    rewrite (rev_app_distr (c0 :: rest)), rev_involutive.
    rewrite (drop_while_app_all q pre); [reflexivity|].
    intros c Hc. apply Hb. by apply in_rev in Hc.
Qed.

Lemma strip_chars_after_strip s :
  plain_spaces s →
  PyStr.strip_chars " -" (PyStr.strip s) = PyStr.strip_chars " -" s.
Proof.
  intros Hs. unfold PyStr.strip_chars, PyStr.strip, PyStr.strip_by.
  rewrite list_ascii_of_string_of_list_ascii, strip_list_absorb; [done|].
  intros c Hc Hsp. by rewrite (Hs c Hc Hsp).
Qed.

Lemma group_step_inv st r : grouper_inv st → grouper_inv (group_step st r).
Proof.
  destruct st as [gs [[g b]|]]; unfold grouper_inv; simpl.
  - intros [Hgs [-> Hb]].
    destruct (String.eqb _ _) eqn:E1; simpl.
    + done.
    + destruct (PyStr.startswith _ _); simpl; [done|].
      split; [|by rewrite normalize_text_idem].
      apply Forall_app. split; [done|]. by constructor.
  - intros [_ ->]. split; [done|]. by rewrite normalize_text_idem.
Qed.

Lemma fold_group_step_inv df st :
  grouper_inv st → grouper_inv (fold_left group_step df st).
Proof.
  revert st. induction df as [|r df IH]; intros st H; [done|].
  simpl. apply IH. by apply group_step_inv.
Qed.

Lemma grouper_run_inv df : grouper_inv (grouper_run df).
Proof. apply fold_group_step_inv. by split. Qed.

Lemma grouper_run_snoc df r :
  grouper_run (df ++ [r]) = group_step (grouper_run df) r.
Proof. unfold grouper_run. by rewrite fold_left_app. Qed.

Lemma grouper_run_none df gs : grouper_run df = (gs, None) → df = [] ∧ gs = [].
Proof.
  destruct df as [|r df] using rev_ind; [by intros [= <-]|].
  rewrite grouper_run_snoc. destruct (grouper_run df) as [gs' [[g b]|]]; simpl.
  - destruct (_ || _); [destruct (String.eqb _ _)|]; done.
  - done.
Qed.

Lemma group_rows_base_set_normalized df g :
  In g (group_rows df) → normalize_text (base_set g) = base_set g.
Proof.
  unfold group_rows. destruct (grouper_run_inv df) as [Hgs Hcur].
  destruct (grouper_run df) as [gs [[cur b]|]]; simpl in *.
  - intros [H| [<-|[]]]%in_app_or.
    + by eapply (proj1 (List.Forall_forall _ _) Hgs).
    + destruct Hcur as [-> ?]. done.
  - intros H. by eapply (proj1 (List.Forall_forall _ _) Hgs).
Qed.

Lemma group_step_members st r :
  state_members (group_step st r) ≡ₚ state_members st ++ [r].
Proof.
  destruct st as [gs [[g b]|]]; unfold state_members, group_members; simpl.
  - destruct (_ || _); [destruct (String.eqb _ _)|]; simpl.
    + rewrite <- !app_assoc. do 2 apply Permutation_app_head.
      apply Permutation_app_comm.
    + rewrite map_app. simpl. by rewrite <- !app_assoc.
    + rewrite map_app, concat_app. simpl. by rewrite !app_nil_r, <- !app_assoc.
  - by rewrite !app_nil_r.
Qed.

Lemma fold_group_step_members df st :
  state_members (fold_left group_step df st) ≡ₚ state_members st ++ df.
Proof.
  revert st. induction df as [|r df IH]; intros st; simpl.
  - by rewrite app_nil_r.
  - rewrite IH, group_step_members. by rewrite <- app_assoc.
Qed.

Lemma finish_members st :
  concat (map group_members (grouper_finish st)) = state_members st.
Proof.
  destruct st as [gs [[g b]|]]; unfold state_members; simpl.
  - rewrite map_app, concat_app. simpl. by rewrite app_nil_r.
  - by rewrite app_nil_r.
Qed.

(** C7 (partition completeness).  After grouping, the rows held by the
    groups (each group's [base_rows] followed by the rows of its
    [parallel_rows]), taken over all groups and counted with multiplicity,
    are exactly the input rows: every row of the frame sits in exactly one
    place of exactly one group, none is dropped and none is held twice. *)
Theorem grouping_partitions_rows (df : list Row) :
  concat (map group_members (group_rows df)) ≡ₚ df.
Proof.
  unfold group_rows. rewrite finish_members.
  unfold grouper_run. by rewrite fold_group_step_members.
Qed.



Lemma app_neq_self b t : t ≠ EmptyString → b +:+ t ≠ b.
Proof.
  intros Ht H. apply (f_equal String.length) in H.
  rewrite string_length_app in H. destruct t; [done|]. simpl in H. lia.
Qed.

Lemma startswith_iff s p : PyStr.startswith s p = true ↔ ∃ t, s = p +:+ t.
Proof.
  unfold PyStr.startswith. split; [apply prefix_split|].
  intros [t ->]. apply prefix_app.
Qed.

(** C4 as stated fails on a set name with a tab after the space: the set
    name of [tabbed_row] is [Topps], a space and [tabbed_suffix]; trimming
    spaces and hyphens off [tabbed_suffix] leaves it as it is, tab first; the
    grouper names the parallel [Gold]. *)
Lemma tabbed_suffix_counterexample :
  normalize_text (CARD_SET tabbed_row) = "Topps" +:+ " " +:+ tabbed_suffix
  ∧ PyStr.strip_chars " -" tabbed_suffix = tabbed_suffix
  ∧ String.eqb tabbed_suffix "Gold" = false
  ∧ grouper_run ([row "Topps" "1" "A" EmptyString] ++ [tabbed_row])
    = ([], Some (add_parallel_row (open_group "Topps" (row "Topps" "1" "A" EmptyString))
                                  tabbed_row "Gold",
                 "Topps")).
Proof. repeat split. Qed.

(** C4 (the row grouper), amended.  Let the loop have processed the rows [df] and
    meet the row [r], whose trimmed set name is [card_set].  Before the first
    row there is no current group, and [r] opens one whose [base_set] is
    [card_set].  Otherwise [current_base] is the current group's [base_set],
    and: if [card_set] equals it, [r] is appended to [base_rows]; if
    [card_set] is [base_set], a space and a [suffix], the pair of [r] and a
    name is appended to [parallel_rows], the name being the suffix trimmed of
    surrounding whitespace and then of surrounding spaces and hyphens (which
    is the suffix trimmed of surrounding spaces and hyphens when the space is
    the only whitespace in it); in
    every other case, that of a set name that merely contains [base_set]
    included, the current group is closed and [r] opens a new group whose
    [base_set] is [card_set]. *)
Theorem grouper_step_cases (df : list Row) (r : Row) :
  let card_set := normalize_text (CARD_SET r) in
  match grouper_run df with
  | (groups, None) =>
      df = []
      ∧ grouper_run (df ++ [r]) = ([], Some (open_group card_set r, card_set))
  | (groups, Some (cur, current_base)) =>
      current_base = base_set cur
      ∧ (card_set = base_set cur →
         grouper_run (df ++ [r])
         = (groups, Some (add_base_row cur r, current_base)))
      ∧ (∀ suffix, card_set = base_set cur +:+ " " +:+ suffix →
         grouper_run (df ++ [r])
         = (groups,
            Some (add_parallel_row cur r
                    (PyStr.strip_chars " -" (normalize_text suffix)),
                  current_base))
         ∧ (plain_spaces suffix →
            PyStr.strip_chars " -" (normalize_text suffix)
            = PyStr.strip_chars " -" suffix))
      ∧ (card_set ≠ base_set cur →
         (∀ suffix, card_set ≠ base_set cur +:+ " " +:+ suffix) →
         grouper_run (df ++ [r])
         = (groups ++ [cur], Some (open_group card_set r, card_set)))
  end.
Proof.
  intros card_set. rewrite grouper_run_snoc.
  pose proof (grouper_run_inv df) as [_ Hcur].
  pose proof (grouper_run_none df) as Hnone.
  destruct (grouper_run df) as [gs [[cur b]|]]; simpl in *.
  - destruct Hcur as [-> _]. fold card_set.
    split; [done|]. split; [|split].
    + intros ->. by rewrite String.eqb_refl.
    + intros suffix Hs. split; [|apply strip_chars_after_strip].
      assert (String.eqb card_set (base_set cur) = false) as ->.
      { apply String.eqb_neq. rewrite Hs. by apply app_neq_self. }
      assert (PyStr.startswith card_set (base_set cur +:+ " ") = true) as ->.
      { apply startswith_iff. exists suffix. by rewrite string_app_assoc. }
      simpl. do 4 f_equal. rewrite Hs.
      replace (String.length (base_set cur) + 1)
        with (String.length (base_set cur +:+ " "))
        by (rewrite string_length_app; simpl; lia).
      by rewrite <- string_app_assoc, slice_from_app.
    + intros Hne Hnp.
      assert (String.eqb card_set (base_set cur) = false) as ->
        by by apply String.eqb_neq.
      destruct (PyStr.startswith card_set (base_set cur +:+ " ")) eqn:E; [|done].
      apply startswith_iff in E as [t Ht]. rewrite string_app_assoc in Ht.
      by destruct (Hnp t).
  - destruct (Hnone gs eq_refl) as [-> ->]. done.
Qed.

Lemma grouper_step_cases_witness :
  grouper_run ([row "Topps" "1" "A" EmptyString] ++ [row " Topps " "2" "B" EmptyString])
  = ([], Some (add_base_row (open_group "Topps" (row "Topps" "1" "A" EmptyString))
                            (row " Topps " "2" "B" EmptyString), "Topps"))
  ∧ grouper_run ([row "Topps" "1" "A" EmptyString] ++ [row "Topps - Gold -" "1" "A" "10"])
    = ([], Some (add_parallel_row (open_group "Topps" (row "Topps" "1" "A" EmptyString))
                            (row "Topps - Gold -" "1" "A" "10") "Gold", "Topps"))
  ∧ grouper_run ([row "Topps" "1" "A" EmptyString] ++ [row "ToppsChrome" "1" "A" EmptyString])
    = ([open_group "Topps" (row "Topps" "1" "A" EmptyString)],
       Some (open_group "ToppsChrome" (row "ToppsChrome" "1" "A" EmptyString), "ToppsChrome")).
Proof.
  split; [|split].
  - apply (grouper_step_cases [row "Topps" "1" "A" EmptyString] (row " Topps " "2" "B" EmptyString)).
    reflexivity.
  - apply (proj1 (proj2 (proj2
      (grouper_step_cases [row "Topps" "1" "A" EmptyString] (row "Topps - Gold -" "1" "A" "10"))))
      "- Gold -").
    reflexivity.
  - apply (proj2 (proj2 (proj2
      (grouper_step_cases [row "Topps" "1" "A" EmptyString] (row "ToppsChrome" "1" "A" EmptyString))))).
    + discriminate.
    + intros suffix. discriminate.
Defined.


(** ** Merging *)

Lemma fold_left_snoc {A B} (f : A → B) (l : list A) (acc : list B) :
  fold_left (λ acc x, acc ++ [f x]) l acc = acc ++ map f l.
Proof.
  revert acc. induction l as [|x l IH]; intros acc; simpl.
  - by rewrite app_nil_r.
  - by rewrite IH, <- app_assoc.
Qed.

Lemma absorb_eq A B :
  normalize_text (base_set B) = base_set B → absorb A B = merged_into A B.
Proof.
  intros HB. unfold absorb, merged_into. f_equal.
  rewrite (fold_left_snoc (λ r, (r, normalize_text (base_set B)))).
  rewrite (fold_left_snoc (λ tup, tup)), map_id, HB.
  by rewrite <- app_assoc.
Qed.

Lemma candidate_iff A B :
  is_parallel_candidate A B = true ↔ get_base_keys A = get_base_keys B.
Proof. unfold is_parallel_candidate. apply bool_decide_eq_true. Qed.

Lemma candidate_false A B :
  get_base_keys A ≠ get_base_keys B → is_parallel_candidate A B = false.
Proof. unfold is_parallel_candidate. apply bool_decide_eq_false. Qed.

Lemma merge_scan_hit pre A post B :
  (∀ A0, In A0 pre → get_base_keys A0 ≠ get_base_keys B) →
  get_base_keys A = get_base_keys B →
  merge_scan (pre ++ A :: post) B = Some (pre ++ absorb A B :: post).
Proof.
  intros Hpre HA. induction pre as [|A0 pre IH]; simpl.
  - by rewrite (proj2 (candidate_iff A B) HA).
  - rewrite candidate_false by (apply Hpre; by left).
    rewrite IH; [done|]. intros A1 H1. apply Hpre. by right.
Qed.

Lemma merge_scan_miss merged B :
  (∀ A, In A merged → get_base_keys A ≠ get_base_keys B) →
  merge_scan merged B = None.
Proof.
  induction merged as [|A0 merged IH]; intros H; simpl; [done|].
  rewrite candidate_false by (apply H; by left).
  rewrite IH; [done|]. intros A1 H1. apply H. by right.
Qed.

Lemma merge_groups_snoc gs B :
  merge_groups (gs ++ [B]) = merge_step (merge_groups gs) B.
Proof. unfold merge_groups. by rewrite fold_left_app. Qed.

Lemma elem_of_base_keys G k :
  k ∈ get_base_keys G ↔ ∃ r, In r (base_rows G) ∧ k = base_key r.
Proof.
  unfold get_base_keys. rewrite elem_of_list_to_set, list_elem_of_In, in_map_iff.
  split; intros [r [H1 H2]]; exists r; by split.
Qed.

(** C3 (merging).  Let [B] be a group of the grouping of [df], [earlier] the
    groups before it, and [merged] the finalized groups after those.  [B] is
    a candidate for a finalized group [A] exactly when the base rows of [A]
    and of [B] have the same set of keys (canonical card number, trimmed
    athlete name).  If [A] is the first finalized group that [B] is a
    candidate for, [B] merges into it: [A] keeps its place, its [base_set]
    and its [base_rows], and gains as parallel rows [B]'s base rows under the
    name [base_set B], then [B]'s parallel rows unchanged.  If [B] is a
    candidate for no finalized group, it becomes the last finalized group.
    The groups after [B] are then processed in the same way, in order. *)
Theorem merge_first_match (df : list Row) (earlier : list Group) (B : Group)
    (later : list Group) :
  group_rows df = earlier ++ B :: later →
  let merged := merge_groups earlier in
  (∀ A, is_parallel_candidate A B = true
        ↔ ∀ k, (∃ r, In r (base_rows A) ∧ k = base_key r)
               ↔ (∃ r, In r (base_rows B) ∧ k = base_key r))
  ∧ (∀ pre A post,
       merged = pre ++ A :: post →
       (∀ A0, In A0 pre → is_parallel_candidate A0 B = false) →
       is_parallel_candidate A B = true →
       merge_groups (earlier ++ [B]) = pre ++ merged_into A B :: post)
  ∧ ((∀ A, In A merged → is_parallel_candidate A B = false) →
     merge_groups (earlier ++ [B]) = merged ++ [B])
  ∧ merge_groups (group_rows df)
    = fold_left merge_step later (merge_groups (earlier ++ [B])).
Proof.
  intros Hdf merged.
  assert (HB : normalize_text (base_set B) = base_set B).
  { apply (group_rows_base_set_normalized df). rewrite Hdf.
    apply in_or_app. right. by left. }
  split; [|split; [|split]]; cycle 3.
  { rewrite Hdf. unfold merge_groups. rewrite !fold_left_app. done. }
  - intros A. rewrite candidate_iff. split.
    + intros H k. by rewrite <- !elem_of_base_keys, H.
    + intros H. apply set_eq. intros k. by rewrite !elem_of_base_keys.
  - intros pre A post Hm Hpre HA. rewrite merge_groups_snoc. fold merged.
    unfold merge_step. rewrite Hm, merge_scan_hit.
    + by rewrite absorb_eq.
    + intros A0 H0 Heq. apply candidate_iff in Heq.
      by rewrite (Hpre A0 H0) in Heq.
    + by apply candidate_iff.
  - intros Hnone. rewrite merge_groups_snoc. fold merged.
    unfold merge_step. rewrite merge_scan_miss; [done|].
    intros A HA Heq. apply candidate_iff in Heq. by rewrite (Hnone A HA) in Heq.
Qed.

Lemma merge_first_match_witness :
  group_rows split_checklist = [topps_group; bowman_group] ++ refractor_group :: []
  ∧ merge_groups ([topps_group; bowman_group] ++ [refractor_group])
    = [] ++ merged_into topps_group refractor_group :: [bowman_group]
  ∧ merge_groups ([topps_group] ++ [bowman_group])
    = merge_groups [topps_group] ++ [bowman_group].
Proof.
  assert (H : group_rows split_checklist
              = [topps_group; bowman_group] ++ refractor_group :: [])
    by reflexivity.
  assert (H' : group_rows split_checklist
               = [topps_group] ++ bowman_group :: [refractor_group])
    by reflexivity.
  split; [exact H|]. split.
  - apply (proj1 (proj2 (merge_first_match split_checklist
                           [topps_group; bowman_group] refractor_group [] H))
             [] topps_group [bowman_group]).
    + vm_compute. reflexivity.
    + intros A0 [].
    + vm_compute. reflexivity.
  - apply (proj1 (proj2 (proj2 (merge_first_match split_checklist
                           [topps_group] bowman_group [refractor_group] H')))).
    intros A [<-|[]]. vm_compute. reflexivity.
Defined.


(** ** Duplicate removal *)

Lemma dedup_loop_from l u seen d :
  fold_left dedup_step l (u, seen, d)
  = (u ++ keep_unseen seen l,
     list_to_set (map Card.key l) ∪ seen,
     d || meets_seen seen l).
Proof.
  revert u seen d. induction l as [|c l IH]; intros u seen d; simpl.
  - rewrite app_nil_r, orb_false_r. f_equal. f_equal. set_solver.
  - fold (Card.key c). case_bool_decide as Hc.
    + rewrite IH. rewrite orb_true_r. simpl. f_equal. f_equal. set_solver.
    + rewrite IH, <- app_assoc. simpl. f_equal. f_equal. set_solver.
Qed.

Lemma dedup_eq l : dedup l = (keep_unseen ∅ l, meets_seen ∅ l).
Proof. unfold dedup, dedup_loop. by rewrite dedup_loop_from. Qed.

Lemma keep_unseen_sublist seen l : keep_unseen seen l `sublist_of` l.
Proof.
  revert seen. induction l as [|c l IH]; intros seen; simpl; [constructor|].
  case_bool_decide; by constructor.
Qed.



Lemma keep_unseen_covers seen l c :
  In c l → Card.key c ∈ seen ∨ In (Card.key c) (map Card.key (keep_unseen seen l)).
Proof.
  revert seen. induction l as [|c0 l IH]; intros seen; simpl; [done|].
  intros [->|Hin].
  - case_bool_decide as H0; [by left|]. right. by left.
  - case_bool_decide as H0; [by apply IH|].
    destruct (IH ({[Card.key c0]} ∪ seen) Hin) as [H|H]; simpl.
    + apply elem_of_union in H as [->%elem_of_singleton|H]; [right; by left|by left].
    + right. by right.
Qed.


Lemma meets_seen_false seen l :
  meets_seen seen l = false
  ↔ List.NoDup (map Card.key l) ∧ ∀ c, In c l → Card.key c ∉ seen.
Proof.
  revert seen. induction l as [|c l IH]; intros seen; simpl.
  - split; [|done]. intros _. split; [constructor|done].
  - case_bool_decide as H0.
    + split; [done|]. intros [_ H]. destruct (H c); [by left|done].
    + rewrite IH. split.
      * intros [Hnd Hfresh]. split.
        -- constructor; [|done]. intros (c' & Hk & Hin)%in_map_iff.
           apply Hfresh in Hin. apply Hin, elem_of_union. left.
           by apply elem_of_singleton.
        -- intros c' [<-|Hin]; [done|]. apply Hfresh in Hin.
           intros Hs. apply Hin, elem_of_union. by right.
      * intros [Hnd Hfresh]. inversion Hnd as [|?? Hnotin Hnd']; subst. split; [done|].
        intros c' Hin. apply not_elem_of_union. split; [|apply Hfresh; by right].
        intros Hs%elem_of_singleton. apply Hnotin, in_map_iff. by exists c'.
Qed.

Lemma keep_unseen_id seen l :
  meets_seen seen l = false → keep_unseen seen l = l.
Proof.
  revert seen. induction l as [|c l IH]; intros seen; simpl; [done|].
  case_bool_decide; [done|]. intros Hm. by rewrite IH.
Qed.



(** ** Uniform sequences *)

Lemma uniform_sequence_Some (S : gset (option Z)) (x : option Z) :
  uniform_sequence S = Some x ↔ S = {[x]} ∧ x ≠ None.
Proof.
  unfold uniform_sequence, set_pop. split.
  - destruct (bool_decide (S ≠ ∅)) eqn:E1; [|done].
    destruct (bool_decide (size S = 1)) eqn:E2; [|done].
    destruct (bool_decide (None ∉ S)) eqn:E3; [|done]. simpl.
    apply bool_decide_eq_true in E2, E3.
    apply size_1_elem_of in E2 as [y Hy]. apply leibniz_equiv in Hy. subst S.
    rewrite elements_singleton. intros [= <-]. split; [done|].
    intros ->. apply E3. by apply elem_of_singleton.
  - intros [-> Hx].
    rewrite (bool_decide_eq_true_2 ({[x]} ≠ ∅)).
    2:{ intros H. assert (x ∈ (∅ : gset (option Z))) as H'; [|by apply not_elem_of_empty in H'].
        rewrite <- H. by apply elem_of_singleton. }
    rewrite (bool_decide_eq_true_2 (size ({[x]} : gset (option Z)) = 1))
      by apply size_singleton.
    rewrite (bool_decide_eq_true_2 (None ∉ ({[x]} : gset (option Z)))).
    2:{ intros H%elem_of_singleton. by apply Hx. }
    simpl. by rewrite elements_singleton.
Qed.

Lemma elem_of_present_sequences rows x :
  x ∈ present_sequences rows
  ↔ x ≠ None ∧ ∃ r, In r rows ∧ parse_sequence (SEQUENCE r) = x.
Proof.
  unfold present_sequences.
  rewrite elem_of_list_to_set, list_elem_of_filter, list_elem_of_In, in_map_iff.
  split.
  - intros [Hx (r & Hr & Hin)]. split; [done|]. by exists r.
  - intros [Hx (r & Hin & Hr)]. split; [done|]. by exists r.
Qed.

Lemma present_sequences_cons r rows :
  present_sequences (r :: rows)
  = match parse_sequence (SEQUENCE r) with
    | Some _ => {[parse_sequence (SEQUENCE r)]} ∪ present_sequences rows
    | None => present_sequences rows
    end.
Proof.
  unfold present_sequences. simpl. rewrite filter_cons.
  destruct (parse_sequence (SEQUENCE r)) as [v|]; by case_decide.
Qed.

Lemma present_sequences_all rows V :
  rows ≠ [] →
  (∀ r, In r rows → parse_sequence (SEQUENCE r) = Some V) →
  present_sequences rows = {[Some V]}.
Proof.
  intros Hne Hall. apply set_eq. intros x.
  rewrite elem_of_present_sequences, elem_of_singleton. split.
  - intros [_ (r & Hin & <-)]. by apply Hall.
  - intros ->. split; [done|]. destruct rows as [|r rows]; [done|].
    exists r. split; [by left|]. apply Hall. by left.
Qed.

Lemma present_sequences_none rows :
  (∀ r, In r rows → parse_sequence (SEQUENCE r) = None) →
  present_sequences rows = ∅.
Proof.
  intros Hall. apply set_eq. intros x.
  rewrite elem_of_present_sequences. split.
  - intros [Hx (r & Hin & <-)]. by rewrite (Hall r Hin) in Hx.
  - intros H. by apply not_elem_of_empty in H.
Qed.

Lemma uniform_sequence_empty : uniform_sequence ∅ = None.
Proof.
  destruct (uniform_sequence ∅) as [x|] eqn:E; [|done].
  apply uniform_sequence_Some in E as [E _].
  assert (x ∈ (∅ : gset (option Z))) as H; [|by apply not_elem_of_empty in H].
  rewrite E. by apply elem_of_singleton.
Qed.

Lemma uniform_sequence_two S x y :
  x ∈ S → y ∈ S → x ≠ y → uniform_sequence S = None.
Proof.
  intros Hx Hy Hxy. destruct (uniform_sequence S) as [z|] eqn:E; [|done].
  apply uniform_sequence_Some in E as [-> _].
  apply elem_of_singleton in Hx, Hy. congruence.
Qed.

Lemma uniform_sequence_not_null S : uniform_sequence S ≠ Some None.
Proof. intros H. apply uniform_sequence_Some in H as [_ H]. by apply H. Qed.


(** ** The base rows *)

Section SynthesisFacts.

Variable uuid4 : nat → string.
Variable set_attributes : list string.

Lemma row_numbers_cons r rows :
  row_numbers (r :: rows)
  = {[normalize_card_number (CARD_NUMBER r)]} ∪ row_numbers rows.
Proof. done. Qed.

Lemma base_loop_from rows cards nums seqs n :
  fold_left (base_row_step uuid4 set_attributes) rows (cards, nums, seqs, n)
  = (cards ++ cards_from uuid4 (raw_card set_attributes) n rows,
     row_numbers rows ∪ nums,
     present_sequences rows ∪ seqs,
     n + length rows).
Proof.
  revert cards nums seqs n.
  induction rows as [|r rows IH]; intros cards nums seqs n.
  - simpl. rewrite app_nil_r, Nat.add_0_r.
    replace (row_numbers [] ∪ nums) with nums by set_solver.
    by replace (present_sequences [] ∪ seqs) with seqs by set_solver.
  - cbn [fold_left]. unfold base_row_step at 2. cbn [generate_uuid].
    rewrite IH, <- app_assoc. cbn [cards_from app length].
    rewrite row_numbers_cons, present_sequences_cons.
    replace (n + S (length rows)) with (S n + length rows) by lia.
    unfold raw_card at 2.
    destruct (parse_sequence (SEQUENCE r)) as [v|] eqn:Hv.
    + replace (row_numbers rows ∪ ({[normalize_card_number (CARD_NUMBER r)]} ∪ nums))
        with ({[normalize_card_number (CARD_NUMBER r)]} ∪ row_numbers rows ∪ nums)
        by set_solver.
      by replace (present_sequences rows ∪ ({[Some v]} ∪ seqs))
        with ({[Some v]} ∪ present_sequences rows ∪ seqs) by set_solver.
    + by replace (row_numbers rows ∪ ({[normalize_card_number (CARD_NUMBER r)]} ∪ nums))
        with ({[normalize_card_number (CARD_NUMBER r)]} ∪ row_numbers rows ∪ nums)
        by set_solver.
Qed.

Lemma cleanup_raw_card u uid r :
  cleanup_card u (raw_card set_attributes uid r) = base_card set_attributes u uid r.
Proof.
  unfold cleanup_card, raw_card, base_card, own_numberedTo.
  destruct u; simpl; [done|]. by destruct (parse_sequence (SEQUENCE r)).
Qed.

Lemma map_cleanup_cards_from u n rows :
  map (cleanup_card u) (cards_from uuid4 (raw_card set_attributes) n rows)
  = cards_from uuid4 (base_card set_attributes u) n rows.
Proof.
  revert n. induction rows as [|r rows IH]; intros n; simpl; [done|].
  by rewrite cleanup_raw_card, IH.
Qed.

Lemma cards_from_lookup {A} (f : string → A → Card.t) n (rows : list A) c :
  In c (cards_from uuid4 f n rows)
  ↔ ∃ i r, rows !! i = Some r ∧ c = f (uuid4 (n + i)) r.
Proof.
  revert n. induction rows as [|r rows IH]; intros n; simpl.
  - split; [done|]. by intros (i & r & H & _).
  - rewrite IH. split.
    + intros [<-|(i & r' & Hi & ->)].
      * exists 0, r. by rewrite Nat.add_0_r.
      * exists (S i), r'. split; [done|]. by rewrite Nat.add_succ_r.
    + intros ([|i] & r' & Hi & ->); simpl in Hi.
      * left. injection Hi as ->. by rewrite Nat.add_0_r.
      * right. exists i, r'. split; [done|]. by rewrite Nat.add_succ_r.
Qed.

Lemma cards_from_split {A} (f : string → A → Card.t) n (rows : list A) i r :
  rows !! i = Some r →
  cards_from uuid4 f n rows
  = cards_from uuid4 f n (take i rows) ++ f (uuid4 (n + i)) r
      :: cards_from uuid4 f (S (n + i)) (drop (S i) rows).
Proof.
  revert n i. induction rows as [|r0 rows IH]; intros n i; [done|].
  destruct i as [|i]; simpl.
  - intros [= ->]. by rewrite Nat.add_0_r, drop_0.
  - intros Hi. rewrite (IH (S n) i Hi). simpl.
    by rewrite Nat.add_succ_r.
Qed.

End SynthesisFacts.


(** ** The parallels loop *)


Lemma erase_attach p c : erase (Card.attach p c) = erase c.
Proof. done. Qed.

Lemma attach_parallel_None cards num p :
  attach_parallel cards num p = None ↔ ∀ c, In c cards → Card.number c ≠ num.
Proof.
  induction cards as [|c0 cards IH]; simpl; [done|].
  destruct (String.eqb_spec (Card.number c0) num) as [Heq|Hne].
  - split; [done|]. intros H. destruct (H c0); [by left|done].
  - destruct (attach_parallel cards num p) eqn:E; simpl.
    + split; [done|]. intros H.
      assert (Some l = None) as Habs; [|done].
      apply IH. intros c Hc. apply H. by right.
    + split; [|done]. intros _ c [<-|Hc]; [done|]. by apply IH.
Qed.

Lemma attach_parallel_Some cards num p cards' :
  attach_parallel cards num p = Some cards' →
  ∃ pre c post,
    cards = pre ++ c :: post ∧ cards' = pre ++ Card.attach p c :: post
    ∧ Card.number c = num ∧ ∀ c0, In c0 pre → Card.number c0 ≠ num.
Proof.
  revert cards'. induction cards as [|c0 cards IH]; intros cards'; simpl; [done|].
  destruct (String.eqb_spec (Card.number c0) num) as [Heq|Hne].
  - intros [= <-]. by exists [], c0, cards.
  - destruct (attach_parallel cards num p) as [l|] eqn:E; simpl; [|done].
    intros [= <-]. destruct (IH l eq_refl) as (pre & c & post & -> & -> & Hc & Hpre).
    exists (c0 :: pre), c, post. repeat split; [done|].
    intros c1 [<-|H1]; [done|]. by apply Hpre.
Qed.

Lemma attach_parallel_erase cards num p cards' :
  attach_parallel cards num p = Some cards' → map erase cards' = map erase cards.
Proof.
  intros (pre & c & post & -> & -> & _)%attach_parallel_Some.
  by rewrite !map_app.
Qed.

Lemma attach_parallel_Forall (P : Card.t → Prop) cards num p cards' :
  (∀ c, P c → P (Card.attach p c)) →
  Forall P cards → attach_parallel cards num p = Some cards' → Forall P cards'.
Proof.
  intros HP Hall (pre & c & post & -> & -> & _)%attach_parallel_Some.
  apply Forall_app in Hall as [Hpre Hpost]. apply Forall_app. split; [done|].
  inversion Hpost; subst. constructor; [by apply HP|done].
Qed.

Lemma grows_refl st : grows st st [].
Proof.
  unfold grows. rewrite app_nil_r, Nat.add_0_r. repeat split; [|done].
  simpl. set_solver.
Qed.

Lemma grows_trans st1 st2 st3 e1 e2 :
  grows st1 st2 e1 → grows st2 st3 e2 → grows st1 st3 (e1 ++ e2).
Proof.
  intros (Hc1 & Hn1 & Hu1 & Hx1) (Hc2 & Hn2 & Hu2 & Hx2). unfold grows.
  split; [|split; [|split]].
  - rewrite Hc2, map_app, Hc1, <- map_app. by rewrite <- app_assoc.
  - rewrite Hn2, Hn1, map_app, list_to_set_app_L. set_solver.
  - rewrite Hu2, Hu1, length_app. lia.
  - apply Forall_app. by split.
Qed.

Section ParallelFacts.

Variable uuid4 : nat → string.
Variable set_attributes : list string.

Lemma card_level_step_grows name st r :
  ∃ extra, grows st (card_level_step uuid4 set_attributes name st r) extra.
Proof.
  destruct st as [[[cards nums] slp] n]. unfold card_level_step.
  destruct (attach_parallel _ _ _) as [cards'|] eqn:E.
  - exists []. unfold grows. simpl. rewrite app_nil_r, Nat.add_0_r.
    repeat split; [|set_solver|done]. by eapply attach_parallel_erase.
  - exists [placeholder set_attributes (uuid4 n) name r]. unfold grows. simpl.
    repeat split; [set_solver|lia|]. by repeat constructor.
Qed.

Lemma card_level_rows_grows name rows st :
  ∃ extra,
    grows st (fold_left (card_level_step uuid4 set_attributes name) rows st) extra.
Proof.
  revert st. induction rows as [|r rows IH]; intros st; simpl.
  - exists []. apply grows_refl.
  - destruct (card_level_step_grows name st r) as [e1 H1].
    destruct (IH (card_level_step uuid4 set_attributes name st r)) as [e2 H2].
    exists (e1 ++ e2). by eapply grows_trans.
Qed.

Lemma parallel_name_step_grows st item :
  ∃ extra, grows st (parallel_name_step uuid4 set_attributes st item) extra.
Proof.
  destruct item as [name rows]. destruct st as [[[cards nums] slp] n].
  unfold parallel_name_step. destruct (scan_rows rows) as [pcn pseq].
  case_bool_decide.
  - exists []. unfold grows. simpl. rewrite app_nil_r, Nat.add_0_r.
    repeat split; [set_solver|done].
  - apply card_level_rows_grows.
Qed.

Lemma parallels_loop_grows items st :
  ∃ extra, grows st (parallels_loop uuid4 set_attributes items st) extra.
Proof.
  unfold parallels_loop. revert st.
  induction items as [|item items IH]; intros st; simpl.
  - exists []. apply grows_refl.
  - destruct (parallel_name_step_grows st item) as [e1 H1].
    destruct (IH (parallel_name_step uuid4 set_attributes st item)) as [e2 H2].
    exists (e1 ++ e2). by eapply grows_trans.
Qed.

(** A property of cards that attaching a card-level parallel preserves and
    that synthesized cards have holds of all cards after the loop. *)
Section Closure.
Variable P : Card.t → Prop.
Hypothesis P_attach :
  ∀ name r c, P c → P (Card.attach (card_level_parallel name r) c).
Hypothesis P_placeholder :
  ∀ uid name r, P (placeholder set_attributes uid name r).

Lemma card_level_step_Forall name st r :
  Forall P st.1.1.1 →
  Forall P (card_level_step uuid4 set_attributes name st r).1.1.1.
Proof.
  destruct st as [[[cards nums] slp] n]. unfold card_level_step. simpl.
  intros H. destruct (attach_parallel _ _ _) as [cards'|] eqn:E; simpl.
  - eapply attach_parallel_Forall; [|done..]. apply P_attach.
  - apply Forall_app. split; [done|]. constructor; [apply P_placeholder|done].
Qed.

Lemma card_level_rows_Forall name rows st :
  Forall P st.1.1.1 →
  Forall P (fold_left (card_level_step uuid4 set_attributes name) rows st).1.1.1.
Proof.
  revert st. induction rows as [|r rows IH]; intros st H; simpl; [done|].
  by apply IH, card_level_step_Forall.
Qed.

Lemma parallel_name_step_Forall st item :
  Forall P st.1.1.1 →
  Forall P (parallel_name_step uuid4 set_attributes st item).1.1.1.
Proof.
  destruct item as [name rows]. destruct st as [[[cards nums] slp] n].
  unfold parallel_name_step. destruct (scan_rows rows) as [pcn pseq].
  case_bool_decide; [done|]. apply card_level_rows_Forall.
Qed.

Lemma parallels_loop_Forall items st :
  Forall P st.1.1.1 →
  Forall P (parallels_loop uuid4 set_attributes items st).1.1.1.
Proof.
  unfold parallels_loop. revert st.
  induction items as [|item items IH]; intros st H; simpl; [done|].
  by apply IH, parallel_name_step_Forall.
Qed.
End Closure.

(** The same, the synthesized cards being those of the rows of the items. *)
Section ClosureOfRows.
Variable P : Card.t → Prop.
Variable of_item : string → Row → Prop.
Hypothesis P_attach :
  ∀ name r c, P c → P (Card.attach (card_level_parallel name r) c).
Hypothesis P_placeholder :
  ∀ uid name r, of_item name r → P (placeholder set_attributes uid name r).

Lemma card_level_rows_Forall_of name rows st :
  (∀ r, In r rows → of_item name r) →
  Forall P st.1.1.1 →
  Forall P (fold_left (card_level_step uuid4 set_attributes name) rows st).1.1.1.
Proof.
  revert st. induction rows as [|r rows IH]; intros st Hrows H; simpl; [done|].
  apply IH; [intros r' Hr'; apply Hrows; by right|].
  destruct st as [[[cards nums] slp] n]. unfold card_level_step. simpl in *.
  destruct (attach_parallel _ _ _) as [cards'|] eqn:E; simpl.
  - eapply attach_parallel_Forall; [|done..]. apply P_attach.
  - apply Forall_app. split; [done|].
    constructor; [|done]. apply P_placeholder, Hrows. by left.
Qed.

Lemma parallels_loop_Forall_of items st :
  (∀ name rows r, In (name, rows) items → In r rows → of_item name r) →
  Forall P st.1.1.1 →
  Forall P (parallels_loop uuid4 set_attributes items st).1.1.1.
Proof.
  unfold parallels_loop. revert st.
  induction items as [|[name rows] items IH]; intros st Hitems H; simpl; [done|].
  apply IH; [intros name' rows' r Hin; apply Hitems; by right|].
  destruct st as [[[cards nums] slp] n].
  unfold parallel_name_step. destruct (scan_rows rows) as [pcn pseq].
  case_bool_decide; [done|]. apply card_level_rows_Forall_of; [|done].
  intros r Hr. apply (Hitems name rows); [by left|done].
Qed.
End ClosureOfRows.

(** What every row of a card-level parallel keeps of the card list holds
    when the loop ends. *)
Lemma parallels_loop_cards_inv (Inv : list Card.t → Prop) items st :
  (∀ name st r,
     Inv st.1.1.1 → Inv (card_level_step uuid4 set_attributes name st r).1.1.1) →
  Inv st.1.1.1 → Inv (parallels_loop uuid4 set_attributes items st).1.1.1.
Proof.
  intros Hstep. unfold parallels_loop. revert st.
  induction items as [|[name rows] items IH]; intros st H; simpl; [done|].
  apply IH. destruct st as [[[cards nums] slp] n].
  unfold parallel_name_step. destruct (scan_rows rows) as [pcn pseq].
  case_bool_decide; [done|].
  generalize (cards, nums, slp, n) H. clear H.
  induction rows as [|r rows IHr]; intros st H; simpl; [done|].
  by apply IHr, Hstep.
Qed.

(** A card is synthesized for a card number that no card has: as long as
    the cards have the numbers [base_numbers], no card with a note has one
    of them. *)
Lemma card_level_step_unmatched (base_numbers : list string) name st r :
  (∀ num, In num base_numbers → ∃ c, In c st.1.1.1 ∧ Card.number c = num)
  ∧ Forall (λ c, Card.note c ≠ None → ¬ In (Card.number c) base_numbers)
           st.1.1.1 →
  (∀ num, In num base_numbers →
     ∃ c, In c (card_level_step uuid4 set_attributes name st r).1.1.1
          ∧ Card.number c = num)
  ∧ Forall (λ c, Card.note c ≠ None → ¬ In (Card.number c) base_numbers)
           (card_level_step uuid4 set_attributes name st r).1.1.1.
Proof.
  destruct st as [[[cards nums] slp] n]. unfold card_level_step. simpl.
  intros [Hcov Hall].
  destruct (attach_parallel _ _ _) as [cards'|] eqn:E; simpl.
  - split; [|by eapply attach_parallel_Forall; [|done..]].
    apply attach_parallel_Some in E as (pre & c & post & -> & -> & _).
    intros num Hnum. destruct (Hcov num Hnum) as (c0 & Hc0 & Hn).
    apply in_app_or in Hc0 as [Hc0|[<-|Hc0]].
    + exists c0. split; [|done]. apply in_or_app. by left.
    + eexists. split; [apply in_or_app; right; by left|done].
    + exists c0. split; [|done]. apply in_or_app. right. by right.
  - split.
    + intros num Hnum. destruct (Hcov num Hnum) as (c0 & Hc0 & Hn).
      exists c0. split; [|done]. apply in_or_app. by left.
    + apply Forall_app. split; [done|]. constructor; [|done].
      intros _ Hin. destruct (Hcov _ Hin) as (c0 & Hc0 & Hn).
      by apply (proj1 (attach_parallel_None _ _ _) E c0).
Qed.

(** The set-level parallels only grow, by parallels made by
    [set_level_parallel]. *)
Lemma card_level_rows_set_level name rows st :
  (fold_left (card_level_step uuid4 set_attributes name) rows st).1.2 = st.1.2.
Proof.
  revert st. induction rows as [|r rows IH]; intros st; simpl; [done|].
  rewrite IH. destruct st as [[[cards nums] slp] n]. unfold card_level_step.
  by destruct (attach_parallel _ _ _).
Qed.

Lemma parallels_loop_set_level (Q : Parallel.t → Prop) items st :
  (∀ name seqs, Q (set_level_parallel name seqs)) →
  Forall Q st.1.2 →
  Forall Q (parallels_loop uuid4 set_attributes items st).1.2.
Proof.
  intros HQ. unfold parallels_loop. revert st.
  induction items as [|[name rows] items IH]; intros st H; simpl; [done|].
  apply IH. destruct st as [[[cards nums] slp] n]. unfold parallel_name_step.
  destruct (scan_rows rows) as [pcn pseq]. case_bool_decide.
  - simpl. apply Forall_app. split; [done|]. by constructor.
  - by rewrite card_level_rows_set_level.
Qed.

End ParallelFacts.


(** ** The set of a group *)

Lemma group_step_has_base_row st r :
  Forall has_base_row (grouper_finish st) →
  Forall has_base_row (grouper_finish (group_step st r)).
Proof.
  destruct st as [gs [[g b]|]]; simpl.
  - intros [Hgs Hg]%Forall_app. apply Forall_inv in Hg.
    destruct (_ || _); [destruct (String.eqb _ _)|]; simpl.
    + apply Forall_app. split; [done|]. constructor; [|done].
      unfold has_base_row. simpl. by destruct (base_rows g).
    + apply Forall_app. split; [done|]. by constructor.
    + apply Forall_app. split; [apply Forall_app; split; [done|by constructor]|].
      by constructor.
  - intros H. apply Forall_app. split; [done|]. by constructor.
Qed.

Lemma group_rows_has_base_row df : Forall has_base_row (group_rows df).
Proof.
  unfold group_rows, grouper_run.
  assert (H : Forall has_base_row (grouper_finish grouper_init)) by constructor.
  revert H. generalize grouper_init.
  induction df as [|r df IH]; intros st H; simpl; [done|].
  by apply IH, group_step_has_base_row.
Qed.

Lemma merge_scan_has_base_row merged g merged' :
  Forall has_base_row merged → merge_scan merged g = Some merged' →
  Forall has_base_row merged'.
Proof.
  revert merged'. induction merged as [|m merged IH]; intros merged' H; simpl; [done|].
  inversion H as [|?? Hm Hrest]; subst.
  destruct (is_parallel_candidate m g).
  - intros [= <-]. by constructor.
  - destruct (merge_scan merged g) as [l|]; simpl; [|done].
    intros [= <-]. constructor; [done|]. by apply IH.
Qed.

Lemma merge_groups_has_base_row gs :
  Forall has_base_row gs → Forall has_base_row (merge_groups gs).
Proof.
  unfold merge_groups.
  assert (H : Forall has_base_row []) by constructor.
  revert H. generalize (@nil Group).
  induction gs as [|g gs IH]; intros merged Hm Hgs; simpl; [done|].
  inversion Hgs; subst. apply IH; [|done]. unfold merge_step.
  destruct (merge_scan merged g) as [l|] eqn:E.
  - by apply (merge_scan_has_base_row merged g).
  - apply Forall_app. split; [done|]. by constructor.
Qed.

Lemma merged_group_has_base_row df g :
  In g (merge_groups (group_rows df)) → base_rows g ≠ [].
Proof.
  intros H. pose proof (merge_groups_has_base_row _ (group_rows_has_base_row df)) as Hall.
  by apply (proj1 (List.Forall_forall _ _) Hall).
Qed.

(** The rows of an item of [parallels_by_name] are parallel rows under the
    name of the item. *)
Lemma setdefault_append_rows d k r name rows r' :
  In (name, rows) (setdefault_append d k r) → In r' rows →
  (∃ rows0, In (name, rows0) d ∧ In r' rows0) ∨ (name = k ∧ r' = r).
Proof.
  induction d as [|[k' rows'] d IH]; cbn [setdefault_append].
  - intros [[= <- <-]|[]] [<-|[]]. by right.
  - destruct (String.eqb_spec k' k) as [->|Hne].
    + intros [[= <- <-]|Hin] Hr'.
      * apply in_app_or in Hr' as [Hr'|[<-|[]]]; [|by right].
        left. exists rows'. split; [by left|done].
      * left. exists rows. split; [by right|done].
    + intros [[= <- <-]|Hin] Hr'.
      * left. exists rows'. split; [by left|done].
      * destruct (IH Hin Hr') as [(rows0 & H0 & H1)|H]; [|by right].
        left. exists rows0. split; [by right|done].
Qed.

Lemma parallels_by_name_rows prs name rows r :
  In (name, rows) (parallels_by_name prs) → In r rows → In (r, name) prs.
Proof.
  revert name rows r. induction prs as [|[r0 k] prs IH] using rev_ind;
    intros name rows r; [done|].
  unfold parallels_by_name. rewrite fold_left_app. cbn [fold_left].
  intros Hin Hr. apply in_or_app.
  destruct (setdefault_append_rows _ _ _ _ _ _ Hin Hr) as [(rows0 & H0 & H1)|[-> ->]].
  - left. by apply (IH name rows0).
  - right. by left.
Qed.

Lemma keep_unseen_keeps seen pre c post :
  Card.key c ∉ seen → (∀ c0, In c0 pre → Card.key c0 ≠ Card.key c) →
  In c (keep_unseen seen (pre ++ c :: post)).
Proof.
  revert seen. induction pre as [|c0 pre IH]; intros seen Hc Hpre; simpl.
  - rewrite bool_decide_eq_false_2 by done. by left.
  - case_bool_decide.
    + apply IH; [done|]. intros c1 H1. apply Hpre. by right.
    + right. apply IH.
      * apply not_elem_of_union. split; [|done].
        intros Hs%elem_of_singleton. apply (Hpre c0); [by left|done].
      * intros c1 H1. apply Hpre. by right.
Qed.

Lemma sublist_In {A} (l1 l2 : list A) x : l1 `sublist_of` l2 → In x l1 → In x l2.
Proof.
  intros Hsub Hin. apply list_elem_of_In. eapply elem_of_sublist; [|done].
  by apply list_elem_of_In.
Qed.

Section BuildFacts.

Variable uuid4 : nat → string.

Lemma build_cards_eq group n :
  build_cards uuid4 group n
  = ((parallels_result uuid4 group n).1.1.1, (parallels_result uuid4 group n).1.2,
     uniform_sequence (present_sequences (base_rows group)),
     (parallels_result uuid4 group n).2).
Proof.
  unfold build_cards, parallels_result, base_loop.
  rewrite base_loop_from. simpl.
  replace (present_sequences (base_rows group) ∪ ∅)
    with (present_sequences (base_rows group)) by set_solver.
  replace (row_numbers (base_rows group) ∪ ∅)
    with (row_numbers (base_rows group)) by set_solver.
  rewrite map_cleanup_cards_from.
  by destruct (parallels_loop _ _ _ _) as [[[? ?] ?] ?].
Qed.

Lemma process_group_eq group n :
  process_group uuid4 group n
  = ({| CardSet.uniqueId := uuid4 (parallels_result uuid4 group n).2;
        CardSet.name := base_set group;
        CardSet.cards := keep_unseen ∅ (parallels_result uuid4 group n).1.1.1;
        CardSet.parallels := (parallels_result uuid4 group n).1.2;
        CardSet.variations := [];
        CardSet.numberedTo :=
          uniform_sequence (present_sequences (base_rows group)) |},
     S (parallels_result uuid4 group n).2,
     if meets_seen ∅ (parallels_result uuid4 group n).1.1.1
     then [duplicate_warning (base_set group)] else []).
Proof.
  unfold process_group. rewrite build_cards_eq. unfold assemble_set.
  by rewrite dedup_eq.
Qed.

(** A property of cards that holds of the cleaned base cards, that
    attaching a parallel preserves, and that synthesized cards have, holds
    of every card of the set. *)
Lemma set_cards_Forall (P : Card.t → Prop) group n :
  (∀ name r c, P c → P (Card.attach (card_level_parallel name r) c)) →
  (∀ uid name r,
     P (placeholder (get_attributes_for_set (base_set group)) uid name r)) →
  (∀ i r, base_rows group !! i = Some r →
     P (base_card (get_attributes_for_set (base_set group))
          (match uniform_sequence (present_sequences (base_rows group)) with
           | Some _ => true | None => false end)
          (uuid4 (n + i)) r)) →
  ∀ c, In c (CardSet.cards (process_group uuid4 group n).1.1) → P c.
Proof.
  intros Hattach Hplace Hbase c. rewrite process_group_eq. simpl.
  intros Hc. apply (sublist_In _ _ _ (keep_unseen_sublist _ _)) in Hc.
  revert c Hc. apply List.Forall_forall. unfold parallels_result.
  apply parallels_loop_Forall; [done..|]. simpl.
  apply List.Forall_forall. intros c (i & r & Hi & ->)%cards_from_lookup.
  by apply Hbase.
Qed.

(** The same, the synthesized cards being those of the parallel rows of
    the group. *)
Lemma set_cards_Forall_rows (P : Card.t → Prop) group n :
  (∀ name r c, P c → P (Card.attach (card_level_parallel name r) c)) →
  (∀ uid name r, In (r, name) (parallel_rows group) →
     P (placeholder (get_attributes_for_set (base_set group)) uid name r)) →
  (∀ i r, base_rows group !! i = Some r →
     P (base_card (get_attributes_for_set (base_set group))
          (match uniform_sequence (present_sequences (base_rows group)) with
           | Some _ => true | None => false end)
          (uuid4 (n + i)) r)) →
  ∀ c, In c (CardSet.cards (process_group uuid4 group n).1.1) → P c.
Proof.
  intros Hattach Hplace Hbase c. rewrite process_group_eq. simpl.
  intros Hc. apply (sublist_In _ _ _ (keep_unseen_sublist _ _)) in Hc.
  revert c Hc. apply List.Forall_forall. unfold parallels_result.
  apply (parallels_loop_Forall_of uuid4 _ P
           (λ name r, In (r, name) (parallel_rows group))); [done|done| |].
  - intros name rows r. apply parallels_by_name_rows.
  - simpl. apply List.Forall_forall.
    intros c (i & r & Hi & ->)%cards_from_lookup. by apply Hbase.
Qed.

(** No card with a note has the card number of a base row. *)
Lemma set_cards_unmatched group n c r0 :
  In c (CardSet.cards (process_group uuid4 group n).1.1) → Card.note c ≠ None →
  In r0 (base_rows group) →
  normalize_card_number (CARD_NUMBER r0) ≠ Card.number c.
Proof.
  rewrite process_group_eq. simpl.
  intros Hc%(sublist_In _ _ _ (keep_unseen_sublist _ _)) Hnote Hr0 Heq.
  unfold parallels_result in Hc.
  set (attrs := get_attributes_for_set (base_set group)) in *.
  set (u := match uniform_sequence _ with Some _ => true | None => false end) in *.
  pose proof (parallels_loop_cards_inv uuid4 attrs
    (λ cards,
       (∀ num, In num (map (λ r, normalize_card_number (CARD_NUMBER r))
                           (base_rows group)) →
          ∃ c, In c cards ∧ Card.number c = num)
       ∧ Forall (λ c, Card.note c ≠ None →
                   ¬ In (Card.number c)
                        (map (λ r, normalize_card_number (CARD_NUMBER r))
                             (base_rows group))) cards)
    (parallels_by_name (parallel_rows group))
    (cards_from uuid4 (base_card attrs u) n (base_rows group),
     row_numbers (base_rows group), [], n + length (base_rows group))) as Hinv.
  destruct Hinv as [_ Hall].
  - intros name st r. apply card_level_step_unmatched.
  - simpl. split.
    + intros num (r & <- & Hr)%in_map_iff.
      apply list_elem_of_In, list_elem_of_lookup_1 in Hr as [i Hi].
      exists (base_card attrs u (uuid4 (n + i)) r). split; [|done].
      apply cards_from_lookup. by exists i, r.
    + apply List.Forall_forall. by intros c0 (i & r & Hi & ->)%cards_from_lookup.
  - apply (proj1 (List.Forall_forall _ _) Hall c Hc Hnote).
    rewrite <- Heq.
    apply (in_map (λ r, normalize_card_number (CARD_NUMBER r))). exact Hr0.
Qed.

End BuildFacts.



Lemma key_erase c : Card.key (erase c) = Card.key c.
Proof. done. Qed.

Lemma erase_eq_key c1 c2 : erase c1 = erase c2 → Card.key c1 = Card.key c2.
Proof. intros H. by rewrite <- (key_erase c1), H. Qed.

Section Survival.

Variable uuid4 : nat → string.

Lemma erase_base_card attrs u uid r :
  erase (base_card attrs u uid r) = base_card attrs u uid r.
Proof. done. Qed.

Lemma key_base_card attrs u uid r : Card.key (base_card attrs u uid r) = base_key r.
Proof. done. Qed.

(** The card of a base row whose key no earlier base row has is in the set,
    up to the parallels attached to it. *)
Lemma base_card_survives group n i r :
  base_rows group !! i = Some r →
  (∀ j r', j < i → base_rows group !! j = Some r' → base_key r' ≠ base_key r) →
  ∃ c, In c (CardSet.cards (process_group uuid4 group n).1.1)
       ∧ erase c
         = base_card (get_attributes_for_set (base_set group))
             (match uniform_sequence (present_sequences (base_rows group)) with
              | Some _ => true | None => false end)
             (uuid4 (n + i)) r.
Proof.
  intros Hi Hfirst. rewrite process_group_eq. simpl.
  unfold parallels_result.
  set (attrs := get_attributes_for_set (base_set group)).
  set (u := match uniform_sequence _ with Some _ => true | None => false end).
  set (st0 := (cards_from uuid4 (base_card attrs u) n (base_rows group),
               row_numbers (base_rows group), @nil Parallel.t,
               n + length (base_rows group))).
  destruct (parallels_loop_grows uuid4 attrs
              (parallels_by_name (parallel_rows group)) st0) as (extra & Hg & _).
  set (cards' := (parallels_loop uuid4 attrs _ st0).1.1.1) in *.
  simpl in Hg. rewrite (cards_from_split uuid4 _ _ _ _ _ Hi) in Hg.
  rewrite <- app_assoc, map_app in Hg. simpl in Hg.
  apply map_eq_app in Hg as (A' & rest & Hc' & HA' & Hrest).
  apply map_eq_cons in Hrest as (c' & B' & -> & Hce & _).
  exists c'. split; [|by rewrite Hce].
  rewrite Hc'. apply keep_unseen_keeps; [apply not_elem_of_empty|].
  intros c1 H1. apply (in_map erase) in H1. rewrite HA' in H1.
  apply in_map_iff in H1 as (a & Ha & Hin).
  apply cards_from_lookup in Hin as (j & r' & Hj & ->).
  rewrite (erase_eq_key _ _ Hce), <- (erase_eq_key _ _ Ha), !key_base_card.
  apply lookup_take_Some in Hj as [Hj Hlt]. by apply (Hfirst j).
Qed.

End Survival.

(** C1, as amended.  For a merged group of a frame: if every base row has a
    sequence value and all are [V], the set has [numberedTo = V] and no card
    built from a base row (a card without note) has a [numberedTo] of its
    own.  If no base row has a sequence value, or two base rows have
    different ones, the set has no [numberedTo], every card of the set built
    from a base row has the [numberedTo] its own row gives, and the card of
    every base row whose key no earlier base row has is in the set with
    it.  In either case a card with a note is a card synthesized for a
    parallel row of the group whose card number no base row has: it has the
    number and the name of that row, the note "No Base Set Version", and the
    sequence value of that row as its [numberedTo]. *)
Theorem uniform_sequence_collapse (uuid4 : nat → string) (df : list Row)
    (group : Group) (n : nat) :
  In group (merge_groups (group_rows df)) →
  let set_obj := (process_group uuid4 group n).1.1 in
  (∀ V, (∀ r, In r (base_rows group) → parse_sequence (SEQUENCE r) = Some V) →
     CardSet.numberedTo set_obj = Some (Some V)
     ∧ ∀ c, In c (CardSet.cards set_obj) → Card.note c = None →
            Card.numberedTo c = None)
  ∧ ((∀ r, In r (base_rows group) → parse_sequence (SEQUENCE r) = None)
     ∨ (∃ r1 r2 V1 V2, In r1 (base_rows group) ∧ In r2 (base_rows group)
          ∧ parse_sequence (SEQUENCE r1) = Some V1
          ∧ parse_sequence (SEQUENCE r2) = Some V2 ∧ V1 ≠ V2) →
     CardSet.numberedTo set_obj = None
     ∧ (∀ c, In c (CardSet.cards set_obj) → Card.note c = None →
          ∃ i r, base_rows group !! i = Some r
                 ∧ Card.uniqueId c = uuid4 (n + i)
                 ∧ Card.number c = normalize_card_number (CARD_NUMBER r)
                 ∧ Card.name c = normalize_text (ATHLETE r)
                 ∧ Card.numberedTo c = own_numberedTo r)
     ∧ (∀ i r, base_rows group !! i = Some r →
          (∀ j r', j < i → base_rows group !! j = Some r' →
                   base_key r' ≠ base_key r) →
          ∃ c, In c (CardSet.cards set_obj) ∧ Card.note c = None
               ∧ Card.uniqueId c = uuid4 (n + i)
               ∧ Card.number c = normalize_card_number (CARD_NUMBER r)
               ∧ Card.name c = normalize_text (ATHLETE r)
               ∧ Card.numberedTo c = own_numberedTo r))
  ∧ (∀ c, In c (CardSet.cards set_obj) → Card.note c ≠ None →
       (∀ r0, In r0 (base_rows group) →
              normalize_card_number (CARD_NUMBER r0) ≠ Card.number c)
       ∧ ∃ r name, In (r, name) (parallel_rows group)
                   ∧ Card.note c = Some "No Base Set Version"
                   ∧ Card.number c = normalize_card_number (CARD_NUMBER r)
                   ∧ Card.name c = normalize_text (ATHLETE r)
                   ∧ Card.numberedTo c = own_numberedTo r).
Proof.
  intros Hgroup set_obj.
  pose proof (merged_group_has_base_row df group Hgroup) as Hne.
  split; [|split]; cycle 2.
  - intros c Hc Hnote. split.
    { intros r0 Hr0. by apply (set_cards_unmatched uuid4 group n). }
    revert c Hc Hnote.
    apply (set_cards_Forall_rows uuid4
             (λ c, Card.note c ≠ None →
                ∃ r name, In (r, name) (parallel_rows group)
                          ∧ Card.note c = Some "No Base Set Version"
                          ∧ Card.number c = normalize_card_number (CARD_NUMBER r)
                          ∧ Card.name c = normalize_text (ATHLETE r)
                          ∧ Card.numberedTo c = own_numberedTo r)).
    + intros name r c H. exact H.
    + intros uid name r Hin _. exists r, name. repeat split; [done|].
      unfold own_numberedTo. simpl. by destruct (parse_sequence (SEQUENCE r)).
    + by intros i r Hi H.
  - intros V Hall.
    assert (Hu : uniform_sequence (present_sequences (base_rows group))
                 = Some (Some V)).
    { apply uniform_sequence_Some. split; [|done]. by apply present_sequences_all. }
    split.
    + unfold set_obj. rewrite process_group_eq. simpl. exact Hu.
    + apply (set_cards_Forall uuid4
               (λ c, Card.note c = None → Card.numberedTo c = None)).
      * done.
      * done.
      * intros i r Hi _. by rewrite Hu.
  - intros Hcase.
    assert (Hu : uniform_sequence (present_sequences (base_rows group)) = None).
    { destruct Hcase as [Hnone|(r1 & r2 & V1 & V2 & H1 & H2 & E1 & E2 & Hneq)].
      - rewrite present_sequences_none by done. apply uniform_sequence_empty.
      - apply (uniform_sequence_two _ (Some V1) (Some V2)).
        + apply elem_of_present_sequences. split; [done|]. by exists r1.
        + apply elem_of_present_sequences. split; [done|]. by exists r2.
        + congruence. }
    split; [|split].
    + unfold set_obj. rewrite process_group_eq. simpl. exact Hu.
    + apply (set_cards_Forall uuid4
               (λ c, Card.note c = None →
                  ∃ i r, base_rows group !! i = Some r
                         ∧ Card.uniqueId c = uuid4 (n + i)
                         ∧ Card.number c = normalize_card_number (CARD_NUMBER r)
                         ∧ Card.name c = normalize_text (ATHLETE r)
                         ∧ Card.numberedTo c = own_numberedTo r)).
      * intros name r c H. exact H.
      * done.
      * intros i r Hi _. exists i, r. by rewrite Hu.
    + intros i r Hi Hfirst.
      destruct (base_card_survives uuid4 group n i r Hi Hfirst) as (c & Hin & Hc).
      rewrite Hu in Hc. exists c. split; [done|].
      apply (f_equal Card.note) in Hc as Hnote.
      apply (f_equal Card.uniqueId) in Hc as Huid.
      apply (f_equal Card.number) in Hc as Hnum.
      apply (f_equal Card.name) in Hc as Hname.
      apply (f_equal Card.numberedTo) in Hc as Hnt.
      done.
Qed.

Lemma uniform_sequence_collapse_witness :
  In uniform_group (merge_groups (group_rows uniform_with_placeholder))
  ∧ CardSet.numberedTo (process_group sample_uuid4 uniform_group 0).1.1
    = Some (Some 10%Z)
  ∧ ∃ c r name,
      CardSet.cards (process_group sample_uuid4 uniform_group 0).1.1 !! 1
      = Some c
      ∧ In (r, name) (parallel_rows uniform_group)
      ∧ Card.number c = normalize_card_number (CARD_NUMBER r)
      ∧ Card.numberedTo c = own_numberedTo r.
Proof.
  assert (H : In uniform_group (merge_groups (group_rows uniform_with_placeholder)))
    by (left; reflexivity).
  split; [exact H|]. split.
  - apply (proj1 (uniform_sequence_collapse sample_uuid4 uniform_with_placeholder
                    uniform_group 0 H) 10%Z).
    intros r [<-|[]]. reflexivity.
  - eexists.
    match goal with
    | |- ∃ r name, ?A ∧ _ => assert (H0 : A) by (vm_compute; reflexivity)
    end.
    destruct (proj2 (proj2 (uniform_sequence_collapse sample_uuid4
                              uniform_with_placeholder uniform_group 0 H))
                _ (proj1 (list_elem_of_In _ _) (list_elem_of_lookup_2 _ _ _ H0)))
      as (_ & r & name & Hin & _ & Hnum & _ & Hnt); [done|].
    by exists r, name.
Defined.

Lemma uniform_collapse_counterexample :
  merge_groups (group_rows uniform_with_placeholder) = [uniform_group]
  ∧ map (λ r, parse_sequence (SEQUENCE r)) (base_rows uniform_group) = [Some 10%Z]
  ∧ map CardSet.numberedTo (sets_of sample_uuid4 uniform_with_placeholder)
    = [Some (Some 10%Z)]
  ∧ map (λ s, map (λ c, (Card.number c, Card.note c, Card.numberedTo c))
                  (CardSet.cards s))
        (sets_of sample_uuid4 uniform_with_placeholder)
    = [[("1", None, None);
        ("2", Some "No Base Set Version", Some (Some 5%Z))]].
Proof. repeat split; vm_compute; reflexivity. Qed.

(** C2, at the failing input.  Two base cards, numbers 1 and 2, and the
    parallel [Gold] with a row for each, one numbered to 10 and one without
    sequence: [Gold] covers the base card numbers and is recorded once at the
    set level, with [numberedTo = 10], although its rows do not share one
    sequence value. *)
Theorem mixed_parallel_sequence (uuid4 : nat → string) :
  map (λ g, (map (λ r, normalize_card_number (CARD_NUMBER r)) (base_rows g),
             map (λ p, (normalize_card_number (CARD_NUMBER p.1),
                        parse_sequence (SEQUENCE p.1), p.2))
                 (parallel_rows g)))
      (merge_groups (group_rows mixed_parallel))
  = [(["1"; "2"], [("1", Some 10%Z, "Gold"); ("2", None, "Gold")])]
  ∧ map CardSet.parallels (sets_of uuid4 mixed_parallel)
    = [[ {| Parallel.name := "Gold"; Parallel.numberedTo := Some (Some 10%Z) |} ]].
Proof. split; vm_compute; reflexivity. Qed.


(** ** Parallel names *)

Lemma setdefault_append_keys d k r :
  map fst (setdefault_append d k r)
  = if bool_decide (k ∈ map fst d) then map fst d else map fst d ++ [k].
Proof.
  induction d as [|[k' rows] d IH].
  - cbn [setdefault_append map fst].
    by rewrite bool_decide_eq_false_2 by apply not_elem_of_nil.
  - cbn [setdefault_append map fst].
    destruct (String.eqb_spec k' k) as [->|Hne]; cbn [map fst].
    + by rewrite bool_decide_eq_true_2 by apply list_elem_of_here.
    + rewrite IH. destruct (decide (k ∈ map fst d)) as [Hk|Hk].
      * rewrite (bool_decide_eq_true_2 _ Hk).
        by rewrite bool_decide_eq_true_2 by by apply list_elem_of_further.
      * rewrite (bool_decide_eq_false_2 _ Hk).
        rewrite bool_decide_eq_false_2; [done|].
        intros [->|H]%elem_of_cons; done.
Qed.

Lemma parallels_by_name_keys_from prs d :
  map fst (fold_left (λ d '(r, parallel_name), setdefault_append d parallel_name r)
                     prs d)
  = map fst d ++ filter (λ y, y ∉ map fst d) (first_occurrences (map snd prs)).
Proof.
  revert d. induction prs as [|[r k] prs IH]; intros d; cbn [fold_left map snd first_occurrences].
  - by rewrite filter_nil, app_nil_r.
  - rewrite IH, setdefault_append_keys. destruct (decide (k ∈ map fst d)) as [Hk|Hk].
    + rewrite (bool_decide_eq_true_2 _ Hk).
      rewrite filter_cons_False by (intros H; by apply H).
      f_equal. rewrite list_filter_filter. apply list_filter_iff.
      intros y. split; [|by intros [? ?]]. intros Hy. split; [done|].
      by intros ->.
    + rewrite (bool_decide_eq_false_2 _ Hk).
      rewrite filter_cons_True by done. rewrite <- app_assoc. simpl.
      do 2 f_equal. rewrite list_filter_filter. apply list_filter_iff.
      intros y. rewrite elem_of_app, list_elem_of_singleton. tauto.
Qed.

Lemma filter_all {A} (P : A → Prop) `{∀ x, Decision (P x)} (l : list A) :
  (∀ x, P x) → filter P l = l.
Proof.
  intros HP. induction l as [|x l IH]; [done|].
  by rewrite filter_cons_True, IH.
Qed.

Lemma parallels_by_name_keys prs :
  map fst (parallels_by_name prs) = first_occurrences (map snd prs).
Proof.
  unfold parallels_by_name. rewrite parallels_by_name_keys_from. simpl.
  apply filter_all. intros y. apply not_elem_of_nil.
Qed.

Lemma scan_rows_from rows nums seqs :
  fold_left scan_step rows (nums, seqs)
  = (row_numbers rows ∪ nums, present_sequences rows ∪ seqs).
Proof.
  revert nums seqs. induction rows as [|r rows IH]; intros nums seqs.
  - simpl. f_equal; set_solver.
  - cbn [fold_left]. unfold scan_step at 2.
    rewrite IH, row_numbers_cons, present_sequences_cons.
    destruct (parse_sequence (SEQUENCE r)) as [v|]; f_equal; set_solver.
Qed.

Lemma scan_rows_eq rows : scan_rows rows = (row_numbers rows, present_sequences rows).
Proof. unfold scan_rows. rewrite scan_rows_from. f_equal; set_solver. Qed.


(** C10.  (1) A parallel row whose canonical card number no card has makes a
    placeholder card, appended to the cards, and its number is added to the
    set of base card numbers.  (2) Parallel names are processed in the order
    of their first appearance in [parallel_rows].  (3) When a name is
    reached, after the names [earlier], the set of card numbers is the
    initial one enlarged by the numbers of the placeholders made so far, and
    the name is a set-level parallel exactly when its rows' card numbers are
    that enlarged set.  (4) The classification depends on the order: with the
    same base row and the same parallel rows, [Silver] is set-level when
    [Gold] comes first, and [Gold] is when [Silver] comes first. *)
Theorem placeholder_enlarges_card_numbers (uuid4 : nat → string)
    (set_attributes : list string) :
  (∀ name cards nums slp n r,
     (∀ c, In c cards → Card.number c ≠ normalize_card_number (CARD_NUMBER r)) →
     card_level_step uuid4 set_attributes name (cards, nums, slp, n) r
     = (cards ++ [placeholder set_attributes (uuid4 n) name r],
        {[normalize_card_number (CARD_NUMBER r)]} ∪ nums, slp, S n))
  ∧ (∀ prs, map fst (parallels_by_name prs) = first_occurrences (map snd prs))
  ∧ (∀ earlier name rows st0,
       let st1 := parallels_loop uuid4 set_attributes earlier st0 in
       let st2 := parallels_loop uuid4 set_attributes (earlier ++ [(name, rows)]) st0 in
       (∃ extra,
          map erase st1.1.1.1 = map erase (st0.1.1.1 ++ extra)
          ∧ Forall noted extra
          ∧ st1.1.1.2 = list_to_set (map Card.number extra) ∪ st0.1.1.2)
       ∧ (row_numbers rows = st1.1.1.2 →
          st2 = (st1.1.1.1, st1.1.1.2,
                 st1.1.2 ++ [set_level_parallel name (present_sequences rows)],
                 st1.2))
       ∧ (row_numbers rows ≠ st1.1.1.2 →
          st2 = fold_left (card_level_step uuid4 set_attributes name) rows st1
          ∧ st2.1.2 = st1.1.2))
  ∧ (set_level_names uuid4
       [row "Topps" "1" "A" EmptyString;
        row "Topps Gold" "1" "A" EmptyString; row "Topps Gold" "2" "B" EmptyString;
        row "Topps Silver" "1" "A" EmptyString; row "Topps Silver" "2" "B" EmptyString]
     = [["Silver"]]
     ∧ set_level_names uuid4
         [row "Topps" "1" "A" EmptyString;
          row "Topps Silver" "1" "A" EmptyString; row "Topps Silver" "2" "B" EmptyString;
          row "Topps Gold" "1" "A" EmptyString; row "Topps Gold" "2" "B" EmptyString]
       = [["Gold"]]).
Proof.
  split; [|split; [|split]].
  - intros name cards nums slp n r Hnone. unfold card_level_step.
    by rewrite (proj2 (attach_parallel_None _ _ _) Hnone).
  - apply parallels_by_name_keys.
  - intros earlier name rows st0 st1 st2.
    assert (Hst2 : st2 = parallel_name_step uuid4 set_attributes st1 (name, rows)).
    { unfold st2, st1, parallels_loop. by rewrite fold_left_app. }
    split; [|split].
    + destruct (parallels_loop_grows uuid4 set_attributes earlier st0)
        as (extra & H1 & H2 & _ & H4).
      by exists extra.
    + intros Heq. rewrite Hst2. destruct st1 as [[[cards nums] slp] n].
      unfold parallel_name_step. rewrite scan_rows_eq. simpl in *.
      by rewrite bool_decide_eq_true_2.
    + intros Hne. rewrite Hst2. destruct st1 as [[[cards nums] slp] n].
      unfold parallel_name_step. rewrite scan_rows_eq. simpl in *.
      rewrite bool_decide_eq_false_2 by done. split; [done|].
      by rewrite card_level_rows_set_level.
  - split; vm_compute; reflexivity.
Qed.

Lemma placeholder_enlarges_card_numbers_witness :
  card_level_step (λ _, "id") [] "Gold"
    ([base_card [] false "id" (row "Topps" "1" "A" EmptyString)], {["1"]}, [], 1)
    (row "Topps Gold" "2" "B" "5")
  = ([base_card [] false "id" (row "Topps" "1" "A" EmptyString)]
       ++ [placeholder [] "id" "Gold" (row "Topps Gold" "2" "B" "5")],
     {["2"]} ∪ {["1"]}, [], 2).
Proof.
  apply (proj1 (placeholder_enlarges_card_numbers (λ _, "id") [])).
  intros c [<-|[]]. discriminate.
Defined.


(** ** The parallel rule, row by row and name by name *)

Lemma attach_parallel_hit pre c post num p :
  Card.number c = num → (∀ c0, In c0 pre → Card.number c0 ≠ num) →
  attach_parallel (pre ++ c :: post) num p = Some (pre ++ Card.attach p c :: post).
Proof.
  intros Hc Hpre. induction pre as [|c0 pre IH]; simpl.
  - by rewrite (proj2 (String.eqb_eq _ _) Hc).
  - rewrite (proj2 (String.eqb_neq _ _) (Hpre c0 (or_introl eq_refl))).
    rewrite IH; [done|]. intros c1 H1. apply Hpre. by right.
Qed.

(** The card-level part of the parallel rule: what one row of a parallel
    that does not cover the card numbers does.  The first card with the
    row's canonical number gets the row's parallel appended, nothing else
    changes; when no card has the number, a card is synthesized with the
    identifier of the next call of [uuid4], the note "No Base Set Version",
    the sequence value of the row as its [numberedTo], the parallel as its
    only one, and the attributes of the set, and its number joins the card
    numbers. *)
Theorem card_level_row_cases (uuid4 : nat → string) (set_attributes : list string)
    (name : string) (cards : list Card.t) (nums : gset string)
    (slp : list Parallel.t) (n : nat) (r : Row) :
  let num := normalize_card_number (CARD_NUMBER r) in
  let parallel_obj := card_level_parallel name r in
  let st' := card_level_step uuid4 set_attributes name (cards, nums, slp, n) r in
  (∀ pre c post,
     cards = pre ++ c :: post → Card.number c = num →
     (∀ c0, In c0 pre → Card.number c0 ≠ num) →
     st' = (pre ++ Card.attach parallel_obj c :: post, nums, slp, n)
     ∧ Card.parallels (Card.attach parallel_obj c)
       = Some (default [] (Card.parallels c) ++ [parallel_obj]))
  ∧ ((∀ c, In c cards → Card.number c ≠ num) →
     ∃ new_card,
       st' = (cards ++ [new_card], {[num]} ∪ nums, slp, S n)
       ∧ Card.uniqueId new_card = uuid4 n
       ∧ Card.number new_card = num
       ∧ Card.name new_card = normalize_text (ATHLETE r)
       ∧ Card.note new_card = Some "No Base Set Version"
       ∧ Card.numberedTo new_card = own_numberedTo r
       ∧ Card._sequence new_card = None
       ∧ Card.parallels new_card = Some [parallel_obj]
       ∧ Card.attributes new_card = attributes_key set_attributes)
  ∧ Parallel.name parallel_obj = name
  ∧ Parallel.numberedTo parallel_obj = own_numberedTo r.
Proof.
  intros num parallel_obj st'. split; [|split; [|split]].
  - intros pre c post -> Hc Hpre. split; [|done].
    unfold st', card_level_step. fold num parallel_obj.
    by rewrite attach_parallel_hit.
  - intros Hnone. exists (placeholder set_attributes (uuid4 n) name r).
    unfold st', card_level_step. fold num parallel_obj.
    rewrite (proj2 (attach_parallel_None _ _ _) Hnone).
    repeat split. unfold own_numberedTo. simpl.
    by destruct (parse_sequence (SEQUENCE r)).
  - done.
  - unfold parallel_obj, card_level_parallel, own_numberedTo. simpl.
    by destruct (parse_sequence (SEQUENCE r)).
Qed.

(** The set-level part of the parallel rule: a parallel name whose rows
    cover exactly the card numbers is recorded once at the set level, and no
    card changes.  Its [numberedTo] is [V] when all its rows have the sequence
    value [V], and absent when none has one or two have different ones. *)
Theorem covering_parallel_is_set_level (uuid4 : nat → string)
    (set_attributes : list string) (st : ParState) (name : string)
    (rows : list Row) :
  row_numbers rows = st.1.1.2 →
  rows ≠ [] →
  ∃ p,
    parallel_name_step uuid4 set_attributes st (name, rows)
    = (st.1.1.1, st.1.1.2, st.1.2 ++ [p], st.2)
    ∧ Parallel.name p = name
    ∧ (∀ V, (∀ r, In r rows → parse_sequence (SEQUENCE r) = Some V) →
            Parallel.numberedTo p = Some (Some V))
    ∧ ((∀ r, In r rows → parse_sequence (SEQUENCE r) = None)
       ∨ (∃ r1 r2 V1 V2, In r1 rows ∧ In r2 rows
            ∧ parse_sequence (SEQUENCE r1) = Some V1
            ∧ parse_sequence (SEQUENCE r2) = Some V2 ∧ V1 ≠ V2) →
       Parallel.numberedTo p = None).
Proof.
  intros Hcover Hne. destruct st as [[[cards nums] slp] n]. simpl in *.
  exists (set_level_parallel name (present_sequences rows)).
  split; [|split; [done|split]].
  - unfold parallel_name_step. rewrite scan_rows_eq.
    by rewrite bool_decide_eq_true_2.
  - intros V Hall. unfold set_level_parallel. simpl.
    apply uniform_sequence_Some. split; [|done]. by apply present_sequences_all.
  - intros [Hnone|(r1 & r2 & V1 & V2 & H1 & H2 & E1 & E2 & Hneq)];
      unfold set_level_parallel; simpl.
    + rewrite present_sequences_none by done. apply uniform_sequence_empty.
    + apply (uniform_sequence_two _ (Some V1) (Some V2)).
      * apply elem_of_present_sequences. split; [done|]. by exists r1.
      * apply elem_of_present_sequences. split; [done|]. by exists r2.
      * congruence.
Qed.

Lemma covering_parallel_is_set_level_witness :
  row_numbers [row "Topps Gold" "1" "A" "10"]
  = ([base_card [] false "id" (row "Topps" "01" "A" blank_cell)],
     ({["1"]} : gset string), @nil Parallel.t, 1).1.1.2
  ∧ ∃ p,
      parallel_name_step sample_uuid4 []
        ([base_card [] false "id" (row "Topps" "01" "A" blank_cell)],
         {["1"]}, [], 1)
        ("Gold", [row "Topps Gold" "1" "A" "10"])
      = ([base_card [] false "id" (row "Topps" "01" "A" blank_cell)],
         {["1"]}, [] ++ [p], 1)
      ∧ Parallel.name p = "Gold".
Proof.
  assert (H : row_numbers [row "Topps Gold" "1" "A" "10"] = ({["1"]} : gset string))
    by (vm_compute; reflexivity).
  split; [exact H|].
  destruct (covering_parallel_is_set_level sample_uuid4 []
              ([base_card [] false "id" (row "Topps" "01" "A" blank_cell)],
               {["1"]}, [], 1)
              "Gold" [row "Topps Gold" "1" "A" "10"] H ltac:(discriminate))
    as (p & H1 & H2 & _).
  exists p. by split.
Defined.

Lemma first_occurrences_NoDup l : NoDup (first_occurrences l).
Proof.
  induction l as [|x l IH]; simpl; [constructor|].
  apply NoDup_cons. split; [|by apply NoDup_filter].
  intros [H _]%list_elem_of_filter. by apply H.
Qed.

Lemma parallels_loop_names uuid4 attrs items st :
  ∃ L, map Parallel.name (parallels_loop uuid4 attrs items st).1.2
       = map Parallel.name st.1.2 ++ L
       ∧ L `sublist_of` map fst items.
Proof.
  unfold parallels_loop. revert st.
  induction items as [|[name rows] items IH]; intros st; simpl.
  - exists []. by rewrite app_nil_r.
  - destruct (IH (parallel_name_step uuid4 attrs st (name, rows))) as (L & HL & Hsub).
    destruct st as [[[cards nums] slp] n]. unfold parallel_name_step in *.
    destruct (scan_rows rows) as [pcn pseq]. case_bool_decide.
    + exists (name :: L). split.
      * rewrite HL. simpl. rewrite map_app. simpl. by rewrite <- app_assoc.
      * by constructor.
    + exists L. split.
      * rewrite HL. by rewrite card_level_rows_set_level.
      * by constructor.
Qed.

(** No parallel name is recorded twice at the set level, and the set-level
    parallels stand in the order in which their names first appear. *)
Theorem set_level_names_distinct (uuid4 : nat → string) (group : Group) (n : nat) :
  let names :=
    map Parallel.name (CardSet.parallels (process_group uuid4 group n).1.1) in
  List.NoDup names
  ∧ names `sublist_of` first_occurrences (map snd (parallel_rows group)).
Proof.
  intros names.
  assert (Hsub : names `sublist_of` first_occurrences (map snd (parallel_rows group))).
  { unfold names. rewrite process_group_eq. simpl. unfold parallels_result.
    destruct (parallels_loop_names uuid4 (get_attributes_for_set (base_set group))
                (parallels_by_name (parallel_rows group))
                (cards_from uuid4
                   (base_card (get_attributes_for_set (base_set group))
                      match uniform_sequence (present_sequences (base_rows group)) with
                      | Some _ => true | None => false end) n (base_rows group),
                 row_numbers (base_rows group), [],
                 n + length (base_rows group))) as (L & HL & HsubL).
    rewrite HL. simpl. by rewrite <- parallels_by_name_keys. }
  split; [|done]. apply NoDup_ListNoDup.
  apply (sublist_NoDup names (first_occurrences (map snd (parallel_rows group)))); [apply first_occurrences_NoDup|exact Hsub].
Qed.

(** ** The serialized document *)

Lemma card_level_parallel_ok name r : parallel_ok (card_level_parallel name r).
Proof.
  unfold parallel_ok, card_level_parallel. simpl.
  by destruct (parse_sequence (SEQUENCE r)).
Qed.

Lemma attributes_key_not_empty attrs : attributes_key attrs ≠ Some [].
Proof. by destruct attrs. Qed.

Lemma attach_ok p c : parallel_ok p → card_ok c → card_ok (Card.attach p c).
Proof.
  intros Hp (H1 & H2 & H3 & H4 & H5). unfold card_ok, Card.attach. simpl.
  repeat split; try done.
  destruct (Card.parallels c) as [ps|]; simpl.
  - destruct ps as [|p0 ps]; [done|]. simpl.
    apply Forall_cons in H5 as [H5 H6]. constructor; [done|].
    apply Forall_app. split; [done|]. by constructor.
  - by constructor.
Qed.

Lemma placeholder_ok attrs uid name r : card_ok (placeholder attrs uid name r).
Proof.
  unfold card_ok, placeholder. simpl. repeat split; try done.
  - by destruct (parse_sequence (SEQUENCE r)).
  - by destruct attrs.
  - constructor; [apply card_level_parallel_ok|done].
Qed.

Lemma base_card_ok attrs u uid r : card_ok (base_card attrs u uid r).
Proof.
  unfold card_ok, base_card, own_numberedTo. simpl. repeat split; try done.
  - destruct u; [done|]. by destruct (parse_sequence (SEQUENCE r)).
  - apply attributes_key_not_empty.
Qed.

Lemma process_group_ok uuid4 group n : set_ok (process_group uuid4 group n).1.1.
Proof.
  split; [|split; [|split]].
  - apply List.Forall_forall. apply (set_cards_Forall uuid4 card_ok).
    + intros name r c. apply attach_ok, card_level_parallel_ok.
    + intros. apply placeholder_ok.
    + intros. apply base_card_ok.
  - rewrite process_group_eq. simpl. unfold parallels_result.
    apply parallels_loop_set_level; [|done].
    intros name seqs. apply uniform_sequence_not_null.
  - rewrite process_group_eq. simpl. apply uniform_sequence_not_null.
  - by rewrite process_group_eq.
Qed.

Lemma sets_step_ok uuid4 groups st :
  Forall set_ok st.1.1 →
  Forall set_ok (fold_left (sets_step uuid4) groups st).1.1.
Proof.
  revert st. induction groups as [|g groups IH]; intros st H; simpl; [done|].
  apply IH. destruct st as [[sets n] printed]. unfold sets_step.
  pose proof (process_group_ok uuid4 g n) as Hg.
  destruct (process_group uuid4 g n) as [[s n'] lines]. simpl in *.
  apply Forall_app. split; [done|]. by constructor.
Qed.

(** The lines printed are lines the standard output takes, and the
    exception of [print] is that of a line it does not take. *)
Lemma print_lines_cases can_print lines :
  match print_lines can_print lines with
  | (shown, None) => shown = lines ∧ Forall (λ l, can_print l = true) lines
  | (shown, Some e) =>
      Forall (λ l, can_print l = true) shown
      ∧ ∃ line, e = PrintError line ∧ In line lines ∧ can_print line = false
  end.
Proof.
  induction lines as [|line lines IH]; simpl; [done|].
  destruct (can_print line) eqn:E.
  - destruct (print_lines can_print lines) as [shown [e|]]; simpl.
    + destruct IH as (Hs & l & -> & Hl & Hc). split; [by constructor|].
      exists l. split; [done|]. split; [by right|done].
    + destruct IH as [-> Hall]. split; [done|]. by constructor.
  - split; [done|]. exists line. split; [done|]. split; [by left|done].
Qed.

(** The loop over the merged groups, when no call raises and every warning
    is printed, is the loop of its body; otherwise it ends with the
    exception of a call or of a warning. *)
Lemma sets_loop_returns uuid4 can_print groups st :
  match sets_loop uuid4 can_print groups st with
  | (st', None) =>
      st' = fold_left (sets_step uuid4) groups st
      ∧ Forall (λ g, group_errors g = []) groups
  | (_, Some e) =>
      ∃ g, In g groups
           ∧ (head (group_errors g) = Some e
              ∨ ∃ n line, e = PrintError line ∧ can_print line = false
                          ∧ In line (process_group uuid4 g n).2)
  end.
Proof.
  revert st. induction groups as [|g groups IH]; intros st; simpl; [done|].
  destruct (group_errors g) as [|e0 errs] eqn:E; simpl.
  - destruct st as [[sets n] printed].
    destruct (process_group uuid4 g n) as [[set_obj n'] lines] eqn:Eg.
    pose proof (print_lines_cases can_print lines) as Hp.
    destruct (print_lines can_print lines) as [shown [e|]].
    + destruct Hp as (_ & line & -> & Hl & Hc). exists g. split; [by left|].
      right. exists n, line. by rewrite Eg.
    + specialize (IH (sets_step uuid4 (sets, n, printed) g)).
      destruct (sets_loop uuid4 can_print groups _) as [st' [e|]].
      * destruct IH as (g' & Hg' & He). exists g'. split; [by right|done].
      * destruct IH as [-> Hall]. split; [done|]. by constructor.
  - exists g. split; [by left|]. left. by rewrite E.
Qed.

Lemma sets_loop_printed uuid4 can_print groups st :
  Forall (λ l, can_print l = true) st.2 →
  Forall (λ l, can_print l = true) (sets_loop uuid4 can_print groups st).1.2.
Proof.
  revert st. induction groups as [|g groups IH]; intros st H; simpl; [done|].
  destruct (head (group_errors g)); [done|].
  destruct st as [[sets n] printed].
  destruct (process_group uuid4 g n) as [[set_obj n'] lines] eqn:Eg.
  pose proof (print_lines_cases can_print lines) as Hp.
  destruct (print_lines can_print lines) as [shown [e|]].
  - destruct Hp as [Hs _]. simpl in *. apply Forall_app. by split.
  - destruct Hp as [-> Hall]. apply IH. unfold sets_step. rewrite Eg. simpl in *.
    apply Forall_app. by split.
Qed.

(** A document returned is the one the loops build, none of whose calls
    raises and all of whose lines are printed. *)
Lemma process_csv_document uuid4 read_csv can_print file_path printed doc :
  process_csv_with_pandas uuid4 read_csv can_print file_path = (printed, inr doc) →
  ∃ row0 rest sets n,
    read_csv file_path = inr (row0 :: rest)
    ∧ merge_error [] (group_rows (row0 :: rest)) = None
    ∧ Forall (λ g, group_errors g = []) (merge_groups (group_rows (row0 :: rest)))
    ∧ Forall (λ l, can_print l = true) printed
    ∧ fold_left (sets_step uuid4) (merge_groups (group_rows (row0 :: rest)))
                ([], 0, [])
      = (sets, n, printed)
    ∧ doc = {| Release.schema := "http://json-schema.org/draft-07/schema#";
               Release.name :=
                 normalize_text (YEAR row0) +:+ " " +:+ normalize_text (BRAND row0)
                 +:+ " " +:+ normalize_text (PROGRAM row0)
                 +:+ " " +:+ normalize_text (SPORT row0);
               Release.version := "1.0";
               Release.uniqueId := uuid4 n;
               Release.attributes := [];
               Release.notes := [];
               Release.sets := sets |}.
Proof.
  unfold process_csv_with_pandas.
  destruct (read_csv file_path) as [e|[|row0 df]]; [done..|].
  destruct (merge_error [] (group_rows (row0 :: df))) as [e|] eqn:Em; [done|].
  pose proof (sets_loop_returns uuid4 can_print
                (merge_groups (group_rows (row0 :: df))) ([], 0, [])) as Hloop.
  pose proof (sets_loop_printed uuid4 can_print
                (merge_groups (group_rows (row0 :: df))) ([], 0, [])
                ltac:(constructor)) as Hprinted.
  destruct (sets_loop _ _ _ _) as [[[sets n] lines] [e|]]; [done|].
  destruct Hloop as [Hst Hall]. intros [= <- <-].
  exists row0, df, sets, n. by rewrite <- Hst.
Qed.

Lemma process_csv_sets uuid4 read_csv can_print file_path printed doc :
  process_csv_with_pandas uuid4 read_csv can_print file_path = (printed, inr doc) →
  Forall set_ok (Release.sets doc)
  ∧ Release.attributes doc = [] ∧ Release.notes doc = [].
Proof.
  intros (row0 & df & sets & n & _ & _ & _ & _ & Hst & ->)%process_csv_document.
  pose proof (sets_step_ok uuid4 (merge_groups (group_rows (row0 :: df)))
                ([], 0, [])) as Hok.
  rewrite Hst in Hok. simpl in *. split; [|done]. apply Hok. constructor.
Qed.


Lemma strs_no_null l : existsb has_null (map JStr l) = false.
Proof. induction l as [|s l IH]; [done|]. simpl. exact IH. Qed.

Lemma strs_sparse keys l : forallb (sparse keys) (map JStr l) = true.
Proof. induction l as [|s l IH]; [done|]. simpl. exact IH. Qed.

Section JsonFacts.

Variable keys : list string.
Hypothesis keys_cases : keys = optional_keys ∨ keys = sequence_keys.

Lemma parallel_json_ok p :
  parallel_ok p →
  has_null (json_of_parallel p) = false ∧ sparse keys (json_of_parallel p) = true.
Proof.
  destruct p as [name [[v|]|]]; unfold parallel_ok; simpl; [| done |];
    intros _; (split; [done|]); by destruct keys_cases as [-> | ->].
Qed.

Lemma parallels_json_ok ps :
  Forall parallel_ok ps →
  existsb has_null (map json_of_parallel ps) = false
  ∧ forallb (sparse keys) (map json_of_parallel ps) = true.
Proof.
  induction 1 as [|p ps Hp Hps [IH1 IH2]]; [done|].
  destruct (parallel_json_ok p Hp) as [H1 H2].
  cbn [map existsb forallb]. by rewrite H1, H2, IH1, IH2.
Qed.

Lemma card_json_ok c :
  card_ok c →
  has_null (json_of_card c) = false ∧ sparse keys (json_of_card c) = true.
Proof.
  destruct c as [uid num name sq nt attrs ps note].
  unfold card_ok. simpl. intros (-> & Hnt & Hattrs & Hnote & Hps).
  assert (Hpj : ∀ l, ps = Some l →
            existsb has_null (map json_of_parallel l) = false
            ∧ forallb (sparse keys) (map json_of_parallel l) = true
            ∧ l ≠ []).
  { intros l ->. destruct l as [|p l]; [done|].
    destruct (parallels_json_ok _ Hps) as [H1 H2]. by repeat split. }
  unfold json_of_card. cbn [Card.note Card._sequence Card.attributes
    Card.numberedTo Card.parallels Card.uniqueId Card.number Card.name member].
  destruct note as [s|]; destruct attrs as [[|a attrs]|];
    destruct nt as [[v|]|]; destruct ps as [l|]; try done;
    try (destruct s as [|ch s]; [done|]);
    try (destruct (Hpj l eq_refl) as (Hp1 & Hp2 & Hp3);
         destruct l as [|p l]; [done|]; cbn [map] in Hp1, Hp2;
         cbn [existsb forallb] in Hp1, Hp2);
    cbn [member app has_null sparse existsb forallb fst snd map orb];
    rewrite ?strs_no_null, ?strs_sparse;
    try rewrite Hp1; try rewrite Hp2;
    destruct keys_cases as [-> | ->]; done.
Qed.

End JsonFacts.

Lemma cards_json_ok keys cards :
  keys = optional_keys ∨ keys = sequence_keys →
  Forall card_ok cards →
  existsb has_null (map json_of_card cards) = false
  ∧ forallb (sparse keys) (map json_of_card cards) = true.
Proof.
  intros Hk. induction 1 as [|c cards Hc Hcs [IH1 IH2]]; [done|].
  destruct (card_json_ok keys Hk c Hc) as [H1 H2].
  cbn [map existsb forallb]. by rewrite H1, H2, IH1, IH2.
Qed.

Lemma set_json_ok s :
  set_ok s →
  has_null (json_of_set s) = false ∧ sparse sequence_keys (json_of_set s) = true.
Proof.
  destruct s as [uid name cards ps vars nt].
  unfold set_ok. simpl. intros (Hcards & Hps & Hnt & ->).
  destruct (cards_json_ok sequence_keys cards (or_intror eq_refl) Hcards) as [C1 C2].
  destruct (parallels_json_ok sequence_keys (or_intror eq_refl) ps Hps) as [P1 P2].
  unfold json_of_set.
  cbn [CardSet.uniqueId CardSet.name CardSet.cards CardSet.parallels
       CardSet.variations CardSet.numberedTo].
  destruct nt as [[v|]|]; [|done|];
    cbn [member app has_null sparse existsb forallb fst snd orb];
    by rewrite C1, C2, P1, P2.
Qed.

Lemma sets_json_ok sets :
  Forall set_ok sets →
  existsb has_null (map json_of_set sets) = false
  ∧ forallb (sparse sequence_keys) (map json_of_set sets) = true.
Proof.
  induction 1 as [|s sets Hs Hss [IH1 IH2]]; [done|].
  destruct (set_json_ok s Hs) as [H1 H2].
  cbn [map existsb forallb]. by rewrite H1, H2, IH1, IH2.
Qed.

(** C5, as amended.  In the document serialized by a successful run, no
    value is [null]; no object has a blank [numberedTo] or [note]; every card
    object and every parallel object leaves out [numberedTo], [attributes],
    [note] and [parallels] rather than give them a blank value; but every set
    object has a [parallels] member, the list of its set-level parallels,
    empty or not, and the document has an [attributes] member, the empty
    list. *)
Theorem sparse_field_convention (uuid4 : nat → string)
    (read_csv : string → Exception + list Row) (can_print : string → bool)
    (file_path : string) (printed : list string) (doc : Release.t) :
  process_csv_with_pandas uuid4 read_csv can_print file_path
  = (printed, inr doc) →
  has_null (json_of_release doc) = false
  ∧ sparse sequence_keys (json_of_release doc) = true
  ∧ (∀ s, In s (Release.sets doc) →
       (∀ c, In c (CardSet.cards s) →
             sparse optional_keys (json_of_card c) = true)
       ∧ (∀ p, In p (CardSet.parallels s) →
               sparse optional_keys (json_of_parallel p) = true)
       ∧ get_member "parallels" (members_of (json_of_set s))
         = Some (JArr (map json_of_parallel (CardSet.parallels s))))
  ∧ get_member "attributes" (members_of (json_of_release doc))
    = Some (JArr []).
Proof.
  intros Hrun.
  destruct (process_csv_sets _ _ _ _ _ _ Hrun) as (Hsets & Hattrs & Hnotes).
  destruct (sets_json_ok _ Hsets) as [S1 S2].
  split; [|split; [|split]].
  - unfold json_of_release. rewrite Hattrs, Hnotes.
    cbn [has_null existsb snd orb]. by rewrite S1.
  - unfold json_of_release. rewrite Hattrs, Hnotes.
    cbn [sparse forallb fst snd]. by rewrite S2.
  - intros s Hs.
    destruct (proj1 (List.Forall_forall _ _) Hsets s Hs) as (Hcards & Hps & _).
    split; [|split].
    + intros c Hc.
      apply (card_json_ok optional_keys (or_introl eq_refl)).
      by apply (proj1 (List.Forall_forall _ _) Hcards).
    + intros p Hp.
      apply (parallel_json_ok optional_keys (or_introl eq_refl)).
      by apply (proj1 (List.Forall_forall _ _) Hps).
    + done.
  - unfold json_of_release. by rewrite Hattrs.
Qed.

Lemma sparse_fields_counterexample :
  ∃ doc,
    written (run_of [row "Topps" "1" "A" blank_cell]).1 = [doc]
    ∧ sparse optional_keys doc = false
    ∧ get_member "attributes" (members_of doc) = Some (JArr [])
    ∧ map (λ s, get_member "parallels" (members_of s))
          (match get_member "sets" (members_of doc) with
           | Some (JArr sets) => sets
           | _ => []
           end)
      = [Some (JArr [])].
Proof. eexists. repeat split; vm_compute; reflexivity. Qed.

Lemma sparse_field_convention_witness :
  ∃ printed doc,
    process_csv_with_pandas sample_uuid4 (csv_of uniform_with_placeholder)
      (λ _, true) "in.csv"
    = (printed, inr doc)
    ∧ has_null (json_of_release doc) = false
    ∧ sparse sequence_keys (json_of_release doc) = true.
Proof.
  eexists _, _.
  match goal with |- ?A ∧ _ => assert (H0 : A) by (vm_compute; reflexivity) end.
  split; [exact H0|]. split.
  - apply (proj1 (sparse_field_convention _ _ _ _ _ _ H0)).
  - apply (proj1 (proj2 (sparse_field_convention _ _ _ _ _ _ H0))).
Defined.


(** ** Deduplication and the run *)









(** ** The flattener *)


Module FlattenerFacts.
Import Flattener.
Import Flattener.

Lemma split_hyphen_app before after :
  hyphen_free before = true →
  split_hyphen (before +:+ "-" +:+ after) = Some (before, after).
Proof.
  induction before as [|c before IH]; [done|].
  rewrite app_String. simpl. destruct (Ascii.eqb c "-"); [done|]. simpl.
  intros H. by rewrite IH.
Qed.

Lemma split_hyphen_none s : hyphen_free s = true → split_hyphen s = None.
Proof.
  induction s as [|c s IH]; [done|]. simpl.
  destruct (Ascii.eqb c "-"); [done|]. simpl. intros H. by rewrite IH.
Qed.

Lemma gather_from {A} (f : A → list FlatRecord * list string) l acc :
  fold_left (λ acc x, (acc.1 ++ (f x).1, acc.2 ++ (f x).2)) l acc
  = (acc.1 ++ concat (map (λ x, (f x).1) l),
     acc.2 ++ concat (map (λ x, (f x).2) l)).
Proof.
  revert acc. induction l as [|x l IH]; intros [a b]; simpl.
  - by rewrite !app_nil_r.
  - rewrite IH. simpl. by rewrite <- !app_assoc.
Qed.

Lemma gather_In {A} (f : A → list FlatRecord * list string) l x r :
  In x l → In r (f x).1 → In r (gather f l).1.
Proof.
  intros Hx Hr. unfold gather. rewrite gather_from. simpl.
  apply in_concat. exists (f x).1. split; [|done].
  apply in_map_iff. by exists x.
Qed.

Lemma for_each_In {A B} (f : A → PyError + list B) l ys y :
  for_each f l = inr ys → In y ys →
  ∃ x zs, In x l ∧ f x = inr zs ∧ In y zs.
Proof.
  revert ys. induction l as [|x l IH]; intros ys; simpl.
  - by intros [= <-].
  - destruct (f x) as [e|zs] eqn:E; [done|].
    destruct (for_each f l) as [e|ws]; [done|].
    intros [= <-] [Hy|Hy]%in_app_or.
    + exists x, zs. split; [by left|done].
    + destruct (IH ws eq_refl Hy) as (x' & zs' & H1 & H2 & H3).
      exists x', zs'. split; [by right|done].
Qed.

Lemma flatten_card_data_records category year release data records r :
  flatten_card_data category year release data = inr records →
  In r records →
  ∃ doc sets set_members cards card_members,
    data = JObj doc
    ∧ py_iter (default (JArr []) (get_member "sets" doc)) = inr sets
    ∧ In (JObj set_members) sets
    ∧ py_iter (default (JArr []) (get_member "cards" set_members)) = inr cards
    ∧ In (JObj card_members) cards
    ∧ r = record_of category year release doc set_members card_members.
Proof.
  unfold flatten_card_data. destruct data as [| | | | | |doc]; try done. simpl.
  destruct (py_iter _) as [e|sets] eqn:Hsets; [done|].
  intros Hfor Hr.
  destruct (for_each_In _ _ _ _ Hfor Hr) as (s & rs & Hs & Hfs & Hrs).
  unfold flatten_set in Hfs. destruct s as [| | | | | |set_members]; try done.
  simpl in Hfs. destruct (py_iter _) as [e|cards] eqn:Hcards in Hfs; [done|].
  destruct (for_each_In _ _ _ _ Hfs Hrs) as (c & cs & Hc & Hfc & Hcs).
  unfold flatten_card in Hfc. destruct c as [| | | | | |card_members]; try done.
  simpl in Hfc. injection Hfc as <-. destruct Hcs as [<-|[]].
  by exists doc, sets, set_members, cards, card_members.
Qed.




Lemma substring_app s t : String.substring 0 (String.length s) (s +:+ t) = s.
Proof.
induction s as [|c s IH]; [by destruct t|].
rewrite app_String. simpl. by rewrite IH.
Qed.

Lemma ends_with_app s t : ends_with t (s +:+ t) = true.
Proof.
unfold ends_with. rewrite string_length_app.
replace (String.length s + String.length t - String.length t)
  with (String.length s) by lia.
rewrite slice_from_app, String.eqb_refl, andb_true_r.
apply Nat.leb_le. lia.
Qed.

Lemma stem_json s : s ≠ EmptyString → stem (s +:+ ".json") = s.
Proof.
intros Hs. unfold stem.
assert (String.eqb (s +:+ ".json") ".json" = false) as ->.
{ apply String.eqb_neq. intros H. apply (f_equal String.length) in H.
  rewrite string_length_app in H. destruct s; [done|]. simpl in H. lia. }
rewrite string_length_app. simpl.
replace (String.length s + 5 - 5) with (String.length s) by lia.
apply substring_app.
Qed.

(** C9, as amended.  For a file [<file_stem>.json] under [<category>/<year>/]
    whose document flattens to [records], each record is among the records
    collected, has the category of the first path segment, the year of the
    second, as release the file stem after its first hyphen (all of it if it
    has none), and carries the document name, set name, card number, card
    name, attributes and note of a card of a set of the document (defaults
    standing for absent members).  The release is the stem without its
    leading [<year>-] whenever the year has no hyphen. *)
Theorem flattener_record_metadata (categories : list (string * Entry))
  (category year file_stem : string) (years files : list (string * Entry))
  (data : json) (records : list FlatRecord) :
In (category, Dir years) categories →
In (year, Dir files) years →
In (file_stem +:+ ".json", File (Some data)) files →
file_stem ≠ EmptyString →
flatten_card_data category year (release_of_stem file_stem) data = inr records →
(∀ r, In r records →
   In r (collect categories).1
   ∧ Flattener.category r = category
   ∧ Flattener.year r = year
   ∧ Flattener.release r = release_of_stem file_stem
   ∧ ∃ doc sets set_members cards card_members,
       data = JObj doc
       ∧ py_iter (default (JArr []) (get_member "sets" doc)) = inr sets
       ∧ In (JObj set_members) sets
       ∧ py_iter (default (JArr []) (get_member "cards" set_members)) = inr cards
       ∧ In (JObj card_members) cards
       ∧ r = record_of category year (release_of_stem file_stem)
               doc set_members card_members)
∧ (∀ before after,
     file_stem = before +:+ "-" +:+ after → hyphen_free before = true →
     release_of_stem file_stem = after)
∧ (hyphen_free file_stem = true → release_of_stem file_stem = file_stem).
Proof.
intros Hcat Hyear Hfile Hstem Hflat. split; [|split].
- intros r Hr.
  destruct (flatten_card_data_records _ _ _ _ _ _ Hflat Hr)
    as (doc & sets & sm & cards & cm & H1 & H2 & H3 & H4 & H5 & H6).
  split.
  + unfold collect. apply (gather_In _ _ (category, Dir years)); [done|].
    simpl. apply (gather_In _ _ (year, Dir files)); [done|].
    simpl. apply (gather_In _ _ (file_stem +:+ ".json", File (Some data))).
    * apply filter_In. split; [done|]. apply ends_with_app.
    * simpl. rewrite (stem_json _ Hstem), Hflat. done.
  + rewrite H6. repeat split.
    by exists doc, sets, sm, cards, cm.
- intros before after -> Hfree. unfold release_of_stem.
  by rewrite split_hyphen_app.
- intros Hfree. unfold release_of_stem. by rewrite split_hyphen_none.
Qed.

Lemma release_strips_year_counterexample :
"1990-91-Topps.json" = "1990-91" +:+ "-" +:+ "Topps" +:+ ".json"
∧ map (λ r, (Flattener.category r, Flattener.year r, Flattener.release r))
      (collect season_tree).1
  = [("hockey", "1990-91", "91-Topps")].
Proof. split; reflexivity. Qed.

Lemma flattener_record_metadata_witness :
  In ("baseball", Dir [("1990", Dir [("1990-Topps.json", File (Some season_document))])])
     topps_tree
  ∧ map (λ r, (Flattener.category r, Flattener.year r, Flattener.release r))
        (collect topps_tree).1
    = [("baseball", "1990", "Topps")]
  ∧ release_of_stem "1990-Topps" = "Topps".
Proof.
  assert (H1 : In ("baseball",
                   Dir [("1990", Dir [("1990-Topps.json", File (Some season_document))])])
                  topps_tree) by (left; reflexivity).
  split; [exact H1|]. split; [reflexivity|].
  apply (proj1 (proj2 (flattener_record_metadata topps_tree "baseball" "1990"
    "1990-Topps"
    [("1990", Dir [("1990-Topps.json", File (Some season_document))])]
    [("1990-Topps.json", File (Some season_document))]
    season_document
    [record_of "baseball" "1990" "Topps" (members_of season_document)
       [("name", JStr "Base");
        ("cards", JArr [JObj [("number", JStr "1"); ("name", JStr "A")]])]
       [("number", JStr "1"); ("name", JStr "A")]]
    H1 (or_introl eq_refl) (or_introl eq_refl) ltac:(discriminate) eq_refl))
    "1990" "Topps"); reflexivity.
Defined.

End FlattenerFacts.


(** * Further properties *)

(** ** Trimming *)

Lemma string_of_list_ascii_app a b :
  string_of_list_ascii (a ++ b) = string_of_list_ascii a +:+ string_of_list_ascii b.
Proof. induction a as [|c a IH]; [done|]. simpl. by rewrite IH. Qed.

Lemma strip_list_split p l :
  ∃ pre post,
    l = pre ++ PyStr.strip_list p l ++ post
    ∧ (∀ c, In c pre → p c = true) ∧ (∀ c, In c post → p c = true).
Proof.
  unfold PyStr.strip_list.
  destruct (drop_while_prefix p l) as (pre & Hl & Hpre).
  destruct (drop_while_prefix p (rev (PyStr.drop_while p l))) as (pre2 & Hr & Hpre2).
  exists pre, (rev pre2). split; [|split; [done|]].
  - rewrite <- rev_app_distr, <- Hr, rev_involutive. exact Hl.
  - intros c Hc. apply Hpre2. by apply in_rev.
Qed.

Lemma strip_list_clean p l :
  PyStr.clean_head p (PyStr.strip_list p l)
  ∧ PyStr.clean_head p (rev (PyStr.strip_list p l)).
Proof.
  unfold PyStr.strip_list. split; [|rewrite rev_involutive; apply drop_while_clean].
  pose proof (drop_while_clean p l) as Hd.
  destruct (drop_while_prefix p (rev (PyStr.drop_while p l))) as (pre2 & Hr & _).
  apply (f_equal (@rev ascii)) in Hr. rewrite rev_involutive, rev_app_distr in Hr.
  destruct (rev (PyStr.drop_while p (rev (PyStr.drop_while p l)))) as [|c t] eqn:E;
    [done|].
  rewrite Hr in Hd. exact Hd.
Qed.

Lemma strip_list_fixed p l :
  PyStr.clean_head p l → PyStr.clean_head p (rev l) → PyStr.strip_list p l = l.
Proof.
  intros H1 H2. unfold PyStr.strip_list.
  by rewrite (drop_while_id p l H1), (drop_while_id p (rev l) H2), rev_involutive.
Qed.

(** [normalize_text] removes whitespace from the two ends of the string and
    nothing else: the string is its trimmed form between two runs of
    whitespace; the trimmed form neither begins nor ends with whitespace;
    the strings it leaves as they are are exactly those; so trimming twice
    is trimming once. *)
Theorem normalize_text_trims (s : string) :
  (∃ pre post, s = pre +:+ normalize_text s +:+ post
               ∧ all_space pre ∧ all_space post)
  ∧ trimmed (normalize_text s)
  ∧ (normalize_text s = s ↔ trimmed s)
  ∧ normalize_text (normalize_text s) = normalize_text s.
Proof.
  unfold normalize_text, PyStr.strip, PyStr.strip_by, trimmed, all_space.
  split; [|split; [|split]].
  - destruct (strip_list_split PyStr.isspace (list_ascii_of_string s))
      as (pre & post & Hs & Hpre & Hpost).
    exists (string_of_list_ascii pre), (string_of_list_ascii post).
    rewrite !list_ascii_of_string_of_list_ascii. split; [|done].
    rewrite <- !string_of_list_ascii_app, <- Hs.
    by rewrite string_of_list_ascii_of_string.
  - rewrite list_ascii_of_string_of_list_ascii. apply strip_list_clean.
  - split.
    + intros H. rewrite <- H at 1 2.
      rewrite list_ascii_of_string_of_list_ascii. apply strip_list_clean.
    + intros [H1 H2]. rewrite strip_list_fixed by done.
      apply string_of_list_ascii_of_string.
  - apply normalize_text_idem.
Qed.

(** ** Decimal numerals *)

Lemma int_fold s : PyStr.int s = fold_left digit_step (list_ascii_of_string s) 0%Z.
Proof. reflexivity. Qed.

Lemma int_uint_acc d acc :
  fold_left digit_step (list_ascii_of_string (NilEmpty.string_of_uint d)) (Z.pos acc)
  = Z.pos (Pos.of_uint_acc d acc).
Proof.
  revert acc. induction d; intros acc; cbn [NilEmpty.string_of_uint list_ascii_of_string fold_left Pos.of_uint_acc];
    [done|..];
    (etransitivity; [|apply IHd]); f_equal; unfold digit_step;
    match goal with
    | |- context [Z.of_nat ?n] =>
        let v := eval vm_compute in (Z.of_nat n) in change (Z.of_nat n) with v
    end; lia.
Qed.

Lemma int_uint d :
  fold_left digit_step (list_ascii_of_string (NilEmpty.string_of_uint d)) 0%Z
  = Z.of_N (Pos.of_uint d).
Proof.
  induction d; cbn [NilEmpty.string_of_uint list_ascii_of_string fold_left Pos.of_uint];
    [done|exact IHd|..]; apply (int_uint_acc d).
Qed.

Lemma int_string_of_uint d :
  PyStr.int (NilZero.string_of_uint d) = Z.of_N (N.of_uint d).
Proof.
  rewrite int_fold. destruct d; try apply int_uint. reflexivity.
Qed.

Lemma int_str n : (0 ≤ n)%Z → PyStr.int (PyStr.str n) = n.
Proof.
  intros Hn. unfold PyStr.str.
  rewrite int_string_of_uint, DecimalN.Unsigned.of_to. lia.
Qed.

Lemma digits_string_of_uint d :
  forallb PyStr.isdecimal_char (list_ascii_of_string (NilEmpty.string_of_uint d))
  = true.
Proof. induction d; [done|..]; exact IHd. Qed.

Lemma isdecimal_string_of_uint d : PyStr.isdecimal (NilZero.string_of_uint d) = true.
Proof.
  destruct d; [done|..]; unfold PyStr.isdecimal;
    cbn [NilZero.string_of_uint NilEmpty.string_of_uint list_ascii_of_string];
    cbn [forallb]; apply (digits_string_of_uint d).
Qed.

Lemma isdecimal_str n : PyStr.isdecimal (PyStr.str n) = true.
Proof. apply isdecimal_string_of_uint. Qed.

Lemma isdecimal_isdigit s : PyStr.isdecimal s = true → PyStr.isdigit s = true.
Proof.
  unfold PyStr.isdecimal, PyStr.isdigit.
  destruct (list_ascii_of_string s) as [|c l]; [done|].
  intros H. apply forallb_forall. intros x Hx.
  rewrite forallb_forall in H. unfold PyStr.isdigit_char. by rewrite (H x Hx).
Qed.

Lemma isdigit_str n : PyStr.isdigit (PyStr.str n) = true.
Proof. apply isdecimal_isdigit, isdecimal_str. Qed.

Lemma isdigit_char_not_space c : PyStr.isdigit_char c = true → PyStr.isspace c = false.
Proof. destruct c as [[] [] [] [] [] [] [] []]; vm_compute; intros; congruence. Qed.

Lemma isdigit_chars s c :
  PyStr.isdigit s = true → In c (list_ascii_of_string s) → PyStr.isdigit_char c = true.
Proof.
  unfold PyStr.isdigit. intros H Hc.
  destruct (list_ascii_of_string s) as [|c0 l] eqn:E; [done|].
  rewrite forallb_forall in H. by apply H.
Qed.

Lemma isdecimal_chars s :
  PyStr.isdecimal s = true →
  forallb PyStr.isdecimal_char (list_ascii_of_string s) = true.
Proof. unfold PyStr.isdecimal. by destruct (list_ascii_of_string s). Qed.

Lemma clean_head_all p l : (∀ c, In c l → p c = false) → PyStr.clean_head p l.
Proof. destruct l as [|c l]; [done|]. intros H. apply H. by left. Qed.

Lemma trimmed_digits s : PyStr.isdigit s = true → trimmed s.
Proof.
  intros H. split; apply clean_head_all; intros c Hc;
    apply isdigit_char_not_space, (isdigit_chars s); try done.
  by apply in_rev.
Qed.

Lemma normalize_text_fixed s : trimmed s → normalize_text s = s.
Proof.
  intros [H1 H2]. unfold normalize_text, PyStr.strip, PyStr.strip_by.
  rewrite strip_list_fixed by done. apply string_of_list_ascii_of_string.
Qed.

Lemma normalize_text_digits s : PyStr.isdigit s = true → normalize_text s = s.
Proof. intros H. by apply normalize_text_fixed, trimmed_digits. Qed.

Lemma int_nonneg_from l acc : (0 ≤ acc)%Z → (0 ≤ fold_left digit_step l acc)%Z.
Proof.
  revert acc. induction l as [|c l IH]; intros acc H; [done|].
  simpl. apply IH. unfold digit_step. lia.
Qed.

Lemma int_nonneg s : (0 ≤ PyStr.int s)%Z.
Proof. rewrite int_fold. by apply int_nonneg_from. Qed.

(** The value of a string of [k] decimal digits is below [10 ^ k], and a
    value read after [acc] is at least [acc * 10 ^ k]. *)
Lemma int_upper_from l acc :
  forallb PyStr.isdecimal_char l = true → (0 ≤ acc)%Z →
  (fold_left digit_step l acc < (acc + 1) * 10 ^ Z.of_nat (length l))%Z.
Proof.
  revert acc. induction l as [|c l IH]; intros acc Hl Hacc.
  - cbn [fold_left length]. change (10 ^ Z.of_nat 0)%Z with 1%Z. lia.
  - cbn [forallb] in Hl. apply andb_true_iff in Hl as [Hc Hl].
    cbn [fold_left length]. rewrite Nat2Z.inj_succ, Z.pow_succ_r by lia.
    assert (Hd : (10 * acc ≤ digit_step acc c ≤ 10 * acc + 9)%Z).
    { unfold digit_step. unfold PyStr.isdecimal_char in Hc.
      apply andb_true_iff in Hc as [H1 H2].
      apply Nat.leb_le in H1. apply Nat.leb_le in H2. lia. }
    assert (IH' := IH (digit_step acc c) Hl ltac:(lia)).
    assert (Hp : (0 < 10 ^ Z.of_nat (length l))%Z) by (apply Z.pow_pos_nonneg; lia).
    revert IH' Hp. generalize (10 ^ Z.of_nat (length l))%Z.
    generalize (fold_left digit_step l (digit_step acc c)). intros v P H1 H2. nia.
Qed.

Lemma int_lower_from l acc :
  (0 ≤ acc)%Z →
  (acc * 10 ^ Z.of_nat (length l) ≤ fold_left digit_step l acc)%Z.
Proof.
  revert acc. induction l as [|c l IH]; intros acc Hacc.
  - cbn [fold_left length]. change (10 ^ Z.of_nat 0)%Z with 1%Z. lia.
  - cbn [fold_left length]. rewrite Nat2Z.inj_succ, Z.pow_succ_r by lia.
    assert (Hd : (10 * acc ≤ digit_step acc c)%Z) by (unfold digit_step; lia).
    assert (IH' := IH (digit_step acc c) ltac:(lia)).
    assert (Hp : (0 < 10 ^ Z.of_nat (length l))%Z) by (apply Z.pow_pos_nonneg; lia).
    revert IH' Hp. generalize (10 ^ Z.of_nat (length l))%Z.
    generalize (fold_left digit_step l (digit_step acc c)). intros v P H1 H2. nia.
Qed.

Lemma length_list_ascii s : length (list_ascii_of_string s) = String.length s.
Proof. induction s as [|c s IH]; [done|]. simpl. by rewrite IH. Qed.

Lemma int_upper s :
  PyStr.isdecimal s = true → (PyStr.int s < 10 ^ Z.of_nat (String.length s))%Z.
Proof.
  intros H%isdecimal_chars. rewrite int_fold, <- length_list_ascii.
  pose proof (int_upper_from _ 0 H ltac:(lia)) as Hu. lia.
Qed.

Lemma str_canonical n : canonical_numeral (PyStr.str n).
Proof.
  split; [apply isdecimal_str|]. unfold PyStr.str.
  pose proof (DecimalN.Unsigned.to_of (N.to_uint (Z.to_N n))) as H.
  rewrite DecimalN.Unsigned.of_to in H. symmetry in H.
  destruct (N.to_uint (Z.to_N n)) as [|d|d|d|d|d|d|d|d|d|d] eqn:E;
    try (right; eexists _, _; split; [reflexivity|discriminate]).
  rewrite DecimalFacts.unorm_D0 in H. unfold Decimal.unorm in H.
  destruct (Decimal.nzhead d) eqn:E2; try discriminate H.
  - cbv in H. injection H as <-. by left.
  - by destruct (DecimalFacts.nzhead_nonzero d u).
Qed.

(** A canonical numeral of more than [k] digits has a value of at least
    [10 ^ k]. *)
Lemma canonical_lower s :
  canonical_numeral s →
  s = "0" ∨ (10 ^ Z.of_nat (String.length s - 1) ≤ PyStr.int s)%Z.
Proof.
  intros [Hd [->|(c & rest & -> & Hc)]]; [by left|right].
  apply isdecimal_chars in Hd. cbn [list_ascii_of_string forallb] in Hd.
  apply andb_true_iff in Hd as [Hdc Hrest].
  rewrite int_fold. cbn [list_ascii_of_string fold_left String.length].
  rewrite Nat.sub_succ, Nat.sub_0_r, <- length_list_ascii.
  assert (H1 : (1 ≤ digit_step 0 c)%Z).
  { unfold digit_step. unfold PyStr.isdecimal_char in Hdc.
    apply andb_true_iff in Hdc as [H1 H2].
    apply Nat.leb_le in H1. apply Nat.leb_le in H2.
    assert (nat_of_ascii c ≠ 48); [|lia].
    intros H. apply Hc. rewrite <- (ascii_nat_embedding c), H. reflexivity. }
  pose proof (int_lower_from (list_ascii_of_string rest) (digit_step 0 c)
                ltac:(lia)) as Hl.
  assert (Hp : (0 < 10 ^ Z.of_nat (length (list_ascii_of_string rest)))%Z)
    by (apply Z.pow_pos_nonneg; lia).
  revert Hl Hp. generalize (10 ^ Z.of_nat (length (list_ascii_of_string rest)))%Z.
  intros P Hl Hp. nia.
Qed.

(** The numeral of a value below [10 ^ k] has at most [k] digits, and the
    numeral of a value from [10 ^ k] on has more. *)
Lemma length_str_le n k :
  1 ≤ k → (0 ≤ n < 10 ^ Z.of_nat k)%Z → String.length (PyStr.str n) ≤ k.
Proof.
  intros Hk1 [Hn Hk].
  destruct (canonical_lower _ (str_canonical n)) as [E|Hl].
  - by rewrite E.
  - rewrite int_str in Hl by done.
    destruct (le_lt_dec (String.length (PyStr.str n)) k) as [|Hgt]; [done|].
    exfalso.
    assert ((10 ^ Z.of_nat k ≤ 10 ^ Z.of_nat (String.length (PyStr.str n) - 1))%Z);
      [|lia].
    apply Z.pow_le_mono_r; lia.
Qed.

Lemma length_str_gt n k :
  (10 ^ Z.of_nat k ≤ n)%Z → k < String.length (PyStr.str n).
Proof.
  intros Hk.
  assert (Hn : (0 ≤ n)%Z).
  { assert (0 < 10 ^ Z.of_nat k)%Z by (apply Z.pow_pos_nonneg; lia). lia. }
  pose proof (int_upper _ (isdecimal_str n)) as Hu. rewrite int_str in Hu by done.
  destruct (le_lt_dec (String.length (PyStr.str n)) k) as [Hle|]; [|done].
  exfalso.
  assert ((10 ^ Z.of_nat (String.length (PyStr.str n)) ≤ 10 ^ Z.of_nat k)%Z);
    [|lia].
  apply Z.pow_le_mono_r; lia.
Qed.

Lemma max_str_digits_nat : PyStr.max_str_digits = Z.of_nat 4300.
Proof. reflexivity. Qed.

Lemma readable_str n :
  (0 ≤ n < 10 ^ PyStr.max_str_digits)%Z → readable (PyStr.str n).
Proof.
  intros Hn. split; [apply isdecimal_str|].
  rewrite max_str_digits_nat in *. apply inj_le. apply length_str_le; [lia|done].
Qed.

Lemma readable_int s :
  readable s → (0 ≤ PyStr.int s < 10 ^ PyStr.max_str_digits)%Z.
Proof.
  intros [Hd Hl]. split; [apply int_nonneg|].
  eapply Z.lt_le_trans; [by apply int_upper|].
  apply Z.pow_le_mono_r; [lia|done].
Qed.

(** [int] with its exception, case by case. *)
Lemma raising_int_readable s : readable s → Raising.int s = inr (PyStr.int s).
Proof.
  intros [Hd Hl]. unfold Raising.int. rewrite Hd.
  by rewrite (proj2 (Z.leb_le _ _) Hl).
Qed.

Lemma raising_int_unreadable s : ¬ readable s → Raising.int s = inl (ValueError s).
Proof.
  intros H. unfold Raising.int.
  destruct (PyStr.isdecimal s) eqn:Hd; [|done].
  destruct (Z.leb_spec (Z.of_nat (String.length s)) PyStr.max_str_digits); [|done].
  by destruct H.
Qed.

Lemma readable_dec s : readable s ∨ ¬ readable s.
Proof.
  unfold readable. destruct (PyStr.isdecimal s); [|right; by intros [? ?]].
  destruct (Z.le_gt_cases (Z.of_nat (String.length s)) PyStr.max_str_digits).
  - by left.
  - right. intros [_ ?]. lia.
Qed.

Lemma raising_number_cases s :
  Raising.normalize_card_number s
  = if PyStr.isdigit (normalize_text s) then
      match Raising.int (normalize_text s) with
      | inl e => inl e
      | inr n => inr (PyStr.str n)
      end
    else inr (normalize_text s).
Proof. reflexivity. Qed.

Lemma raising_sequence_cases s :
  Raising.parse_sequence s
  = if PyStr.isdigit (normalize_text s) then
      match Raising.int (normalize_text s) with
      | inl e => inl e
      | inr n => inr (Some n)
      end
    else inr None.
Proof. reflexivity. Qed.

(** The calls return the values of the total functions. *)
Lemma raising_number_value s v :
  Raising.normalize_card_number s = inr v → v = normalize_card_number s.
Proof.
  rewrite raising_number_cases. unfold normalize_card_number, Raising.int.
  destruct (PyStr.isdigit (normalize_text s)); [|by intros [= <-]].
  destruct (_ && _); [|done]. by intros [= <-].
Qed.

Lemma raising_sequence_value s v :
  Raising.parse_sequence s = inr v → v = parse_sequence s.
Proof.
  rewrite raising_sequence_cases. unfold parse_sequence, Raising.int.
  destruct (PyStr.isdigit (normalize_text s)); [|by intros [= <-]].
  destruct (_ && _); [|done]. by intros [= <-].
Qed.

(** Either call raises exactly on a refused cell, the [ValueError] of the
    trimmed cell. *)
Lemma raising_number_error s e :
  Raising.normalize_card_number s = inl e
  ↔ e = ValueError (normalize_text s) ∧ refused s.
Proof.
  rewrite raising_number_cases. unfold refused.
  destruct (PyStr.isdigit (normalize_text s)) eqn:Ed.
  - destruct (readable_dec (normalize_text s)) as [Hr|Hr].
    + rewrite raising_int_readable by done. split; [done|]. by intros (_ & _ & H).
    + rewrite raising_int_unreadable by done. split.
      * by intros [= <-].
      * by intros (-> & _).
  - split; [done|]. by intros (_ & H & _).
Qed.

Lemma raising_sequence_error s e :
  Raising.parse_sequence s = inl e
  ↔ e = ValueError (normalize_text s) ∧ refused s.
Proof.
  rewrite raising_sequence_cases. unfold refused.
  destruct (PyStr.isdigit (normalize_text s)) eqn:Ed.
  - destruct (readable_dec (normalize_text s)) as [Hr|Hr].
    + rewrite raising_int_readable by done. split; [done|]. by intros (_ & _ & H).
    + rewrite raising_int_unreadable by done. split.
      * by intros [= <-].
      * by intros (-> & _).
  - split; [done|]. by intros (_ & H & _).
Qed.

(** [normalize_card_number].  The call raises [ValueError] exactly when the
    trimmed string is made of characters [isdigit] accepts and [int] does
    not read it: one of them is not a decimal digit, or they are more than
    the limit.  When it returns, it returns the value of the total function.
    A trimmed string that [int] reads becomes the decimal numeral of its
    value, without leading zeros; a string that [isdigit] refuses is only
    trimmed.  A value returned is a fixed point, and two numeric card
    numbers have the same canonical form exactly when they have the same
    value. *)
Theorem normalize_card_number_canonical (s t : string) :
  (∀ e, Raising.normalize_card_number s = inl e
        ↔ e = ValueError (normalize_text s)
          ∧ PyStr.isdigit (normalize_text s) = true
          ∧ ¬ readable (normalize_text s))
  ∧ (∀ v, Raising.normalize_card_number s = inr v → v = normalize_card_number s)
  ∧ (readable (normalize_text s) →
     Raising.normalize_card_number s = inr (normalize_card_number s)
     ∧ canonical_numeral (normalize_card_number s)
     ∧ PyStr.int (normalize_card_number s) = PyStr.int (normalize_text s))
  ∧ (PyStr.isdigit (normalize_text s) = false →
     Raising.normalize_card_number s = inr (normalize_text s))
  ∧ (∀ v, Raising.normalize_card_number s = inr v →
          Raising.normalize_card_number v = inr v)
  ∧ (readable (normalize_text s) → readable (normalize_text t) →
     (normalize_card_number s = normalize_card_number t
      ↔ PyStr.int (normalize_text s) = PyStr.int (normalize_text t))).
Proof.
  split; [|split; [|split; [|split; [|split]]]].
  - intros e. apply raising_number_error.
  - apply raising_number_value.
  - intros Hr. rewrite raising_number_cases. unfold normalize_card_number.
    rewrite (isdecimal_isdigit _ (proj1 Hr)), raising_int_readable by done.
    split; [done|]. split; [apply str_canonical|]. apply int_str, int_nonneg.
  - intros Hd. by rewrite raising_number_cases, Hd.
  - intros v. rewrite raising_number_cases.
    destruct (PyStr.isdigit (normalize_text s)) eqn:Ed.
    + destruct (readable_dec (normalize_text s)) as [Hr|Hr].
      * rewrite raising_int_readable by done. intros [= <-].
        rewrite raising_number_cases.
        rewrite normalize_text_digits by apply isdigit_str.
        rewrite isdigit_str, raising_int_readable.
        -- by rewrite int_str by apply int_nonneg.
        -- by apply readable_str, readable_int.
      * by rewrite raising_int_unreadable.
    + intros [= <-]. by rewrite raising_number_cases, normalize_text_idem, Ed.
  - intros Hs Ht. unfold normalize_card_number.
    rewrite (isdecimal_isdigit _ (proj1 Hs)), (isdecimal_isdigit _ (proj1 Ht)).
    split; [|by intros ->].
    intros H. apply (f_equal PyStr.int) in H.
    by rewrite !int_str in H by apply int_nonneg.
Qed.

Lemma normalize_card_number_canonical_witness :
  Raising.normalize_card_number " 007 " = inr (normalize_card_number " 007 ")
  ∧ canonical_numeral (normalize_card_number " 007 ")
  ∧ PyStr.int (normalize_card_number " 007 ") = PyStr.int (normalize_text " 007 ").
Proof.
  apply (proj1 (proj2 (proj2 (normalize_card_number_canonical " 007 " EmptyString)))).
  split; [reflexivity|]. vm_compute. discriminate.
Defined.

Lemma list_ascii_of_string_app a b :
  list_ascii_of_string (a +:+ b) = list_ascii_of_string a ++ list_ascii_of_string b.
Proof. induction a as [|c a IH]; [done|]. rewrite app_String. simpl. by rewrite IH. Qed.

Lemma clean_head_app_nonempty p (a b : list ascii) :
  a ≠ [] → PyStr.clean_head p a → PyStr.clean_head p (a ++ b).
Proof. by destruct a. Qed.

Lemma strip_list_around p pre l post :
  (∀ c, In c pre → p c = true) → (∀ c, In c post → p c = true) →
  l ≠ [] → PyStr.clean_head p l → PyStr.clean_head p (rev l) →
  PyStr.strip_list p (pre ++ l ++ post) = l.
Proof.
  intros Hpre Hpost Hne H1 H2. unfold PyStr.strip_list.
  rewrite (drop_while_app_all p pre) by done.
  rewrite (drop_while_id p (l ++ post)) by by apply clean_head_app_nonempty.
  rewrite rev_app_distr, (drop_while_app_all p (rev post)).
  - by rewrite (drop_while_id p (rev l)), rev_involutive.
  - intros c Hc. apply Hpost. by apply in_rev.
Qed.

Lemma normalize_text_around pre s post :
  all_space pre → all_space post → s ≠ EmptyString → trimmed s →
  normalize_text (pre +:+ s +:+ post) = s.
Proof.
  intros Hpre Hpost Hne [H1 H2].
  unfold normalize_text, PyStr.strip, PyStr.strip_by.
  rewrite !list_ascii_of_string_app, strip_list_around; try done.
  - apply string_of_list_ascii_of_string.
  - by destruct s.
Qed.

Lemma isdigit_nonempty s : PyStr.isdigit s = true → s ≠ EmptyString.
Proof. by intros H ->. Qed.

Lemma normalize_text_numeral pre n post :
  all_space pre → all_space post →
  normalize_text (pre +:+ PyStr.str n +:+ post) = PyStr.str n.
Proof.
  intros Hpre Hpost. apply normalize_text_around; try done.
  - apply isdigit_nonempty, isdigit_str.
  - apply trimmed_digits, isdigit_str.
Qed.

(** The sequence value of a cell.  The call raises [ValueError] exactly when
    the trimmed cell is made of characters [isdigit] accepts and [int] does
    not read it; when it returns, it returns the value of the total function.
    The value is absent exactly when [isdigit] refuses the trimmed cell, and
    a value is never negative and is below the limit.  The decimal numeral
    of a non-negative integer below the limit, whatever whitespace surrounds
    it, is read back as that integer, and is its own canonical card number;
    the numeral of an integer from the limit on raises. *)
Theorem parse_sequence_round_trip (n : Z) (pre post cell : string) :
  (∀ e, Raising.parse_sequence cell = inl e
        ↔ e = ValueError (normalize_text cell)
          ∧ PyStr.isdigit (normalize_text cell) = true
          ∧ ¬ readable (normalize_text cell))
  ∧ (∀ v, Raising.parse_sequence cell = inr v → v = parse_sequence cell)
  ∧ (Raising.parse_sequence cell = inr None
     ↔ PyStr.isdigit (normalize_text cell) = false)
  ∧ (∀ v, Raising.parse_sequence cell = inr (Some v) →
          (0 ≤ v < 10 ^ PyStr.max_str_digits)%Z)
  ∧ ((0 ≤ n < 10 ^ PyStr.max_str_digits)%Z → all_space pre → all_space post →
     Raising.parse_sequence (pre +:+ PyStr.str n +:+ post) = inr (Some n)
     ∧ Raising.normalize_card_number (pre +:+ PyStr.str n +:+ post)
       = inr (PyStr.str n))
  ∧ ((10 ^ PyStr.max_str_digits ≤ n)%Z → all_space pre → all_space post →
     Raising.parse_sequence (pre +:+ PyStr.str n +:+ post)
     = inl (ValueError (PyStr.str n))).
Proof.
  split; [|split; [|split; [|split; [|split]]]].
  - intros e. apply raising_sequence_error.
  - apply raising_sequence_value.
  - rewrite raising_sequence_cases.
    destruct (PyStr.isdigit (normalize_text cell)) eqn:Ed; [|done].
    split; [|done]. by destruct (Raising.int (normalize_text cell)).
  - intros v. rewrite raising_sequence_cases.
    destruct (PyStr.isdigit (normalize_text cell)) eqn:Ed; [|done].
    destruct (readable_dec (normalize_text cell)) as [Hr|Hr].
    + rewrite raising_int_readable by done. intros [= <-]. by apply readable_int.
    + by rewrite raising_int_unreadable.
  - intros Hn Hpre Hpost.
    rewrite raising_sequence_cases, raising_number_cases.
    rewrite normalize_text_numeral by done.
    rewrite isdigit_str, raising_int_readable by by apply readable_str.
    by rewrite int_str by lia.
  - intros Hn Hpre Hpost.
    rewrite raising_sequence_cases, normalize_text_numeral by done.
    rewrite isdigit_str, raising_int_unreadable; [done|].
    intros [_ Hl]. rewrite max_str_digits_nat in *.
    pose proof (length_str_gt n 4300 Hn). lia.
Qed.

Lemma parse_sequence_round_trip_witness :
  Raising.parse_sequence (" " +:+ PyStr.str 25 +:+ "  ") = inr (Some 25%Z)
  ∧ Raising.normalize_card_number (" " +:+ PyStr.str 25 +:+ "  ")
    = inr (PyStr.str 25).
Proof.
  apply (proj1 (proj2 (proj2 (proj2 (proj2
           (parse_sequence_round_trip 25 " " "  " EmptyString)))))).
  - split; [lia|]. apply Z.ltb_lt. vm_compute. reflexivity.
  - intros c [<-|[]]. reflexivity.
  - intros c [<-|[<-|[]]]; reflexivity.
Defined.

(** ** Inferred attributes *)

Lemma contains_iff needle s :
  PyStr.contains needle s = true ↔ ∃ pre post, s = pre +:+ needle +:+ post.
Proof.
  split.
  - induction s as [|c s IH]; cbn [PyStr.contains]; intros H.
    + rewrite orb_false_r in H. apply prefix_split in H as [t Ht].
      by exists EmptyString, t.
    + apply orb_true_iff in H as [H|H].
      * apply prefix_split in H as [t Ht]. by exists EmptyString, t.
      * destruct (IH H) as (pre & post & ->). by exists (String c pre), post.
  - intros (pre & post & ->). induction pre as [|c pre IH].
    + rewrite app_empty_l.
      assert (H : String.prefix needle (needle +:+ post) = true) by apply prefix_app.
      destruct (needle +:+ post); cbn [PyStr.contains]; by rewrite H.
    + rewrite app_String. cbn [PyStr.contains]. rewrite IH. apply orb_true_r.
Qed.

(** [get_attributes_for_set]: the code [AU] is inferred exactly when the
    lower-cased set name has [autograph] as a substring, the code [RELIC]
    exactly when it has [relic]; nothing else is ever inferred, [AU] comes
    before [RELIC] and neither is repeated; and set names that differ in
    letter case only get the same attributes. *)
Theorem attributes_by_substring (set_name : string) :
  let has w := ∃ pre post, PyStr.lower set_name = pre +:+ w +:+ post in
  (In "AU" (get_attributes_for_set set_name) ↔ has "autograph")
  ∧ (In "RELIC" (get_attributes_for_set set_name) ↔ has "relic")
  ∧ get_attributes_for_set set_name `sublist_of` ["AU"; "RELIC"]
  ∧ ∀ other, PyStr.lower other = PyStr.lower set_name →
             get_attributes_for_set other = get_attributes_for_set set_name.
Proof.
  intros has. unfold has, get_attributes_for_set.
  rewrite <- !contains_iff.
  split; [|split; [|split]].
  - destruct (PyStr.contains "autograph" _), (PyStr.contains "relic" _); simpl;
      naive_solver.
  - destruct (PyStr.contains "autograph" _), (PyStr.contains "relic" _); simpl;
      naive_solver.
  - destruct (PyStr.contains "autograph" _), (PyStr.contains "relic" _); simpl.
    + done.
    + by repeat constructor.
    + by repeat constructor.
    + by repeat constructor.
  - by intros other ->.
Qed.

(** ** What the grouping guarantees *)

Lemma group_step_well_grouped st r :
  grouper_inv st →
  Forall well_grouped (grouper_finish st) →
  Forall well_grouped (grouper_finish (group_step st r)).
Proof.
  assert (Hopen : ∀ r, well_grouped (open_group (normalize_text (CARD_SET r)) r)).
  { intros r0. split; [done|]. split; [apply normalize_text_idem|]. split.
    - by intros r' [<-|[]].
    - intros r' name []. }
  destruct st as [gs [[g b]|]]; simpl.
  - intros [_ [-> _]] [Hgs Hg]%Forall_app. apply Forall_inv in Hg.
    destruct Hg as (H1 & H2 & H3 & H4).
    destruct (String.eqb _ _) eqn:E1; simpl.
    + apply String.eqb_eq in E1.
      apply Forall_app. split; [done|]. constructor; [|done].
      split; simpl; [by destruct (base_rows g)|]. split; [done|]. split; [|done].
      intros r' [H|[<-|[]]]%in_app_or; [by apply H3|done].
    + destruct (PyStr.startswith _ _) eqn:E2; simpl.
      * apply startswith_iff in E2 as [t Ht].
        apply Forall_app. split; [done|]. constructor; [|done].
        split; [done|]. split; [done|]. split; [done|]. simpl.
        intros r' name [H|[[= <- <-]|[]]]%in_app_or; [by apply H4|].
        exists t. rewrite string_app_assoc in Ht. split; [done|].
        rewrite Ht.
        replace (String.length (base_set g) + 1)
          with (String.length (base_set g +:+ " "))
          by (rewrite string_length_app; simpl; lia).
        by rewrite <- string_app_assoc, slice_from_app.
      * apply Forall_app. split; [|by constructor].
        apply Forall_app. split; [done|]. by constructor.
  - intros _ H. apply Forall_app. split; [done|]. by constructor.
Qed.

Lemma group_rows_snoc df r :
  group_rows (df ++ [r]) = grouper_finish (group_step (grouper_run df) r).
Proof. unfold group_rows. by rewrite grouper_run_snoc. Qed.

Lemma group_rows_well_grouped df : Forall well_grouped (group_rows df).
Proof.
  induction df as [|r df IH] using rev_ind; [constructor|].
  rewrite group_rows_snoc. apply group_step_well_grouped; [|done].
  apply grouper_run_inv.
Qed.

Lemma group_rows_nil df : group_rows df = [] → df = [].
Proof.
  unfold group_rows. destruct (grouper_run df) as [gs [[g b]|]] eqn:E; simpl.
  - by destruct gs.
  - intros _. by destruct (grouper_run_none df gs E).
Qed.

(** Every group of the grouping has at least one base row and a trimmed
    [base_set]; its base rows are rows whose trimmed set name is [base_set];
    each of its parallel rows has a trimmed set name made of [base_set], a
    space and a suffix, and is named by the suffix trimmed of whitespace and
    then of spaces and hyphens.  There is a group exactly when there is a
    row. *)
Theorem grouped_rows_classified (df : list Row) :
  (∀ g, In g (group_rows df) → well_grouped g)
  ∧ (group_rows df = [] ↔ df = []).
Proof.
  split.
  - apply List.Forall_forall, group_rows_well_grouped.
  - split; [apply group_rows_nil|by intros ->].
Qed.

(** ** Consecutive groups *)

Lemma chain_snoc names a b :
  chain (names ++ [a]) → unrelated a b → chain (names ++ [a; b]).
Proof.
  induction names as [|x names IH]; simpl; [done|].
  destruct names as [|y names]; simpl in *; [by intros [? _] ?|].
  intros [H1 H2] H3. split; [done|]. by apply IH.
Qed.

Lemma chain_lookup pre a b post : chain (pre ++ a :: b :: post) → unrelated a b.
Proof.
  induction pre as [|x pre IH]; simpl; [by intros [? _]|].
  destruct pre as [|y pre]; simpl in *; [by intros [_ [? _]]|].
  intros [_ H]. by apply IH.
Qed.

Lemma group_step_chain st r :
  grouper_inv st →
  chain (map base_set (grouper_finish st)) →
  chain (map base_set (grouper_finish (group_step st r))).
Proof.
  destruct st as [gs [[g b]|]]; simpl;
    [|intros [_ H] _; simpl in H; by subst].
  intros [_ [-> _]]. rewrite !map_app. simpl.
  destruct (String.eqb _ _) eqn:E1; simpl; [by rewrite map_app|].
  destruct (PyStr.startswith _ _) eqn:E2; simpl; [by rewrite map_app|].
  intros H. rewrite !map_app. simpl. rewrite <- app_assoc. simpl.
  apply chain_snoc; [done|]. split; [|done]. by apply String.eqb_neq.
Qed.

Lemma group_rows_chain df : chain (map base_set (group_rows df)).
Proof.
  induction df as [|r df IH] using rev_ind; [done|].
  rewrite group_rows_snoc. apply group_step_chain; [|done].
  apply grouper_run_inv.
Qed.

(** Two consecutive groups of the grouping could not have been one: the
    [base_set] of the second neither is the [base_set] of the first nor
    starts with it and a space. *)
Theorem consecutive_groups_unrelated (df : list Row) (pre post : list Group)
    (g1 g2 : Group) :
  group_rows df = pre ++ g1 :: g2 :: post →
  base_set g2 ≠ base_set g1
  ∧ (∀ suffix, base_set g2 ≠ base_set g1 +:+ " " +:+ suffix).
Proof.
  intros Hdf. pose proof (group_rows_chain df) as H.
  rewrite Hdf, map_app in H. simpl in H.
  apply chain_lookup in H as [H1 H2]. split; [done|].
  intros suffix Heq.
  assert (PyStr.startswith (base_set g2) (base_set g1 +:+ " ") = true) as Ht.
  { apply startswith_iff. exists suffix. by rewrite string_app_assoc. }
  by rewrite Ht in H2.
Qed.

Lemma consecutive_groups_unrelated_witness :
  group_rows split_checklist = [] ++ topps_group :: bowman_group :: [refractor_group]
  ∧ base_set bowman_group ≠ base_set topps_group
  ∧ (∀ suffix, base_set bowman_group ≠ base_set topps_group +:+ " " +:+ suffix).
Proof.
  assert (H : group_rows split_checklist
              = [] ++ topps_group :: bowman_group :: [refractor_group])
    by reflexivity.
  split; [exact H|].
  exact (consecutive_groups_unrelated split_checklist [] [refractor_group]
           topps_group bowman_group H).
Defined.

(** ** File order *)

Lemma holds_run_open r :
  holds_run [r] (open_group (normalize_text (CARD_SET r)) r).
Proof.
  unfold holds_run. simpl. split.
  - by rewrite filter_cons_True, filter_nil.
  - rewrite filter_cons_False, filter_nil; [done|]. by intros H.
Qed.

Lemma group_step_runs st r runs :
  grouper_inv st →
  Forall2 holds_run runs (grouper_finish st) →
  ∃ runs', concat runs' = concat runs ++ [r]
           ∧ Forall2 holds_run runs' (grouper_finish (group_step st r)).
Proof.
  destruct st as [gs [[g b]|]]; simpl.
  - intros [_ [-> _]] H.
    apply Forall2_app_inv_r in H as (runs0 & runs1 & H0 & H1 & ->).
    inversion H1 as [|run ? rest ? Hrun Hnil]; subst. inversion Hnil; subst.
    destruct Hrun as [Hb Hp].
    destruct (String.eqb _ _) eqn:E1; simpl.
    + apply String.eqb_eq in E1. exists (runs0 ++ [run ++ [r]]). split.
      * rewrite !concat_app. simpl. by rewrite !app_nil_r, app_assoc.
      * apply Forall2_app; [done|]. constructor; [|constructor].
        split; simpl.
        -- rewrite filter_app, filter_cons_True, filter_nil by done.
           by rewrite Hb.
        -- rewrite filter_app, filter_cons_False, filter_nil, app_nil_r; [done|].
           by intros H.
    + apply String.eqb_neq in E1.
      destruct (PyStr.startswith _ _) eqn:E2; simpl.
      * exists (runs0 ++ [run ++ [r]]). split.
        -- rewrite !concat_app. simpl. by rewrite !app_nil_r, app_assoc.
        -- apply Forall2_app; [done|]. constructor; [|constructor].
           split; simpl.
           ++ rewrite filter_app, filter_cons_False, filter_nil, app_nil_r; done.
           ++ rewrite map_app, filter_app, filter_cons_True, filter_nil by done.
              by rewrite Hp.
      * exists ((runs0 ++ [run]) ++ [[r]]). split.
        -- rewrite !concat_app. simpl. by rewrite !app_nil_r.
        -- apply Forall2_app; [|constructor; [apply holds_run_open|constructor]].
           apply Forall2_app; [done|]. by constructor.
  - intros [_ H] Hruns. simpl in H. subst. inversion Hruns; subst.
    exists [[r]]. split; [done|]. constructor; [apply holds_run_open|constructor].
Qed.

(** The grouping cuts the frame into consecutive runs of rows, one per group
    and in the order of the groups; a group holds the rows of its run in
    file order: those whose trimmed set name is its [base_set] are its base
    rows, the others are its parallel rows. *)
Theorem grouping_keeps_file_order (df : list Row) :
  ∃ runs, concat runs = df ∧ Forall2 holds_run runs (group_rows df).
Proof.
  induction df as [|r df IH] using rev_ind.
  - exists []. split; [done|]. constructor.
  - destruct IH as (runs & Hc & Hruns).
    destruct (group_step_runs (grouper_run df) r runs (grouper_run_inv df) Hruns)
      as (runs' & Hc' & Hruns').
    exists runs'. rewrite group_rows_snoc. split; [|done]. by rewrite Hc', Hc.
Qed.

(** ** What merging keeps *)

Lemma group_members_absorb m g :
  group_members (absorb m g) = group_members m ++ group_members g.
Proof.
  unfold group_members, absorb. simpl.
  rewrite (fold_left_snoc (λ r, (r, normalize_text (base_set g)))).
  rewrite (fold_left_snoc (λ tup, tup)), map_id.
  rewrite !map_app, map_map. simpl. by rewrite map_id, <- !app_assoc.
Qed.

Lemma merge_scan_members merged g merged' :
  merge_scan merged g = Some merged' →
  concat (map group_members merged')
  ≡ₚ concat (map group_members merged) ++ group_members g.
Proof.
  revert merged'. induction merged as [|m merged IH]; intros merged'; simpl; [done|].
  destruct (is_parallel_candidate m g).
  - intros [= <-]. simpl. rewrite group_members_absorb, <- !app_assoc.
    apply Permutation_app_head, Permutation_app_comm.
  - destruct (merge_scan merged g) as [l|]; simpl; [|done].
    intros [= <-]. simpl. rewrite <- app_assoc.
    by apply Permutation_app_head, IH.
Qed.

Lemma merge_scan_base_part merged g merged' :
  merge_scan merged g = Some merged' → map base_part merged' = map base_part merged.
Proof.
  revert merged'. induction merged as [|m merged IH]; intros merged'; simpl; [done|].
  destruct (is_parallel_candidate m g).
  - by intros [= <-].
  - destruct (merge_scan merged g) as [l|]; simpl; [|done].
    intros [= <-]. simpl. by rewrite (IH l).
Qed.

Lemma merge_scan_Some_inv merged g merged' :
  merge_scan merged g = Some merged' →
  ∃ m, In m merged ∧ get_base_keys m = get_base_keys g.
Proof.
  revert merged'. induction merged as [|m merged IH]; intros merged'; simpl; [done|].
  destruct (is_parallel_candidate m g) eqn:E.
  - intros _. exists m. split; [by left|]. by apply candidate_iff.
  - destruct (merge_scan merged g) as [l|]; simpl; [|done].
    intros _. destruct (IH l eq_refl) as (m' & H1 & H2). exists m'. split; [by right|done].
Qed.

Lemma merge_scan_None_inv merged g :
  merge_scan merged g = None →
  ∀ m, In m merged → get_base_keys m ≠ get_base_keys g.
Proof.
  induction merged as [|m merged IH]; simpl; [by intros _ m []|].
  destruct (is_parallel_candidate m g) eqn:E; [done|].
  destruct (merge_scan merged g) as [l|]; simpl; [done|].
  intros _ m' [<-|H].
  - intros Heq. apply candidate_iff in Heq. by rewrite Heq in E.
  - by apply IH.
Qed.

Lemma base_keys_of_part l :
  map get_base_keys l
  = map (λ p : string * list Row, list_to_set (map base_key p.2)) (map base_part l).
Proof. by rewrite map_map. Qed.

Lemma group_rows_members df : concat (map group_members (group_rows df)) ≡ₚ df.
Proof.
  unfold group_rows. rewrite finish_members.
  unfold grouper_run. by rewrite fold_group_step_members.
Qed.

Lemma merge_step_nonempty merged g : merge_step merged g ≠ [].
Proof.
  unfold merge_step. destruct (merge_scan merged g) as [l|] eqn:E.
  - destruct merged as [|m merged]; [done|].
    apply merge_scan_base_part in E. by destruct l.
  - by destruct merged.
Qed.

Lemma merge_groups_nonempty gs : gs ≠ [] → merge_groups gs ≠ [].
Proof.
  destruct gs as [|g gs _] using rev_ind; [done|]. intros _.
  rewrite merge_groups_snoc. apply merge_step_nonempty.
Qed.

(** Merging moves rows and loses none: the rows held by the merged groups,
    counted with multiplicity, are the rows held by the groups merged; so
    after grouping and merging every row of the frame still sits in exactly
    one place of exactly one group.  Merging never makes more groups. *)
Theorem merging_keeps_rows (gs : list Group) (df : list Row) :
  concat (map group_members (merge_groups gs)) ≡ₚ concat (map group_members gs)
  ∧ length (merge_groups gs) ≤ length gs
  ∧ concat (map group_members (merge_groups (group_rows df))) ≡ₚ df.
Proof.
  assert (H : ∀ gs, concat (map group_members (merge_groups gs))
                    ≡ₚ concat (map group_members gs)
                    ∧ length (merge_groups gs) ≤ length gs).
  { clear gs. intros gs. induction gs as [|g gs [IH1 IH2]] using rev_ind; [done|].
    rewrite merge_groups_snoc, map_app, concat_app, length_app. simpl.
    rewrite app_nil_r. unfold merge_step.
    destruct (merge_scan (merge_groups gs) g) as [l|] eqn:E.
    - split.
      + rewrite (merge_scan_members _ _ _ E). by apply Permutation_app_tail.
      + apply merge_scan_base_part in E. apply (f_equal length) in E.
        rewrite !length_map in E. lia.
    - rewrite map_app, concat_app, length_app. simpl. rewrite app_nil_r. split.
      + by apply Permutation_app_tail.
      + lia. }
  destruct (H gs) as [H1 H2]. split; [done|]. split; [done|].
  rewrite (proj1 (H (group_rows df))). apply group_rows_members.
Qed.

Lemma merge_groups_fixed gs :
  NoDup (map get_base_keys gs) → merge_groups gs = gs.
Proof.
  induction gs as [|g gs IH] using rev_ind; [done|].
  rewrite map_app. intros (Hgs & Hg & _)%NoDup_app.
  rewrite merge_groups_snoc, IH by done. unfold merge_step.
  rewrite merge_scan_miss; [done|].
  intros m Hm Heq. apply (Hg (get_base_keys m)).
  - apply list_elem_of_In. by apply in_map.
  - rewrite Heq. apply list_elem_of_here.
Qed.

(** After merging no two groups have the same set of base-row keys; the
    merged groups are, by their [base_set] and base rows, a subsequence of
    the groups merged, beginning with the first of them; every group merged
    has its key set in exactly one merged group; and merging what has been
    merged changes nothing. *)
Theorem merged_groups_distinct_keys (gs : list Group) :
  List.NoDup (map get_base_keys (merge_groups gs))
  ∧ map base_part (merge_groups gs) `sublist_of` map base_part gs
  ∧ base_part <$> head (merge_groups gs) = base_part <$> head gs
  ∧ (∀ g, In g gs →
       ∃ m, In m (merge_groups gs) ∧ get_base_keys m = get_base_keys g)
  ∧ merge_groups (merge_groups gs) = merge_groups gs.
Proof.
  cut (List.NoDup (map get_base_keys (merge_groups gs))
       ∧ map base_part (merge_groups gs) `sublist_of` map base_part gs
       ∧ base_part <$> head (merge_groups gs) = base_part <$> head gs
       ∧ (∀ g, In g gs →
            ∃ m, In m (merge_groups gs) ∧ get_base_keys m = get_base_keys g)).
  { intros (H1 & H2 & H3 & H4). repeat (split; [done|]).
    by apply merge_groups_fixed, NoDup_ListNoDup. }
  induction gs as [|g gs (IH1 & IH2 & IH3 & IH4)] using rev_ind.
  { split; [constructor|]. split; [done|]. split; [done|]. by intros g []. }
  rewrite merge_groups_snoc. unfold merge_step.
  destruct (merge_scan (merge_groups gs) g) as [l|] eqn:E.
  - pose proof (merge_scan_base_part _ _ _ E) as Hbp.
    assert (Hk : map get_base_keys l = map get_base_keys (merge_groups gs))
      by by rewrite !base_keys_of_part, Hbp.
    split; [by rewrite Hk|]. split; [|split].
    + rewrite Hbp, map_app. by apply sublist_inserts_r.
    + transitivity (head (map base_part l)); [by destruct l|].
      rewrite Hbp. destruct gs as [|g0 gs]; [done|].
      simpl in *. rewrite <- IH3. by destruct (merge_groups (g0 :: gs)).
    + assert (Hin : ∀ m, In m (merge_groups gs) →
                         ∃ m', In m' l ∧ get_base_keys m' = get_base_keys m).
      { intros m Hm. apply (in_map get_base_keys) in Hm. rewrite <- Hk in Hm.
        apply in_map_iff in Hm as (m' & H1 & H2). by exists m'. }
      intros g' [Hg'|[<-|[]]]%in_app_or.
      * destruct (IH4 g' Hg') as (m & Hm & Hmk).
        destruct (Hin m Hm) as (m' & Hm' & Hmk'). exists m'. split; [done|].
        by rewrite Hmk'.
      * destruct (merge_scan_Some_inv _ _ _ E) as (m & Hm & Hmk).
        destruct (Hin m Hm) as (m' & Hm' & Hmk'). exists m'. split; [done|].
        by rewrite Hmk'.
  - pose proof (merge_scan_None_inv _ _ E) as Hnone.
    split; [|split; [|split]].
    + rewrite map_app. simpl. apply NoDup_ListNoDup, NoDup_app.
      split; [by apply NoDup_ListNoDup|]. split; [|apply NoDup_singleton].
      intros k Hk [->|[]%elem_of_nil]%elem_of_cons.
      apply list_elem_of_In, in_map_iff in Hk as (m & Hmk & Hm).
      by apply (Hnone m).
    + rewrite !map_app. by apply sublist_app.
    + destruct gs as [|g0 gs]; [done|].
      simpl in *. rewrite <- IH3. by destruct (merge_groups (g0 :: gs)).
    + intros g' [Hg'|[<-|[]]]%in_app_or.
      * destruct (IH4 g' Hg') as (m & Hm & Hmk). exists m. split; [|done].
        apply in_or_app. by left.
      * exists g. split; [|done]. apply in_or_app. right. by left.
Qed.

(** ** Relations kept by the parallels loop *)

Section LoopRelation.

Variable uuid4 : nat → string.
Variable set_attributes : list string.
Variable R : ParState → ParState → Prop.

Hypothesis R_refl : ∀ st, R st st.
Hypothesis R_trans : ∀ a b c, R a b → R b c → R a c.
Hypothesis R_attach :
  ∀ cards nums slp n name r cards',
    attach_parallel cards (normalize_card_number (CARD_NUMBER r))
      (card_level_parallel name r) = Some cards' →
    R (cards, nums, slp, n) (cards', nums, slp, n).
Hypothesis R_placeholder :
  ∀ cards nums slp n name r,
    (∀ c, In c cards → Card.number c ≠ normalize_card_number (CARD_NUMBER r)) →
    R (cards, nums, slp, n)
      (cards ++ [placeholder set_attributes (uuid4 n) name r],
       {[normalize_card_number (CARD_NUMBER r)]} ∪ nums, slp, S n).
Hypothesis R_set_level :
  ∀ cards nums slp n name seqs,
    R (cards, nums, slp, n) (cards, nums, slp ++ [set_level_parallel name seqs], n).

Lemma card_level_step_rel name st r :
  R st (card_level_step uuid4 set_attributes name st r).
Proof.
  destruct st as [[[cards nums] slp] n]. unfold card_level_step.
  destruct (attach_parallel _ _ _) as [cards'|] eqn:E.
  - by eapply R_attach.
  - apply R_placeholder. by apply (attach_parallel_None _ _ (card_level_parallel name r)).
Qed.

Lemma card_level_rows_rel name rows st :
  R st (fold_left (card_level_step uuid4 set_attributes name) rows st).
Proof.
  revert st. induction rows as [|r rows IH]; intros st; simpl; [done|].
  eapply R_trans; [apply (card_level_step_rel name st r)|apply IH].
Qed.

Lemma parallel_name_step_rel st item :
  R st (parallel_name_step uuid4 set_attributes st item).
Proof.
  destruct item as [name rows]. destruct st as [[[cards nums] slp] n].
  unfold parallel_name_step. destruct (scan_rows rows) as [pcn pseq].
  case_bool_decide; [apply R_set_level|apply card_level_rows_rel].
Qed.

Lemma parallels_loop_rel items st :
  R st (parallels_loop uuid4 set_attributes items st).
Proof.
  unfold parallels_loop. revert st.
  induction items as [|item items IH]; intros st; simpl; [done|].
  eapply R_trans; [apply (parallel_name_step_rel st item)|apply IH].
Qed.

End LoopRelation.

(** ** The cards of a set *)

(** Every set object has the name of its group's [base_set] and no
    variations.  Every card of it carries exactly the attributes inferred
    from that name (the key is absent when none is inferred) and has lost the
    temporary [_sequence]; a card with a note has the note
    [No Base Set Version] and at least one parallel. *)
Theorem set_cards_carry_set_attributes (uuid4 : nat → string) (group : Group)
    (n : nat) :
  let s := (process_group uuid4 group n).1.1 in
  CardSet.name s = base_set group
  ∧ CardSet.variations s = []
  ∧ ∀ c, In c (CardSet.cards s) →
      Card.attributes c = attributes_key (get_attributes_for_set (base_set group))
      ∧ (Card.attributes c = None ↔ get_attributes_for_set (base_set group) = [])
      ∧ Card._sequence c = None
      ∧ (Card.note c = None
         ∨ Card.note c = Some "No Base Set Version"
           ∧ ∃ p ps, Card.parallels c = Some (ps ++ [p])).
Proof.
  intros s. unfold s. split; [by rewrite process_group_eq|].
  split; [by rewrite process_group_eq|].
  apply (set_cards_Forall uuid4
    (λ c, Card.attributes c = attributes_key (get_attributes_for_set (base_set group))
          ∧ (Card.attributes c = None ↔ get_attributes_for_set (base_set group) = [])
          ∧ Card._sequence c = None
          ∧ (Card.note c = None
             ∨ Card.note c = Some "No Base Set Version"
               ∧ ∃ p ps, Card.parallels c = Some (ps ++ [p])))).
  - intros name r c (H1 & H2 & H3 & H4). split; [done|]. split; [done|].
    split; [done|]. destruct H4 as [H4|[H4 _]]; [by left|]. right. split; [done|].
    by eexists _, _.
  - intros uid name r. split; [done|]. split.
    + simpl. by destruct (get_attributes_for_set (base_set group)).
    + split; [done|]. right. split; [done|]. by exists (card_level_parallel name r), [].
  - intros i r _. split; [done|]. split.
    + simpl. by destruct (get_attributes_for_set (base_set group)).
    + split; [done|]. by left.
Qed.

(** ** Identifiers *)

Lemma uniqueId_erase c : Card.uniqueId (erase c) = Card.uniqueId c.
Proof. done. Qed.

Lemma map_uniqueId_erase l l' :
  map erase l = map erase l' → map Card.uniqueId l = map Card.uniqueId l'.
Proof.
  intros H. apply (f_equal (map Card.uniqueId)) in H.
  by rewrite !map_map in H.
Qed.

Lemma parallels_loop_draws uuid4 attrs items st :
  draws uuid4 st (parallels_loop uuid4 attrs items st).
Proof.
  apply parallels_loop_rel.
  - intros st0. exists 0. simpl. by rewrite Nat.add_0_r, app_nil_r.
  - intros a b c (k1 & Hn1 & H1) (k2 & Hn2 & H2). exists (k1 + k2).
    split; [lia|]. rewrite H2, H1, Hn1, seq_app, map_app. by rewrite <- app_assoc.
  - intros cards nums slp n name r cards' H. exists 0. simpl.
    rewrite Nat.add_0_r, app_nil_r. split; [done|].
    by apply map_uniqueId_erase, (attach_parallel_erase _ _ _ _ H).
  - intros cards nums slp n name r _. exists 1. simpl.
    split; [lia|]. by rewrite map_app.
  - intros cards nums slp n name seqs. exists 0. simpl.
    by rewrite Nat.add_0_r, app_nil_r.
Qed.

Lemma cards_from_ids {A} uuid4 (f : string → A → Card.t) n rows :
  (∀ uid r, Card.uniqueId (f uid r) = uid) →
  map Card.uniqueId (cards_from uuid4 f n rows) = map uuid4 (seq n (length rows)).
Proof.
  intros Hf. revert n. induction rows as [|r rows IH]; intros n; [done|].
  simpl. by rewrite Hf, IH.
Qed.

Lemma sublist_map_inv {A B} (f : A → B) (l : list B) (k : list A) :
  l `sublist_of` map f k → ∃ k', l = map f k' ∧ k' `sublist_of` k.
Proof.
  revert l. induction k as [|x k IH]; intros l; simpl.
  - intros ->%sublist_nil_r. by exists [].
  - intros [H|(l' & -> & H)]%sublist_cons_r.
    + destruct (IH l H) as (k' & -> & Hk'). exists k'. split; [done|].
      by apply sublist_cons.
    + destruct (IH l' H) as (k' & -> & Hk'). exists (x :: k'). split; [done|].
      by apply sublist_skip.
Qed.

(** The identifiers of the set of a group: the cards as constructed have the
    identifiers of the calls [n], [n+1], ... in order, the set object has the
    next one. *)
Lemma process_group_ids uuid4 group n :
  ∃ k idx,
    (process_group uuid4 group n).1.2 = n + S k
    ∧ set_ids (process_group uuid4 group n).1.1 = map uuid4 idx
    ∧ idx `sublist_of` seq n (S k).
Proof.
  rewrite process_group_eq. unfold set_ids. simpl.
  destruct (parallels_loop_draws uuid4 (get_attributes_for_set (base_set group))
              (parallels_by_name (parallel_rows group))
              (cards_from uuid4
                 (base_card (get_attributes_for_set (base_set group))
                    match uniform_sequence (present_sequences (base_rows group)) with
                    | Some _ => true | None => false end) n (base_rows group),
               row_numbers (base_rows group), [],
               n + length (base_rows group))) as (k & Hn & Hids).
  fold (parallels_result uuid4 group n) in Hn, Hids. simpl in Hn, Hids.
  rewrite cards_from_ids in Hids by done.
  rewrite <- map_app, <- seq_app in Hids.
  pose proof (keep_unseen_sublist ∅ (parallels_result uuid4 group n).1.1.1) as Hsub.
  apply (fmap_sublist Card.uniqueId) in Hsub.
  change (Card.uniqueId <$> ?l) with (map Card.uniqueId l) in Hsub.
  rewrite Hids in Hsub.
  apply sublist_map_inv in Hsub as (idx0 & Hidx0 & Hsub0).
  exists (length (base_rows group) + k), (idx0 ++ [(parallels_result uuid4 group n).2]).
  split; [lia|]. split.
  - rewrite map_app. simpl. by rewrite Hidx0.
  - rewrite Hn.
    cut (idx0 ++ [n + length (base_rows group) + k]
         `sublist_of` seq n (S (length (base_rows group) + k))); [done|].
    rewrite seq_S. apply sublist_app; [done|].
    by replace (n + (length (base_rows group) + k))
      with (n + length (base_rows group) + k) by lia.
Qed.

Lemma sets_fold_ids uuid4 groups st :
  ∃ k idx,
    (fold_left (sets_step uuid4) groups st).1.2 = st.1.2 + k
    ∧ concat (map set_ids (fold_left (sets_step uuid4) groups st).1.1)
      = concat (map set_ids st.1.1) ++ map uuid4 idx
    ∧ idx `sublist_of` seq st.1.2 k.
Proof.
  revert st. induction groups as [|g groups IH]; intros st; simpl.
  - exists 0, []. simpl. by rewrite Nat.add_0_r, app_nil_r.
  - destruct (IH (sets_step uuid4 st g)) as (k2 & idx2 & Hn2 & Hids2 & Hsub2).
    destruct st as [[sets n] printed]. unfold sets_step in *.
    destruct (process_group_ids uuid4 g n) as (k1 & idx1 & Hn1 & Hids1 & Hsub1).
    destruct (process_group uuid4 g n) as [[s n'] lines]. simpl in *.
    exists (S k1 + k2), (idx1 ++ idx2). split; [lia|]. split.
    + rewrite Hids2, map_app, concat_app. simpl.
      by rewrite app_nil_r, Hids1, map_app, <- app_assoc.
    + rewrite seq_app. apply sublist_app; [done|].
      by replace (n + S k1) with n' by lia.
Qed.

(** The identifiers of a document, those of its cards, of its sets and its
    own, come each from a different call of [uuid4]; so they are pairwise
    distinct as soon as [uuid4] never returns the same identifier twice. *)
Theorem identifiers_from_distinct_calls (uuid4 : nat → string)
    (read_csv : string → Exception + list Row) (can_print : string → bool)
    (file_path : string) (printed : list string) (doc : Release.t) :
  process_csv_with_pandas uuid4 read_csv can_print file_path
  = (printed, inr doc) →
  ∃ calls,
    document_ids doc = map uuid4 calls
    ∧ List.NoDup calls
    ∧ ((∀ i j, uuid4 i = uuid4 j → i = j) → List.NoDup (document_ids doc)).
Proof.
  intros (row0 & df & sets & n & _ & _ & _ & _ & Hst & ->)%process_csv_document.
  destruct (sets_fold_ids uuid4 (merge_groups (group_rows (row0 :: df))) ([], 0, []))
    as (k & idx & Hn & Hids & Hsub).
  rewrite Hst in Hn, Hids. simpl in Hn, Hids, Hsub.
  unfold document_ids. simpl. subst n.
  assert (Hnd : NoDup (idx ++ [k])).
  { apply (sublist_NoDup _ (seq 0 (S k))); [apply NoDup_seq|].
    rewrite seq_S. by apply sublist_app. }
  exists (idx ++ [k]). split; [by rewrite Hids, map_app|].
  split; [by apply NoDup_ListNoDup|].
  intros Hinj. rewrite Hids.
  change (map uuid4 idx ++ [uuid4 k]) with (map uuid4 idx ++ map uuid4 [k]).
  rewrite <- map_app. apply NoDup_ListNoDup.
  assert (Inj eq eq uuid4) by exact Hinj.
  by apply (NoDup_fmap_2 uuid4).
Qed.

Lemma identifiers_from_distinct_calls_witness :
  ∃ printed doc,
    process_csv_with_pandas sample_uuid4 (csv_of uniform_with_placeholder)
      (λ _, true) "in.csv"
    = (printed, inr doc)
    ∧ ∃ calls, document_ids doc = map sample_uuid4 calls ∧ List.NoDup calls.
Proof.
  eexists _, _.
  match goal with |- ?A ∧ _ => assert (H0 : A) by (vm_compute; reflexivity) end.
  split; [exact H0|].
  destruct (identifiers_from_distinct_calls _ _ _ _ _ _ H0)
    as (calls & H1 & H2 & _).
  by exists calls.
Defined.

(** ** When the duplicate warning is printed *)

Lemma map_key_erase l l' :
  map erase l = map erase l' → map Card.key l = map Card.key l'.
Proof.
  intros H. apply (f_equal (map Card.key)) in H.
  rewrite !map_map in H. done.
Qed.

Lemma map_fst_key l : map fst (map Card.key l) = map Card.number l.
Proof. by rewrite map_map. Qed.

Lemma parallels_loop_appends_fresh uuid4 attrs items st :
  appends_fresh st (parallels_loop uuid4 attrs items st).
Proof.
  apply parallels_loop_rel.
  - intros st0. exists []. rewrite app_nil_r. split; [done|].
    split; [constructor|]. by intros k [].
  - intros a b c (e1 & H1 & N1 & F1) (e2 & H2 & N2 & F2).
    exists (e1 ++ e2). rewrite H2, H1, <- app_assoc. split; [done|].
    assert (Hb : map Card.number b.1.1.1 = map Card.number a.1.1.1 ++ map fst e1).
    { by rewrite <- !map_fst_key, H1, map_app. }
    split.
    + rewrite map_app. apply NoDup_ListNoDup, NoDup_app.
      split; [by apply NoDup_ListNoDup|]. split; [|by apply NoDup_ListNoDup].
      intros x Hx1 Hx2. apply list_elem_of_In in Hx1, Hx2.
      apply in_map_iff in Hx2 as (k & <- & Hk).
      apply (F2 k Hk). rewrite Hb. apply in_or_app. by right.
    + intros k [Hk|Hk]%in_app_or; [by apply F1|].
      intros Hin. apply (F2 k Hk). rewrite Hb. apply in_or_app. by left.
  - intros cards nums slp n name r cards' H. exists []. simpl.
    rewrite app_nil_r. split; [|split; [constructor|by intros k []]].
    by apply map_key_erase, (attach_parallel_erase _ _ _ _ H).
  - intros cards nums slp n name r Hnone.
    exists [Card.key (placeholder attrs (uuid4 n) name r)]. simpl.
    split; [by rewrite map_app|].
    split; [constructor; [intros []|constructor]|].
    intros k [<-|[]]. simpl. intros (c & Hc & Hin)%in_map_iff.
    by apply (Hnone c Hin).
  - intros cards nums slp n name seqs. exists []. simpl.
    rewrite app_nil_r. split; [done|]. split; [constructor|]. by intros k [].
Qed.

Lemma NoDup_app_fresh (keys extra : list (string * string)) :
  List.NoDup (map fst extra) →
  (∀ k, In k extra → ¬ In k.1 (map fst keys)) →
  List.NoDup (keys ++ extra) ↔ List.NoDup keys.
Proof.
  intros Hnd Hfresh. rewrite <- !NoDup_ListNoDup, NoDup_app. split; [by intros [? _]|].
  intros Hk. split; [done|]. split.
  - intros k Hk1 Hk2. apply list_elem_of_In in Hk1, Hk2.
    apply (Hfresh k Hk2). by apply in_map.
  - apply NoDup_ListNoDup in Hnd. by apply (NoDup_fmap_1 fst).
Qed.

Lemma cards_from_keys uuid4 attrs u n rows :
  map Card.key (cards_from uuid4 (base_card attrs u) n rows) = map base_key rows.
Proof.
  revert n. induction rows as [|r rows IH]; intros n; [done|].
  simpl. by rewrite IH.
Qed.

Lemma process_group_meets uuid4 group n :
  ∃ extra,
    map Card.key (parallels_result uuid4 group n).1.1.1
    = map base_key (base_rows group) ++ extra
    ∧ List.NoDup (map fst extra)
    ∧ (∀ k, In k extra → ¬ In k.1 (map fst (map base_key (base_rows group))))
    ∧ (meets_seen ∅ (parallels_result uuid4 group n).1.1.1 = false
       ↔ List.NoDup (map base_key (base_rows group))).
Proof.
  destruct (parallels_loop_appends_fresh uuid4 (get_attributes_for_set (base_set group))
              (parallels_by_name (parallel_rows group))
              (cards_from uuid4
                 (base_card (get_attributes_for_set (base_set group))
                    match uniform_sequence (present_sequences (base_rows group)) with
                    | Some _ => true | None => false end) n (base_rows group),
               row_numbers (base_rows group), [],
               n + length (base_rows group))) as (extra & Hkeys & Hnd & Hfresh).
  fold (parallels_result uuid4 group n) in Hkeys. simpl in Hkeys, Hfresh.
  rewrite cards_from_keys in Hkeys.
  rewrite <- map_fst_key, cards_from_keys in Hfresh.
  exists extra. split; [done|]. split; [done|]. split; [done|].
  rewrite meets_seen_false, Hkeys, NoDup_app_fresh by done.
  split; [by intros [? _]|]. intros H. split; [done|].
  intros c _. apply not_elem_of_empty.
Qed.

Lemma process_group_printed uuid4 group n :
  (process_group uuid4 group n).2
  = if bool_decide (NoDup (map base_key (base_rows group))) then []
    else [duplicate_warning (base_set group)].
Proof.
  rewrite process_group_eq. simpl.
  destruct (process_group_meets uuid4 group n) as (_ & _ & _ & _ & Hiff).
  rewrite <- NoDup_ListNoDup in Hiff.
  destruct (meets_seen _ _).
  - rewrite bool_decide_eq_false_2; [done|]. intros H. by apply Hiff in H.
  - by rewrite bool_decide_eq_true_2 by by apply Hiff.
Qed.

(** The duplicate warning of a set is printed exactly when two base rows of
    its group have the same key (canonical card number, trimmed athlete
    name): a card synthesized for a parallel row never duplicates a card.
    When no two base rows do, the cards of the set are, in order, one card per
    base row, followed by the synthesized cards, whose numbers are distinct
    and are not base card numbers. *)
Theorem warning_iff_duplicate_base_rows (uuid4 : nat → string) (group : Group)
    (n : nat) :
  let result := process_group uuid4 group n in
  (result.2 = [] ↔ List.NoDup (map base_key (base_rows group)))
  ∧ (result.2 ≠ [] → result.2 = [duplicate_warning (base_set group)])
  ∧ (List.NoDup (map base_key (base_rows group)) →
     ∃ extra,
       map Card.key (CardSet.cards result.1.1)
       = map base_key (base_rows group) ++ extra
       ∧ List.NoDup (map fst extra)
       ∧ ∀ k r, In k extra → In r (base_rows group) →
                k.1 ≠ normalize_card_number (CARD_NUMBER r)).
Proof.
  intros result. unfold result. rewrite process_group_printed.
  split; [|split].
  - rewrite <- NoDup_ListNoDup. case_bool_decide; [done|]. split; [done|]. by intros H'.
  - by case_bool_decide.
  - intros Hbase. rewrite process_group_eq. simpl.
    destruct (process_group_meets uuid4 group n) as (extra & Hkeys & Hnd & Hfresh & Hiff).
    apply Hiff in Hbase. exists extra.
    rewrite (keep_unseen_id _ _ Hbase). split; [done|]. split; [done|].
    intros k r Hk Hr Heq. apply (Hfresh k Hk). rewrite Heq.
    apply in_map_iff. exists (base_key r). split; [done|]. by apply in_map.
Qed.

(** ** Parallel rows by name *)

Lemma elem_of_first_occurrences l x : x ∈ first_occurrences l ↔ x ∈ l.
Proof.
  induction l as [|y l IH]; simpl; [done|].
  rewrite !elem_of_cons, list_elem_of_filter, IH.
  destruct (decide (x = y)); naive_solver.
Qed.

Lemma first_occurrences_snoc l k :
  first_occurrences (l ++ [k])
  = if decide (k ∈ l) then first_occurrences l else first_occurrences l ++ [k].
Proof.
  induction l as [|x l IH].
  - destruct (decide (k ∈ [])) as [H|H]; [by apply not_elem_of_nil in H|done].
  - cbn [app first_occurrences]. rewrite IH. destruct (decide (k = x)) as [->|Hne].
    + rewrite (decide_True (P := x ∈ x :: l)) by apply list_elem_of_here.
      destruct (decide (x ∈ l)); [done|].
      rewrite filter_app, filter_cons_False, filter_nil, app_nil_r; [done|].
      by intros H.
    + destruct (decide (k ∈ l)) as [Hk|Hk].
      * by rewrite decide_True by by apply list_elem_of_further.
      * rewrite decide_False by (intros [?|?]%elem_of_cons; done).
        by rewrite filter_app, filter_cons_True, filter_nil.
Qed.

Lemma setdefault_append_spec d k r :
  NoDup (map fst d) →
  setdefault_append d k r
  = if decide (k ∈ map fst d)
    then map (λ item : string * list Row,
                (item.1, if decide (item.1 = k) then item.2 ++ [r] else item.2)) d
    else d ++ [(k, [r])].
Proof.
  induction d as [|[k' rows] d IH].
  - intros _. cbn [setdefault_append map].
    destruct (decide (k ∈ [])) as [H|H]; [by apply not_elem_of_nil in H|done].
  - cbn [setdefault_append map fst]. intros [Hk' Hd]%NoDup_cons.
    destruct (String.eqb_spec k' k) as [->|Hne].
    + rewrite decide_True by apply list_elem_of_here.
      cbn [fst snd]. rewrite decide_True by done. f_equal.
      symmetry. etransitivity; [|apply map_id]. apply map_ext_in.
      intros [k2 rows2] Hin. cbn [fst snd]. rewrite decide_False; [done|].
      intros ->. apply Hk', list_elem_of_In, in_map_iff. by exists (k, rows2).
    + rewrite IH by done. destruct (decide (k ∈ map fst d)) as [Hk|Hk].
      * rewrite decide_True by by apply list_elem_of_further.
        cbn [fst snd]. by rewrite decide_False.
      * rewrite decide_False; [done|].
        intros [?|?]%elem_of_cons; done.
Qed.

Lemma parallels_by_name_snoc prs r k :
  parallels_by_name (prs ++ [(r, k)]) = setdefault_append (parallels_by_name prs) k r.
Proof. unfold parallels_by_name. by rewrite fold_left_app. Qed.

Lemma rows_named_snoc prs r k name :
  rows_named (prs ++ [(r, k)]) name
  = rows_named prs name ++ (if decide (k = name) then [r] else []).
Proof.
  unfold rows_named. rewrite filter_app, map_app. f_equal.
  destruct (decide (k = name)) as [->|Hne].
  - by rewrite filter_cons_True.
  - by rewrite filter_cons_False.
Qed.

Lemma rows_named_absent prs name : name ∉ map snd prs → rows_named prs name = [].
Proof.
  unfold rows_named. induction prs as [|[r k] prs IH]; simpl; [done|].
  intros H. rewrite filter_cons_False.
  - apply IH. intros Hin. apply H. by apply list_elem_of_further.
  - simpl. intros ->. apply H. apply list_elem_of_here.
Qed.

Lemma parallels_by_name_eq prs :
  parallels_by_name prs
  = map (λ name, (name, rows_named prs name)) (first_occurrences (map snd prs)).
Proof.
  induction prs as [|[r k] prs IH] using rev_ind; [done|].
  rewrite parallels_by_name_snoc, IH, map_app. simpl.
  rewrite first_occurrences_snoc, setdefault_append_spec;
    rewrite map_map; simpl; rewrite map_id; [|apply first_occurrences_NoDup].
  destruct (decide (k ∈ first_occurrences (map snd prs))) as [Hk|Hk].
  - rewrite decide_True by by apply elem_of_first_occurrences.
    rewrite map_map. apply map_ext. intros name. simpl.
    rewrite rows_named_snoc. f_equal.
    destruct (decide (name = k)) as [->|Hne].
    + by rewrite decide_True.
    + rewrite decide_False by done. by rewrite app_nil_r.
  - assert (Hk' : k ∉ map snd prs) by by rewrite <- elem_of_first_occurrences.
    rewrite decide_False by done. rewrite map_app. simpl. f_equal.
    + apply map_ext_in. intros name Hin. rewrite rows_named_snoc.
      rewrite decide_False; [by rewrite app_nil_r|].
      intros ->. apply Hk. by apply list_elem_of_In.
    + rewrite rows_named_snoc, rows_named_absent by done.
      by rewrite decide_True.
Qed.

Lemma rows_named_In prs r name : In (r, name) prs → In r (rows_named prs name).
Proof.
  intros H. unfold rows_named. apply in_map_iff. exists (r, name).
  split; [done|]. apply list_elem_of_In, list_elem_of_filter.
  split; [done|]. by apply list_elem_of_In.
Qed.

Lemma parallels_by_name_In prs r name :
  In (r, name) prs → In (name, rows_named prs name) (parallels_by_name prs).
Proof.
  intros H. rewrite parallels_by_name_eq. apply in_map_iff. exists name.
  split; [done|].
  apply list_elem_of_In, elem_of_first_occurrences, list_elem_of_In, in_map_iff.
  by exists (r, name).
Qed.

(** [parallels_by_name] has one item for each parallel name of
    [parallel_rows], in the order in which the names first appear; the item
    of a name holds the rows that carry the name, all of them and in their
    order, so no item is empty and every parallel row is in the item of its
    name. *)
Theorem parallels_by_name_groups (parallel_rows : list (Row * string)) :
  parallels_by_name parallel_rows
  = map (λ name, (name, rows_named parallel_rows name))
        (first_occurrences (map snd parallel_rows))
  ∧ List.NoDup (map fst (parallels_by_name parallel_rows))
  ∧ (∀ name rows, In (name, rows) (parallels_by_name parallel_rows) → rows ≠ [])
  ∧ (∀ r name, In (r, name) parallel_rows →
       In (name, rows_named parallel_rows name) (parallels_by_name parallel_rows)
       ∧ In r (rows_named parallel_rows name)).
Proof.
  split; [apply parallels_by_name_eq|]. split; [|split].
  - rewrite parallels_by_name_keys. apply NoDup_ListNoDup, first_occurrences_NoDup.
  - intros name rows. rewrite parallels_by_name_eq.
    intros (name' & [= <- <-] & Hname)%in_map_iff.
    apply list_elem_of_In in Hname. apply (proj1 (elem_of_first_occurrences _ _)) in Hname.
    apply list_elem_of_In in Hname.
    apply in_map_iff in Hname as ([r k] & <- & Hrk).
    intros Hnil. apply rows_named_In in Hrk. simpl in *. by rewrite Hnil in Hrk.
  - intros r name H. split; [by apply (parallels_by_name_In _ r)|by apply rows_named_In].
Qed.

(** ** Where the rows of a group end up *)

Lemma has_parallel_attach p q c : has_parallel p c → has_parallel p (Card.attach q c).
Proof.
  intros (ps & Hps & Hin). exists (ps ++ [q]). split.
  - unfold Card.attach. simpl. by rewrite Hps.
  - apply in_or_app. by left.
Qed.

Lemma has_parallel_attached p c : has_parallel p (Card.attach p c).
Proof.
  exists (default [] (Card.parallels c) ++ [p]). split; [done|].
  apply in_or_app. right. by left.
Qed.

Lemma first_with_attach num cards num' q cards' c :
  attach_parallel cards num' q = Some cards' →
  first_with num cards = Some c →
  ∃ c', first_with num cards' = Some c' ∧ (c' = c ∨ c' = Card.attach q c).
Proof.
  revert cards'. induction cards as [|c0 cards IH]; intros cards'; simpl; [done|].
  destruct (String.eqb (Card.number c0) num') eqn:E1.
  - intros [= <-]. simpl. destruct (String.eqb (Card.number c0) num) eqn:E2.
    + intros [= <-]. exists (Card.attach q c0). split; [done|]. by right.
    + intros H. exists c. split; [done|]. by left.
  - destruct (attach_parallel cards num' q) as [l|]; simpl; [|done].
    intros [= <-]. simpl. destruct (String.eqb (Card.number c0) num) eqn:E2.
    + intros [= <-]. exists c0. split; [done|]. by left.
    + intros H. by apply (IH l).
Qed.

Lemma first_with_attached cards num q cards' :
  attach_parallel cards num q = Some cards' →
  ∃ c, first_with num cards' = Some (Card.attach q c).
Proof.
  revert cards'. induction cards as [|c0 cards IH]; intros cards'; simpl; [done|].
  destruct (String.eqb (Card.number c0) num) eqn:E1.
  - intros [= <-]. simpl. rewrite E1. by exists c0.
  - destruct (attach_parallel cards num q) as [l|]; simpl; [|done].
    intros [= <-]. simpl. rewrite E1. by apply IH.
Qed.

Lemma first_with_app num cards l c :
  first_with num cards = Some c → first_with num (cards ++ l) = Some c.
Proof.
  induction cards as [|c0 cards IH]; simpl; [done|].
  by destruct (String.eqb (Card.number c0) num).
Qed.

Lemma first_with_snoc num cards c :
  (∀ c0, In c0 cards → Card.number c0 ≠ num) → Card.number c = num →
  first_with num (cards ++ [c]) = Some c.
Proof.
  intros Hnone Hc. induction cards as [|c0 cards IH]; simpl.
  - by rewrite (proj2 (String.eqb_eq _ _) Hc).
  - rewrite (proj2 (String.eqb_neq _ _) (Hnone c0 (or_introl eq_refl))).
    apply IH. intros c1 H1. apply Hnone. by right.
Qed.

Lemma first_with_split num cards c :
  first_with num cards = Some c →
  ∃ pre post, cards = pre ++ c :: post ∧ Card.number c = num
              ∧ ∀ c0, In c0 pre → Card.number c0 ≠ num.
Proof.
  induction cards as [|c0 cards IH]; simpl; [done|].
  destruct (String.eqb_spec (Card.number c0) num) as [Heq|Hne].
  - intros [= <-]. by exists [], cards.
  - intros H. destruct (IH H) as (pre & post & -> & Hc & Hpre).
    exists (c0 :: pre), post. split; [done|]. split; [done|].
    intros c1 [<-|H1]; [done|]. by apply Hpre.
Qed.

Lemma first_with_survives num cards c :
  first_with num cards = Some c → In c (keep_unseen ∅ cards).
Proof.
  intros (pre & post & -> & Hc & Hpre)%first_with_split.
  apply keep_unseen_keeps; [apply not_elem_of_empty|].
  intros c0 H0 Hkey. apply (Hpre c0 H0).
  apply (f_equal fst) in Hkey. simpl in Hkey. by rewrite Hkey.
Qed.

Section Represented.

Variable uuid4 : nat → string.
Variable set_attributes : list string.

(** Once the first card with a number has a parallel, or a name is recorded
    at the set level, the loop keeps it so. *)
Lemma parallels_loop_keeps num p name items st :
  (first_card_has num p st.1.1.1 →
   first_card_has num p (parallels_loop uuid4 set_attributes items st).1.1.1)
  ∧ (In name (map Parallel.name st.1.2) →
     In name (map Parallel.name (parallels_loop uuid4 set_attributes items st).1.2)).
Proof.
  apply (parallels_loop_rel uuid4 set_attributes
    (λ a b, (first_card_has num p a.1.1.1 → first_card_has num p b.1.1.1)
            ∧ (In name (map Parallel.name a.1.2) → In name (map Parallel.name b.1.2)))).
  - done.
  - intros a b c [H1 H2] [H3 H4]. split; auto.
  - intros cards nums slp n name' r cards' H. simpl. split; [|done].
    intros (c & Hc & Hp).
    destruct (first_with_attach num _ _ _ _ c H Hc) as (c' & Hc' & [->| ->]).
    + by exists c.
    + exists (Card.attach (card_level_parallel name' r) c). split; [done|].
      by apply has_parallel_attach.
  - intros cards nums slp n name' r _. simpl. split; [|done].
    intros (c & Hc & Hp). exists c. split; [|done]. by apply first_with_app.
  - intros cards nums slp n name' seqs. simpl. split; [done|].
    intros H. rewrite map_app. apply in_or_app. by left.
Qed.

Lemma card_level_rows_keeps num p name rows st :
  first_card_has num p st.1.1.1 →
  first_card_has num p
    (fold_left (card_level_step uuid4 set_attributes name) rows st).1.1.1.
Proof.
  apply (card_level_rows_rel uuid4 set_attributes
    (λ a b, first_card_has num p a.1.1.1 → first_card_has num p b.1.1.1)).
  - done.
  - intros a b c H1 H2. auto.
  - intros cards nums slp n name' r cards' H. simpl.
    intros (c & Hc & Hp).
    destruct (first_with_attach num _ _ _ _ c H Hc) as (c' & Hc' & [->| ->]).
    + by exists c.
    + exists (Card.attach (card_level_parallel name' r) c). split; [done|].
      by apply has_parallel_attach.
  - intros cards nums slp n name' r _. simpl.
    intros (c & Hc & Hp). exists c. split; [|done]. by apply first_with_app.
Qed.

Lemma card_level_step_attaches name st r :
  first_card_has (normalize_card_number (CARD_NUMBER r)) (card_level_parallel name r)
    (card_level_step uuid4 set_attributes name st r).1.1.1.
Proof.
  destruct st as [[[cards nums] slp] n]. unfold card_level_step.
  destruct (attach_parallel _ _ _) as [cards'|] eqn:E; simpl.
  - destruct (first_with_attached _ _ _ _ E) as [c Hc].
    exists (Card.attach (card_level_parallel name r) c). split; [done|].
    apply has_parallel_attached.
  - exists (placeholder set_attributes (uuid4 n) name r). split.
    + apply first_with_snoc; [|done].
      by apply (attach_parallel_None _ _ (card_level_parallel name r)).
    + exists [card_level_parallel name r]. split; [done|]. by left.
Qed.

Lemma card_level_rows_attach name rows st r :
  In r rows →
  first_card_has (normalize_card_number (CARD_NUMBER r)) (card_level_parallel name r)
    (fold_left (card_level_step uuid4 set_attributes name) rows st).1.1.1.
Proof.
  revert st. induction rows as [|r0 rows IH]; intros st; simpl; [done|].
  intros [->|H]; [|by apply IH].
  apply card_level_rows_keeps, card_level_step_attaches.
Qed.

Lemma parallels_loop_represents items st name rows r :
  In (name, rows) items → In r rows →
  In name (map Parallel.name (parallels_loop uuid4 set_attributes items st).1.2)
  ∨ first_card_has (normalize_card_number (CARD_NUMBER r)) (card_level_parallel name r)
      (parallels_loop uuid4 set_attributes items st).1.1.1.
Proof.
  revert st. induction items as [|item items IH]; intros st; simpl; [done|].
  intros [->|H] Hr; [|by apply IH].
  fold (parallels_loop uuid4 set_attributes items
          (parallel_name_step uuid4 set_attributes st (name, rows))).
  destruct (parallels_loop_keeps (normalize_card_number (CARD_NUMBER r))
              (card_level_parallel name r) name items
              (parallel_name_step uuid4 set_attributes st (name, rows))) as [HJ HK].
  destruct st as [[[cards nums] slp] n]. unfold parallel_name_step in *.
  destruct (scan_rows rows) as [pcn pseq]. case_bool_decide.
  - left. apply HK. simpl. rewrite map_app. apply in_or_app. right. by left.
  - right. apply HJ. by apply card_level_rows_attach.
Qed.

End Represented.

(** Every row of a group is represented in its set.  A base row has a card
    with its key (canonical card number, trimmed athlete name).  A parallel
    row either has its parallel name among the set-level parallels, or its
    own card-level parallel (the name, with the row's sequence value if it
    has one) is among the parallels of a card of the set that has the row's
    canonical card number. *)
Theorem every_row_is_represented (uuid4 : nat → string) (group : Group) (n : nat) :
  let s := (process_group uuid4 group n).1.1 in
  (∀ r, In r (base_rows group) →
     ∃ c, In c (CardSet.cards s) ∧ Card.key c = base_key r)
  ∧ (∀ r name, In (r, name) (parallel_rows group) →
       In name (map Parallel.name (CardSet.parallels s))
       ∨ ∃ c ps, In c (CardSet.cards s)
                 ∧ Card.number c = normalize_card_number (CARD_NUMBER r)
                 ∧ Card.parallels c = Some ps
                 ∧ In (card_level_parallel name r) ps).
Proof.
  intros s. unfold s. rewrite process_group_eq. simpl. split.
  - intros r Hr.
    destruct (parallels_loop_appends_fresh uuid4 (get_attributes_for_set (base_set group))
                (parallels_by_name (parallel_rows group))
                (cards_from uuid4
                   (base_card (get_attributes_for_set (base_set group))
                      match uniform_sequence (present_sequences (base_rows group)) with
                      | Some _ => true | None => false end) n (base_rows group),
                 row_numbers (base_rows group), [],
                 n + length (base_rows group))) as (extra & Hkeys & _).
    fold (parallels_result uuid4 group n) in Hkeys. simpl in Hkeys.
    rewrite cards_from_keys in Hkeys.
    assert (Hin : In (base_key r) (map Card.key (parallels_result uuid4 group n).1.1.1)).
    { rewrite Hkeys. apply in_or_app. left. by apply in_map. }
    apply in_map_iff in Hin as (c & Hc & Hin).
    destruct (keep_unseen_covers ∅ _ c Hin) as [H|H];
      [by apply not_elem_of_empty in H|].
    apply in_map_iff in H as (c' & Hc' & Hin'). exists c'. split; [done|].
    by rewrite Hc'.
  - intros r name Hrn.
    pose proof (parallels_by_name_In _ _ _ Hrn) as Hitems.
    pose proof (rows_named_In _ _ _ Hrn) as Hrows.
    unfold parallels_result.
    destruct (parallels_loop_represents uuid4 (get_attributes_for_set (base_set group))
                (parallels_by_name (parallel_rows group))
                (cards_from uuid4
                   (base_card (get_attributes_for_set (base_set group))
                      match uniform_sequence (present_sequences (base_rows group)) with
                      | Some _ => true | None => false end) n (base_rows group),
                 row_numbers (base_rows group), [],
                 n + length (base_rows group))
                name (rows_named (parallel_rows group) name) r Hitems Hrows)
      as [H|(c & Hc & ps & Hps & Hin)]; [by left|].
    right. exists c, ps. split; [by apply (first_with_survives _ _ _ Hc)|].
    split; [|done]. by destruct (first_with_split _ _ _ Hc) as (? & ? & _ & ? & _).
Qed.

(** ** The document of a frame *)

Lemma sets_fold_names uuid4 groups st :
  map CardSet.name (fold_left (sets_step uuid4) groups st).1.1
  = map CardSet.name st.1.1 ++ map base_set groups.
Proof.
  revert st. induction groups as [|g groups IH]; intros st; simpl.
  - by rewrite app_nil_r.
  - rewrite IH. destruct st as [[sets n] printed]. unfold sets_step.
    pose proof (process_group_eq uuid4 g n) as Hg.
    destruct (process_group uuid4 g n) as [[s n'] lines]. simpl.
    injection Hg as -> _ _. rewrite map_app. simpl. by rewrite <- app_assoc.
Qed.

Lemma sets_fold_printed uuid4 groups st :
  (fold_left (sets_step uuid4) groups st).2
  = st.2 ++ map (λ g, duplicate_warning (base_set g))
                (filter has_duplicate_rows groups).
Proof.
  revert st. induction groups as [|g groups IH]; intros st; simpl.
  - by rewrite app_nil_r.
  - rewrite IH. destruct st as [[sets n] printed]. unfold sets_step.
    pose proof (process_group_printed uuid4 g n) as Hg.
    destruct (process_group uuid4 g n) as [[s n'] lines]. simpl in *. subst lines.
    rewrite <- app_assoc. f_equal. unfold has_duplicate_rows at 2.
    case_bool_decide.
    + by rewrite filter_cons_False by (intros H'; by apply H').
    + by rewrite filter_cons_True.
Qed.

(** *** Which frames raise *)

Lemma flat_map_nil {A B} (f : A → list B) l :
  flat_map f l = [] ↔ ∀ x, In x l → f x = [].
Proof.
  induction l as [|x l IH]; simpl; [done|]. split.
  - intros [Hx Hl]%app_eq_nil y [<-|Hy]; [done|]. by apply IH.
  - intros H. rewrite (H x) by by left. apply IH. intros y Hy. apply H. by right.
Qed.

Lemma exception_of_value {A} (call : Exception + A) e :
  In e (exception_of call) ↔ call = inl e.
Proof.
  destruct call; simpl; [|by split].
  split; [by intros [<-|[]]|]. intros [= <-]. by left.
Qed.

Lemma exception_of_nil {A} (call : Exception + A) :
  exception_of call = [] ↔ ∀ e, call ≠ inl e.
Proof.
  destruct call; simpl; split; try done.
  intros H. by destruct (H e).
Qed.

(** The exceptions of a row are those of its refused cells. *)
Lemma row_errors_In r e :
  In e (row_errors r)
  → ∃ cell, (cell = CARD_NUMBER r ∨ cell = SEQUENCE r)
            ∧ refused cell ∧ e = ValueError (normalize_text cell).
Proof.
  unfold row_errors. intros [H|H]%in_app_or; apply exception_of_value in H.
  - apply raising_number_error in H as [-> Hr]. exists (CARD_NUMBER r).
    split; [by left|done].
  - apply raising_sequence_error in H as [-> Hr]. exists (SEQUENCE r).
    split; [by right|done].
Qed.

Lemma row_errors_nil r :
  row_errors r = [] ↔ ¬ refused (CARD_NUMBER r) ∧ ¬ refused (SEQUENCE r).
Proof.
  unfold row_errors. split.
  - intros [H1 H2]%app_eq_nil. split; intros Hr.
    + apply (proj1 (exception_of_nil _) H1 (ValueError (normalize_text (CARD_NUMBER r)))).
      by apply raising_number_error.
    + apply (proj1 (exception_of_nil _) H2 (ValueError (normalize_text (SEQUENCE r)))).
      by apply raising_sequence_error.
  - intros [H1 H2].
    rewrite (proj2 (exception_of_nil (Raising.normalize_card_number (CARD_NUMBER r)))).
    + apply exception_of_nil. by intros e [_ Hr]%raising_sequence_error.
    + by intros e [_ Hr]%raising_number_error.
Qed.

Lemma keys_errors_nil g :
  (∀ r, In r (base_rows g) → row_errors r = []) → keys_errors g = [].
Proof.
  intros H. apply flat_map_nil. intros r Hr.
  by destruct (app_eq_nil _ _ (H r Hr)).
Qed.

Lemma keys_errors_In g e :
  In e (keys_errors g)
  → ∃ r, In r (base_rows g) ∧ refused (CARD_NUMBER r)
         ∧ e = ValueError (normalize_text (CARD_NUMBER r)).
Proof.
  intros (r & Hr & He)%in_flat_map. exists r. split; [done|].
  apply exception_of_value in He. by apply raising_number_error in He as [-> ?].
Qed.

Lemma group_errors_nil g :
  group_errors g = [] ↔ ∀ r, In r (group_members g) → row_errors r = [].
Proof.
  unfold group_errors, group_members. split.
  - intros [H1 H2]%app_eq_nil r [Hr|Hr]%in_app_or.
    + by apply (proj1 (flat_map_nil _ _) H1).
    + apply in_map_iff in Hr as ([r' name] & <- & Hin).
      pose proof (proj1 (flat_map_nil _ _) H2 _ (parallels_by_name_In _ _ _ Hin)) as H.
      apply (proj1 (flat_map_nil _ _) H). by apply rows_named_In.
  - intros H. rewrite (proj2 (flat_map_nil row_errors (base_rows g))).
    + apply flat_map_nil. intros [name rows] Hitem. apply flat_map_nil.
      intros r Hr. apply H, in_or_app. right. apply in_map_iff.
      exists (r, name). split; [done|]. by apply (parallels_by_name_rows _ _ rows).
    + intros r Hr. apply H, in_or_app. by left.
Qed.

Lemma group_errors_In g e :
  In e (group_errors g)
  → ∃ r cell, In r (group_members g)
              ∧ (cell = CARD_NUMBER r ∨ cell = SEQUENCE r)
              ∧ refused cell ∧ e = ValueError (normalize_text cell).
Proof.
  unfold group_errors, group_members. intros [H|H]%in_app_or.
  - apply in_flat_map in H as (r & Hr & He).
    destruct (row_errors_In r e He) as (cell & Hc).
    exists r, cell. split; [|done]. apply in_or_app. by left.
  - apply in_flat_map in H as ([name rows] & Hitem & He).
    apply in_flat_map in He as (r & Hr & He).
    destruct (row_errors_In r e He) as (cell & Hc).
    exists r, cell. split; [|done]. apply in_or_app. right.
    apply in_map_iff. exists (r, name). split; [done|].
    by apply (parallels_by_name_rows _ _ rows).
Qed.

Lemma head_In {A} (l : list A) x : head l = Some x → In x l.
Proof. destruct l; [done|]. intros [= <-]. by left. Qed.

(** What holds of the base rows of the groups holds of the base rows of the
    groups merged so far. *)
Lemma merge_step_base_rows (Q : list Row → Prop) merged g :
  Forall (λ g, Q (base_rows g)) merged → Q (base_rows g) →
  Forall (λ g, Q (base_rows g)) (merge_step merged g).
Proof.
  intros Hm Hg. unfold merge_step.
  destruct (merge_scan merged g) as [l|] eqn:E.
  - revert l E. induction Hm as [|m merged Hq Hm IH]; intros l; simpl; [done|].
    destruct (is_parallel_candidate m g).
    + intros [= <-]. by constructor.
    + destruct (merge_scan merged g) as [l'|]; simpl; [|done].
      intros [= <-]. constructor; [done|]. by apply IH.
  - apply Forall_app. split; [done|]. by constructor.
Qed.

(** The merging raises nothing when no CARD NUMBER of a base row is
    refused, and otherwise the [ValueError] of one that is. *)
Lemma merge_scan_error_None merged g :
  Forall (λ g, keys_errors g = []) merged → keys_errors g = [] →
  merge_scan_error merged g = None.
Proof.
  intros Hm Hg. induction Hm as [|m merged Hk Hm IH]; [done|].
  cbn [merge_scan_error]. unfold candidate_errors. rewrite Hk, Hg. simpl.
  by destruct (is_parallel_candidate m g).
Qed.

Lemma merge_error_None merged groups :
  Forall (λ g, keys_errors g = []) merged →
  Forall (λ g, keys_errors g = []) groups →
  merge_error merged groups = None.
Proof.
  intros Hm Hg. revert merged Hm.
  induction Hg as [|g groups Hk Hg IH]; intros merged Hm; [done|].
  cbn [merge_error]. rewrite merge_scan_error_None by done. apply IH.
  apply (merge_step_base_rows
           (λ rows, flat_map (λ r, exception_of
                                     (Raising.normalize_card_number (CARD_NUMBER r)))
                             rows = [])); done.
Qed.

Lemma merge_scan_error_In merged g e :
  merge_scan_error merged g = Some e →
  ∃ g' r, (In g' merged ∨ g' = g) ∧ In r (base_rows g')
          ∧ refused (CARD_NUMBER r)
          ∧ e = ValueError (normalize_text (CARD_NUMBER r)).
Proof.
  induction merged as [|m merged IH]; [done|]. cbn [merge_scan_error].
  destruct (head (candidate_errors m g)) as [e'|] eqn:E.
  - intros [= <-]. apply head_In in E.
    apply in_app_or in E as [E|E]; apply keys_errors_In in E as (r & Hr & Hc).
    + exists m, r. split; [left; by left|done].
    + exists g, r. split; [by right|done].
  - destruct (is_parallel_candidate m g); [done|].
    intros (g' & r & [Hg'| ->] & Hr)%IH.
    + exists g', r. split; [left; by right|done].
    + exists g, r. split; [by right|done].
Qed.

Lemma merge_error_In (df : list Row) merged groups e :
  Forall (λ g, ∀ r, In r (base_rows g) → In r df) merged →
  Forall (λ g, ∀ r, In r (base_rows g) → In r df) groups →
  merge_error merged groups = Some e →
  ∃ r, In r df ∧ refused (CARD_NUMBER r)
       ∧ e = ValueError (normalize_text (CARD_NUMBER r)).
Proof.
  intros Hm Hg. revert merged Hm.
  induction Hg as [|g groups Hq Hg IH]; intros merged Hm; [done|].
  cbn [merge_error]. destruct (merge_scan_error merged g) as [e'|] eqn:E.
  - intros [= <-].
    destruct (merge_scan_error_In _ _ _ E) as (g' & r & [Hg'| ->] & Hr & Hc).
    + exists r. split; [|done].
      by apply (proj1 (List.Forall_forall _ _) Hm g').
    + exists r. split; [by apply Hq|done].
  - apply IH.
    by apply (merge_step_base_rows (λ rows, ∀ r, In r rows → In r df)).
Qed.

(** The lines a group prints are its duplicate warning, if it has
    duplicate rows. *)
Lemma process_group_line uuid4 g n line :
  In line (process_group uuid4 g n).2 →
  has_duplicate_rows g ∧ line = duplicate_warning (base_set g).
Proof.
  rewrite process_group_printed. case_bool_decide as Hd; [done|].
  by intros [<-|[]].
Qed.

Lemma warnings_of_In df line :
  In line (warnings_of df)
  ↔ ∃ g, In g (merge_groups (group_rows df)) ∧ has_duplicate_rows g
         ∧ line = duplicate_warning (base_set g).
Proof.
  unfold warnings_of. rewrite in_map_iff. split.
  - intros (g & <- & Hg). apply list_elem_of_In, list_elem_of_filter in Hg as [Hd Hg].
    exists g. split; [by apply list_elem_of_In|done].
  - intros (g & Hg & Hd & ->). exists g. split; [done|].
    apply list_elem_of_In, list_elem_of_filter. split; [done|].
    by apply list_elem_of_In.
Qed.

Lemma sets_loop_no_error uuid4 can_print groups st :
  Forall (λ g, group_errors g = []) groups →
  (∀ g n line, In g groups → In line (process_group uuid4 g n).2 →
               can_print line = true) →
  sets_loop uuid4 can_print groups st
  = (fold_left (sets_step uuid4) groups st, None).
Proof.
  intros H. revert st. induction H as [|g groups Hg H IH]; intros st Hp; [done|].
  cbn [sets_loop fold_left]. rewrite Hg. simpl.
  destruct st as [[sets n] printed].
  destruct (process_group uuid4 g n) as [[set_obj n'] lines] eqn:Eg.
  pose proof (print_lines_cases can_print lines) as Hc.
  destruct (print_lines can_print lines) as [shown [e|]].
  - destruct Hc as (_ & line & _ & Hl & Hf).
    rewrite (Hp g n line) in Hf; [done|by left|by rewrite Eg].
  - apply IH. intros g' n0 line Hg'. apply Hp. by right.
Qed.

(** After the grouping and the merging every row of the frame is held by a
    group. *)
Lemma merged_members df :
  concat (map group_members (merge_groups (group_rows df))) ≡ₚ df.
Proof.
  rewrite <- (group_rows_members df) at 2. generalize (group_rows df). intros gs.
  induction gs as [|g gs IH] using rev_ind; [done|].
  rewrite merge_groups_snoc, (map_app _ gs), (concat_app (map group_members gs)).
  simpl. rewrite app_nil_r. unfold merge_step.
  destruct (merge_scan (merge_groups gs) g) as [l|] eqn:E.
  - rewrite (merge_scan_members _ _ _ E). by apply Permutation_app_tail.
  - rewrite map_app, concat_app. simpl. rewrite app_nil_r.
    by apply Permutation_app_tail.
Qed.

Lemma in_concat_members gs r :
  In r (concat (map group_members gs)) ↔ ∃ g, In g gs ∧ In r (group_members g).
Proof.
  rewrite in_concat. split.
  - intros (l & (g & <- & Hg)%in_map_iff & Hr). by exists g.
  - intros (g & Hg & Hr). exists (group_members g). split; [|done]. by apply in_map.
Qed.

Lemma merged_member_of_frame df g r :
  In g (merge_groups (group_rows df)) → In r (group_members g) → In r df.
Proof.
  intros Hg Hr. apply (Permutation_in _ (merged_members df)).
  apply in_concat_members. by exists g.
Qed.

Lemma frame_row_in_merged df r :
  In r df → ∃ g, In g (merge_groups (group_rows df)) ∧ In r (group_members g).
Proof.
  intros Hr. apply in_concat_members.
  by apply (Permutation_in _ (Permutation_sym (merged_members df))).
Qed.

Lemma group_of_frame df g r :
  In g (group_rows df) → In r (base_rows g) → In r df.
Proof.
  intros Hg Hr. apply (Permutation_in _ (group_rows_members df)).
  apply in_concat_members. exists g. split; [done|]. apply in_or_app. by left.
Qed.

(** The document of a frame all of whose cells are read and all of whose
    warnings are printed. *)
Lemma process_csv_returns uuid4 read_csv can_print file_path row0 rest :
  read_csv file_path = inr (row0 :: rest) →
  (∀ r, In r (row0 :: rest) → row_errors r = []) →
  (∀ line, In line (warnings_of (row0 :: rest)) → can_print line = true) →
  ∃ sets n,
    fold_left (sets_step uuid4) (merge_groups (group_rows (row0 :: rest)))
              ([], 0, [])
    = (sets, n, warnings_of (row0 :: rest))
    ∧ process_csv_with_pandas uuid4 read_csv can_print file_path
      = (warnings_of (row0 :: rest),
         inr {| Release.schema := "http://json-schema.org/draft-07/schema#";
                Release.name := top_name row0;
                Release.version := "1.0";
                Release.uniqueId := uuid4 n;
                Release.attributes := [];
                Release.notes := [];
                Release.sets := sets |}).
Proof.
  intros Hread Hrows Hlines. unfold process_csv_with_pandas. rewrite Hread.
  rewrite merge_error_None; [|done|].
  - rewrite sets_loop_no_error.
    + pose proof (sets_fold_printed uuid4 (merge_groups (group_rows (row0 :: rest)))
                    ([], 0, [])) as Hprinted.
      destruct (fold_left _ _ _) as [[sets n] lines]. simpl in Hprinted.
      subst lines. by exists sets, n.
    + apply List.Forall_forall. intros g Hg. apply group_errors_nil.
      intros r Hr. by apply Hrows, (merged_member_of_frame _ g).
    + intros g n line Hg [Hd ->]%process_group_line.
      apply Hlines, warnings_of_In. by exists g.
  - apply List.Forall_forall. intros g Hg. apply keys_errors_nil.
    intros r Hr. by apply Hrows, (group_of_frame _ g).
Qed.

(** The exception of a frame is the [ValueError] of a refused cell or the
    exception of a warning that is not printed. *)
Lemma process_csv_raises uuid4 read_csv can_print file_path row0 rest lines e :
  read_csv file_path = inr (row0 :: rest) →
  process_csv_with_pandas uuid4 read_csv can_print file_path = (lines, inl e) →
  (∃ r cell, In r (row0 :: rest)
             ∧ (cell = CARD_NUMBER r ∨ cell = SEQUENCE r)
             ∧ refused cell ∧ e = ValueError (normalize_text cell))
  ∨ (∃ line, In line (warnings_of (row0 :: rest)) ∧ can_print line = false
             ∧ e = PrintError line).
Proof.
  intros Hread. unfold process_csv_with_pandas. rewrite Hread.
  destruct (merge_error [] (group_rows (row0 :: rest))) as [e'|] eqn:Em.
  - intros [= <- <-]. left.
    destruct (merge_error_In (row0 :: rest) _ _ _ ltac:(constructor)
                ltac:(apply List.Forall_forall; intros g Hg r;
                      by apply (group_of_frame _ g)) Em)
      as (r & Hr & Hc & ->).
    exists r, (CARD_NUMBER r). split; [done|]. split; [by left|done].
  - pose proof (sets_loop_returns uuid4 can_print
                  (merge_groups (group_rows (row0 :: rest))) ([], 0, [])) as Hloop.
    destruct (sets_loop _ _ _ _) as [[[sets n] printed] [e'|]]; [|done].
    intros [= <- <-]. destruct Hloop as (g & Hg & [He|(n' & line & -> & Hf & Hl)]).
    + left. apply head_In in He.
      destruct (group_errors_In _ _ He) as (r & cell & Hr & Hc).
      exists r, cell. split; [|done]. by apply (merged_member_of_frame _ g).
    + right. exists line. split; [|done].
      apply process_group_line in Hl as [Hd ->]. apply warnings_of_In. by exists g.
Qed.

(** On a frame with at least one row the normalizer returns a document
    exactly when no CARD NUMBER and no SEQUENCE is refused (accepted by
    [isdigit] and not read by [int]) and every duplicate warning is printed.
    The name of the document is then made of the trimmed year, brand,
    program and sport of the first row, joined by single spaces (the other
    rows' values are not looked at); its schema and version are fixed; it has
    one set per merged group, in the order of the groups and under the
    group's [base_set], so at least one set; and the lines printed are the
    duplicate warnings of the groups in which two base rows have the same
    key, in the order of the groups.  Otherwise it raises, either the
    [ValueError] of a refused cell or the exception of a warning that is not
    printed. *)
Theorem document_of_frame (uuid4 : nat → string)
    (read_csv : string → Exception + list Row) (can_print : string → bool)
    (file_path : string) (row0 : Row) (rest : list Row) :
  read_csv file_path = inr (row0 :: rest) →
  ((∀ r, In r (row0 :: rest) →
      ¬ refused (CARD_NUMBER r) ∧ ¬ refused (SEQUENCE r)) →
   (∀ line, In line (warnings_of (row0 :: rest)) → can_print line = true) →
   ∃ doc,
     process_csv_with_pandas uuid4 read_csv can_print file_path
     = (warnings_of (row0 :: rest), inr doc)
     ∧ Release.name doc = top_name row0
     ∧ Release.schema doc = "http://json-schema.org/draft-07/schema#"
     ∧ Release.version doc = "1.0"
     ∧ map CardSet.name (Release.sets doc)
       = map base_set (merge_groups (group_rows (row0 :: rest)))
     ∧ Release.sets doc ≠ [])
  ∧ ((∃ r, In r (row0 :: rest)
           ∧ (refused (CARD_NUMBER r) ∨ refused (SEQUENCE r)))
     ∨ (∃ line, In line (warnings_of (row0 :: rest)) ∧ can_print line = false) →
     ∃ lines e,
       process_csv_with_pandas uuid4 read_csv can_print file_path
       = (lines, inl e))
  ∧ (∀ lines e,
       process_csv_with_pandas uuid4 read_csv can_print file_path
       = (lines, inl e) →
       (∃ r cell, In r (row0 :: rest)
                  ∧ (cell = CARD_NUMBER r ∨ cell = SEQUENCE r)
                  ∧ refused cell ∧ e = ValueError (normalize_text cell))
       ∨ (∃ line, In line (warnings_of (row0 :: rest)) ∧ can_print line = false
                  ∧ e = PrintError line)).
Proof.
  intros Hread. split; [|split].
  - intros Hrows Hlines.
    destruct (process_csv_returns uuid4 read_csv can_print file_path row0 rest Hread)
      as (sets & n & Hst & Hdoc); [|done|].
    { intros r Hr. by apply row_errors_nil, Hrows. }
    pose proof (sets_fold_names uuid4 (merge_groups (group_rows (row0 :: rest)))
                  ([], 0, [])) as Hnames.
    rewrite Hst in Hnames. simpl in Hnames.
    eexists. split; [exact Hdoc|]. simpl. repeat split; [done|].
    intros ->. simpl in Hnames. symmetry in Hnames. apply map_eq_nil in Hnames.
    apply merge_groups_nonempty in Hnames; [done|].
    intros H. by apply group_rows_nil in H.
  - intros Hbad.
    destruct (process_csv_with_pandas uuid4 read_csv can_print file_path)
      as [lines [e|doc]] eqn:E; [by exists lines, e|]. exfalso.
    destruct (process_csv_document _ _ _ _ _ _ E)
      as (row0' & rest' & sets & n & Hread' & _ & Hall & Hprinted & Hst & _).
    rewrite Hread in Hread'. injection Hread' as <- <-.
    destruct Hbad as [(r & Hr & Hc)|(line & Hl & Hf)].
    + destruct (frame_row_in_merged _ _ Hr) as (g & Hg & Hin).
      assert (Hnil : row_errors r = []).
      { apply (proj1 (group_errors_nil g)); [|done].
        by apply (proj1 (List.Forall_forall _ _) Hall). }
      apply row_errors_nil in Hnil as [H1 H2]. by destruct Hc.
    + pose proof (sets_fold_printed uuid4
                    (merge_groups (group_rows (row0 :: rest))) ([], 0, []))
        as Hlines.
      rewrite Hst in Hlines. simpl in Hlines. subst lines.
      rewrite (proj1 (List.Forall_forall _ _) Hprinted line Hl) in Hf. done.
  - intros lines e. by apply process_csv_raises.
Qed.

Lemma document_of_frame_witness :
  ∃ doc,
    process_csv_with_pandas sample_uuid4 (csv_of uniform_with_placeholder)
      (λ _, true) "in.csv"
    = (warnings_of uniform_with_placeholder, inr doc)
    ∧ Release.name doc = "2021 Panini Prizm Football".
Proof.
  destruct (proj1 (document_of_frame sample_uuid4 (csv_of uniform_with_placeholder)
                     (λ _, true) "in.csv" (row "Topps" "1" "A" "10")
                     [row "Topps Gold" "2" "B" "5"] eq_refl))
    as (doc & H1 & H2 & _).
  - intros r Hr. apply row_errors_nil.
    destruct Hr as [<-|[<-|[]]]; vm_compute; reflexivity.
  - done.
  - exists doc. split; [exact H1|]. rewrite H2. reflexivity.
Defined.

(** ** How a run ends *)


Module FlattenerMore.
Import Flattener.

(** ** Flattening *)

Lemma for_each_map {A B C} (f : B → PyError + list C) (g : A → B)
    (h : A → list C) (l : list A) :
  (∀ x, In x l → f (g x) = inr (h x)) →
  for_each f (map g l) = inr (concat (map h l)).
Proof.
  induction l as [|x l IH]; intros H; simpl; [done|].
  rewrite (H x) by by left. rewrite IH; [done|].
  intros y Hy. apply H. by right.
Qed.

Lemma flatten_card_of_card category year release source set_name c :
  flatten_card category year release source set_name (json_of_card c)
  = inr [ {| category := category; year := year; release := release;
             source := source; set := set_name;
             card_number := JStr (Card.number c);
             card_name := JStr (Card.name c);
             attributes := JArr (map JStr (default [] (Card.attributes c)));
             note := JStr (default EmptyString (Card.note c)) |} ].
Proof.
  destruct c as [uid num name seq nt attrs pars note].
  destruct seq as [[?|]|], nt as [[?|]|], attrs as [?|], pars as [?|], note as [?|];
    reflexivity.
Qed.

(** The flattener reads what the normalizer writes: on the document of a
    release it raises nothing and returns exactly one record per card, set
    by set and card by card in the order of the document, with the
    document's name as source, the set's name, the card's number and name,
    the card's attributes (the empty list when the card has none) and the
    card's note (the empty string when it has none). *)
Theorem flatten_normalizer_output (category year release : string)
    (doc : Release.t) :
  flatten_card_data category year release (json_of_release doc)
  = inr (concat (map (λ s, map (record_of_card category year release doc s)
                               (CardSet.cards s))
                     (Release.sets doc))).
Proof.
  unfold flatten_card_data, json_of_release. simpl.
  apply for_each_map. intros s _. unfold flatten_set, json_of_set. simpl.
  rewrite (for_each_map _ json_of_card
             (λ c, [record_of_card category year release doc s c])).
  - f_equal. induction (CardSet.cards s) as [|c l IH]; [done|]. simpl. by rewrite IH.
  - intros c _. apply flatten_card_of_card.
Qed.

Lemma for_each_ext {A B} (f : A → PyError + list B) (h : A → list B) (l : list A) :
  (∀ x, In x l → f x = inr (h x)) →
  for_each f l = inr (concat (map h l)).
Proof.
  intros H. rewrite <- (map_id l) at 1. by apply for_each_map.
Qed.

Lemma for_each_raises {A B} (f : A → PyError + list B) (l : list A) x e :
  In x l → f x = inl e → ∃ e', for_each f l = inl e'.
Proof.
  induction l as [|y l IH]; simpl; [done|].
  intros [->|Hx] Hfx.
  - rewrite Hfx. by exists e.
  - destruct (f y) as [e0|ys]; [by exists e0|].
    destruct (IH Hx Hfx) as [e' ->]. by exists e'.
Qed.

Lemma flatten_card_object category year release source set_name members :
  flatten_card category year release source set_name (JObj members)
  = inr [ {| category := category; year := year; release := release;
             source := source; set := set_name;
             card_number := get_or "number" (JStr EmptyString) (JObj members);
             card_name := get_or "name" (JStr EmptyString) (JObj members);
             attributes := get_or "attributes" (JArr []) (JObj members);
             note := get_or "note" (JStr EmptyString) (JObj members) |} ].
Proof. reflexivity. Qed.

Lemma flatten_card_not_object category year release source set_name c :
  is_object c = false →
  flatten_card category year release source set_name c = inl AttributeError.
Proof. by destruct c. Qed.

(** [flatten_card_data] on a loaded document.  (1) On a document of the
    expected shape it returns one record per card, set by set and card by
    card in the order of the document, a missing [name], [number] or [note]
    read as the empty string and missing [attributes] as the empty list; a
    set without [cards] has no record.  (2) A document without [sets] gives
    no record and no error.  (3) A document that is not an object raises.
    (4) One set or one card that is not an object makes the whole document
    raise: no record of it is returned. *)
Theorem flatten_card_data_shapes (category year release : string) (data : json) :
  (well_shaped data →
   flatten_card_data category year release data
   = inr (concat
            (map (λ s, map (λ c, record_of category year release
                                   (members_of data) (members_of s) (members_of c))
                           (items_of (get_or "cards" (JArr []) s)))
                 (items_of (get_or "sets" (JArr []) data)))))
  ∧ (is_object data = true → get_member "sets" (members_of data) = None →
     flatten_card_data category year release data = inr [])
  ∧ (is_object data = false →
     flatten_card_data category year release data = inl AttributeError)
  ∧ (∀ sets s,
       is_object data = true → get_or "sets" (JArr []) data = JArr sets →
       In s sets →
       is_object s = false
       ∨ (∃ cards c, get_or "cards" (JArr []) s = JArr cards ∧ In c cards
                     ∧ is_object c = false) →
       ∃ e, flatten_card_data category year release data = inl e).
Proof.
  split; [|split; [|split]].
  - intros (Hdata & Hsets & Hall). destruct data as [| | | | | |doc]; try done.
    unfold flatten_card_data, get_or in *. simpl in *.
    destruct (default (JArr []) (get_member "sets" doc)) as [| | | | |sets|];
      try done.
    simpl in *. apply for_each_ext. intros s Hs.
    destruct (Hall s Hs) as (Hobj & Hcards & Hcs).
    destruct s as [| | | | | |members]; try done.
    unfold flatten_set. simpl in *.
    destruct (default (JArr []) (get_member "cards" members)) as [| | | | |cards|];
      try done.
    simpl in *.
    rewrite (for_each_ext _
               (λ c, [record_of category year release doc members (members_of c)])).
    + f_equal. induction cards as [|c l IH]; [done|]. simpl. rewrite IH; [done|].
      intros c' Hc'. apply Hcs. by right.
    + intros c Hc. specialize (Hcs c Hc). by destruct c.
  - intros Hdata Hnone. destruct data as [| | | | | |doc]; try done.
    unfold flatten_card_data. simpl in *. by rewrite Hnone.
  - intros Hdata. by destruct data.
  - intros sets s Hdata Hsets Hs Hbad. destruct data as [| | | | | |doc]; try done.
    unfold flatten_card_data, get_or in *. simpl in *. rewrite Hsets. simpl.
    destruct Hbad as [Hobj|(cards & c & Hcards & Hc & Hobj)].
    + apply (for_each_raises _ sets s AttributeError Hs). by destruct s.
    + destruct s as [| | | | | |members];
        try (by apply (for_each_raises _ sets _ AttributeError Hs)).
      simpl in Hcards.
      assert (∃ e, flatten_set category year release
                     (default (JStr EmptyString) (get_member "name" doc))
                     (JObj members) = inl e) as [e He].
      { unfold flatten_set. simpl. rewrite Hcards. simpl.
        apply (for_each_raises _ cards c AttributeError Hc).
        by apply flatten_card_not_object. }
      by apply (for_each_raises _ sets _ e Hs).
Qed.

(** ** The walk of the directory tree *)






(** ** Counts *)

Lemma card_counts_cons r rs :
  map snd (card_counts (r :: rs))
  = map (λ p : string * nat,
           (if decide (PyStr.lower (category r) = p.1) then 1 else 0) + p.2)
        (card_counts rs).
Proof.
  unfold card_counts. rewrite !map_map. apply map_ext. intros cat. cbn [fst snd].
  case_decide; [by rewrite filter_cons_True|by rewrite filter_cons_False].
Qed.

(** The counts written to [card_counts.json]: always the four categories
    baseball, football, basketball and hockey, in this order, whatever the
    records are; a record is counted in the category its own category is in
    lower case, so in one of them at most; and the counts add up to the number
    of records whose lower-cased category is one of the four, the others
    being in the dataset but in no count. *)
Theorem card_counts_total (all_records : list FlatRecord) :
  map fst (card_counts all_records) = target_categories
  ∧ (∀ cat n, In (cat, n) (card_counts all_records) →
       n = length (filter (λ r, PyStr.lower (category r) = cat) all_records))
  ∧ list_sum (map snd (card_counts all_records))
    = length (filter (λ r, PyStr.lower (category r) ∈ target_categories) all_records)
  ∧ list_sum (map snd (card_counts all_records)) ≤ length all_records.
Proof.
  split; [done|]. split.
  { intros cat n H. unfold card_counts in H. simpl in H.
    destruct H as [H|[H|[H|[H|[]]]]]; by injection H as <- <-. }
  assert (Hsum : list_sum (map snd (card_counts all_records))
                 = length (filter (λ r, PyStr.lower (category r) ∈ target_categories)
                                  all_records)).
  { induction all_records as [|r rs IH]; [done|].
    rewrite card_counts_cons. unfold card_counts in *. simpl in *.
    unfold target_categories in *.
    destruct (decide (PyStr.lower (category r) ∈ ["baseball"; "football"; "basketball"; "hockey"]))
      as [Hin|Hout].
    - rewrite filter_cons_True by done. simpl. rewrite <- IH.
      repeat (apply elem_of_cons in Hin as [->|Hin]);
        [..|by apply elem_of_nil in Hin];
        repeat case_decide; try done; simpl; lia.
    - rewrite filter_cons_False by done. rewrite <- IH.
      repeat case_decide; subst; simpl; try lia;
        exfalso; apply Hout; rewrite !elem_of_cons; tauto. }
  split; [done|]. rewrite Hsum. apply length_filter.
Qed.

End FlattenerMore.
